(** * The robot's brain: lock coordinator, encryption layer, short-term
      memories and the datum API of package [bot].

    The development follows the Go source: [getDatum], [storeDatum],
    [replyToWaiter], the [runBrain] select loop, the internal helpers
    [checkout], [update], [checkinDatum], [checkoutDatum], [updateDatum] and
    the exported methods of [Robot].  The select loop is modelled by one
    transition per received event; channels are modelled by a log of the
    messages delivered on reply channels.  Calls of [Log] are left out, and
    so are [initializeEncryption] and [reKey], which only set up the state
    of [cryptKey] the operations start from. *)

From Stdlib Require Import ZArith Strings.Byte Ascii String.
From stdpp Require Import gmap strings list.

Local Open Scope string_scope.
Local Open Scope Z_scope.

(** ** Result codes *)

(** Modelled from the spec: the [RetVal] result codes are declared in a file
    of package [bot] that is not part of the sources at hand; the constructors
    are the names the brain code uses (invalid-key, not-found, stale-lock,
    serialization-failure and storage-failure of the error taxonomy). *)
Inductive RetVal : Set :=
| Ok
| DatumNotFound
| DatumLockExpired
| DataFormatError
| BrainFailed
| InvalidDatumKey.

#[global] Instance RetVal_eq_dec : EqDecision RetVal.
Proof. solve_decision. Defined.

(** ** Keys and tokens *)

(** [\w] of Go's regexp syntax: ASCII letters, digits and underscore. *)
Definition is_word_char (a : ascii) : bool :=
  let n := nat_of_ascii a in
  ((48 <=? n) && (n <=? 57) || (65 <=? n) && (n <=? 90)
   || (97 <=? n) && (n <=? 122) || (n =? 95))%nat.

(** [keyRe = regexp.MustCompile(`[\w:]+`)]; [MatchString] is not anchored, so
    it holds as soon as one character of the string is in the class. *)
Definition keyRe_MatchString (s : string) : bool :=
  existsb (fun a => is_word_char a || Ascii.eqb a ":") (list_ascii_of_string s).

(** [strings.ContainsRune(key, ':')] *)
Definition ContainsRune (s : string) (r : ascii) : bool :=
  existsb (Ascii.eqb r) (list_ascii_of_string s).

Definition hexdigit (n : N) : ascii :=
  match String.get (N.to_nat n) "0123456789abcdef" with
  | Some c => c
  | None => "0"%char
  end.

(** [fmt.Sprintf("%x", ltb)] for a byte slice: two lowercase hex digits per
    byte. *)
Fixpoint Sprintf_x (bs : list byte) : string :=
  match bs with
  | [] => ""
  | b :: bs' =>
      String (hexdigit (Byte.to_N b / 16))
        (String (hexdigit (Byte.to_N b mod 16)) (Sprintf_x bs'))
  end.

Definition botEncryptionKey : string := "bot:encryptionKey".

(** ** External collaborators *)

(** A Go [error]: [None] is [nil]. *)
Definition error : Type := option string.

(** The [SimpleBrain] interface of a configured storage provider.  The
    provider's own state is threaded explicitly.  The blob of [Retrieve] is
    the slice behind the returned pointer; the brain reads it only when
    [exists] is true and the error is [nil]. *)
Class SimpleBrain (B : Type) := {
  Store : string -> list byte -> B -> error * B;
  Retrieve : string -> B -> (list byte * bool * error) * B
}.

(** [encrypt] and [decrypt] of package [bot] (AES, defined outside the brain
    file): the second argument is the key, [None] is a non-nil error. *)
Class Crypt := {
  encrypt : list byte -> list byte -> option (list byte);
  decrypt : list byte -> list byte -> option (list byte)
}.

(** [crypto/rand]: [entropy n i] is byte [i] delivered by the [n]-th call of
    [rand.Read]. *)
Class RandSource := {
  entropy : nat -> nat -> byte
}.

Definition rand_Read `{RandSource} (n : nat) (len : nat) : list byte :=
  List.map (entropy n) (seq 0 len).

(** ** Data of the brain *)

(** Reply channels are created by [make(chan ...)] in the callers; a channel
    is identified by a number. *)
Definition chan : Set := nat.

Record checkOutRequest := {
  creq_key : string;
  creq_rw : bool;
  creq_reply : chan
}.

Record checkInRequest := {
  ci_key : string;
  ci_token : string
}.

Record updateRequest := {
  ur_key : string;
  ur_token : string;
  ur_datum : list byte;
  ur_reply : chan
}.

Record checkOutReply := {
  rep_token : string;
  rep_bytes : option (list byte);
  rep_exists : bool;
  rep_retval : RetVal
}.

Record quitRequest := {
  qr_reply : chan
}.

Inductive brainOp :=
| checkOutBytes (creq : checkOutRequest)
| checkInBytes (ci : checkInRequest)
| updateBytes (ur : updateRequest)
| quit (qr : quitRequest).

Inductive memState := newMemory | seen | available.

#[global] Instance memState_eq_dec : EqDecision memState.
Proof. solve_decision. Defined.

Record memstatus := {
  state : memState;
  token : string;
  waiters : list checkOutRequest
}.

(** Short-term memories; time stamps are nanoseconds on the clock read by
    [time.Now]. *)
Record shortTermMemory := {
  memory : string;
  timestamp : Z
}.

(** [memoryContext]: the key, the user and the channel. *)
Abbreviation memoryContext := (string * string * string)%type.

(** What is delivered on a reply channel. *)
Inductive message :=
| checkOutMsg (rep : checkOutReply)
| retValMsg (ret : RetVal)
| quitMsg.

(** The calls received by the storage provider, in order. *)
Inductive providerCall :=
| StoreCall (key : string) (blob : list byte)
| RetrieveCall (key : string).

(** [cryptKey] *)
Record cryptKeyT := {
  ck_key : list byte;
  ck_initializing : bool;
  ck_initialized : bool
}.

(** The package-level state read and written by [getDatum] and [storeDatum]:
    [botCfg.brain] ([None] is [nil]), [encryptBrain], [cryptKey], the number of
    reads made of the random source, and the calls made to the provider. *)
Record Globals (B : Type) := {
  brain : option B;
  encryptBrain : bool;
  cryptKey : cryptKeyT;
  rand_reads : nat;
  brain_calls : list providerCall
}.
Arguments brain {B} _.
Arguments encryptBrain {B} _.
Arguments cryptKey {B} _.
Arguments rand_reads {B} _.
Arguments brain_calls {B} _.

(** The state of the [runBrain] loop: the globals, [shortTermMemories.m],
    the local map [memories], the messages delivered on reply channels so far,
    and whether the loop has ended. *)
Record World (B : Type) := {
  globals : Globals B;
  shortTermMemories : gmap memoryContext shortTermMemory;
  memories : gmap string memstatus;
  delivered : list (chan * message);
  stopped : bool
}.
Arguments globals {B} _.
Arguments shortTermMemories {B} _.
Arguments memories {B} _.
Arguments delivered {B} _.
Arguments stopped {B} _.

Inductive event :=
| brainChanEvent (evt : brainOp)
| processMemories (now : Z) (order1 order2 : list nat).

(** ** Time *)

Definition shortTermDuration : Z := 7 * 60 * 1000000000.
Definition maxDuration : Z := 2 ^ 63 - 1.
Definition minDuration : Z := - 2 ^ 63.

(** [t.Sub(u)]: the difference, saturated to the range of [time.Duration]. *)
Definition Time_Sub (t u : Z) : Z :=
  let d := t - u in
  if d >? maxDuration then maxDuration
  else if d <? minDuration then minDuration
  else d.

(** ** Iteration over a Go map *)

(** The order of a [range] over a map is chosen by the runtime.  The choice is
    an input of the model: [range_order choices l] enumerates [l] by taking,
    at each step, the element at position [choice mod length] of what is
    left. *)
Fixpoint pick_order {A : Type} (n : nat) (choices : list nat) (l : list A) : list A :=
  match n with
  | O => []
  | S n' =>
      let i := (hd 0%nat choices mod length l)%nat in
      match l !! i with
      | Some y => y :: pick_order n' (tl choices) (delete i l)
      | None => []
      end
  end.

Definition range_order {A : Type} (choices : list nat) (l : list A) : list A :=
  pick_order (length l) choices l.

(** ** The brain's operations *)

Section Operations.
Context {B : Type} `{!SimpleBrain B, !Crypt, !RandSource}.

Definition set_brain (b : B) (c : providerCall) (g : Globals B) : Globals B :=
  {| brain := Some b;
     encryptBrain := encryptBrain g;
     cryptKey := cryptKey g;
     rand_reads := rand_reads g;
     brain_calls := brain_calls g ++ [c] |}.

Definition incr_rand (g : Globals B) : Globals B :=
  {| brain := brain g;
     encryptBrain := encryptBrain g;
     cryptKey := cryptKey g;
     rand_reads := S (rand_reads g);
     brain_calls := brain_calls g |}.

(** [storeDatum] takes a blob of bytes and optionally encrypts it before
    sending it to the brain provider. *)
Definition storeDatum (dkey : string) (datum : list byte) (g : Globals B)
  : RetVal * Globals B :=
  match brain g with
  | None => (BrainFailed, g)
  | Some b =>
      let ck := cryptKey g in
      let sealed :=
        if encryptBrain g then
          if negb (ck_initialized ck)
             && negb (ck_initializing ck && bool_decide (dkey = botEncryptionKey))
          then None
          else encrypt datum (ck_key ck)
        else Some datum in
      match sealed with
      | None => (BrainFailed, g)
      | Some blob =>
          let '(err, b') := Store dkey blob b in
          let g' := set_brain b' (StoreCall dkey blob) g in
          match err with
          | Some _ => (BrainFailed, g')
          | None => (Ok, g')
          end
      end
  end.

Definition mkReply (tok : string) (d : option (list byte)) (e : bool) (r : RetVal)
  : checkOutReply :=
  {| rep_token := tok; rep_bytes := d; rep_exists := e; rep_retval := r |}.

(** [getDatum] retrieves a blob of bytes from the brain provider and
    optionally decrypts it.  The four results are packed in a
    [checkOutReply]. *)
Definition getDatum (dkey : string) (rw : bool) (g : Globals B)
  : checkOutReply * Globals B :=
  if negb (keyRe_MatchString dkey) then (mkReply "" None false InvalidDatumKey, g)
  else
    match brain g with
    | None => (mkReply "" None false BrainFailed, g)
    | Some b =>
        let '(tok, g1) :=
          if rw then (Sprintf_x (rand_Read (rand_reads g) 8), incr_rand g)
          else ("", g) in
        let '(db, exists_, err, b') := Retrieve dkey b in
        let g2 := set_brain b' (RetrieveCall dkey) g1 in
        match err with
        | Some _ => (mkReply "" None false BrainFailed, g2)
        | None =>
            if negb exists_ then (mkReply tok None false Ok, g2)
            else if encryptBrain g2 then
              let ck := cryptKey g2 in
              if ck_initializing ck then
                if negb (bool_decide (dkey = botEncryptionKey))
                then (mkReply "" None false BrainFailed, g2)
                else
                  match decrypt db (ck_key ck) with
                  | None => (mkReply "" None false BrainFailed, g2)
                  | Some decrypted => (mkReply tok (Some decrypted) true Ok, g2)
                  end
              else if ck_initialized ck then
                match decrypt db (ck_key ck) with
                | None =>
                    let '(_, g3) := storeDatum dkey db g2 in
                    (mkReply tok (Some db) true Ok, g3)
                | Some decrypted => (mkReply tok (Some decrypted) true Ok, g2)
                end
              else (mkReply "" None false BrainFailed, g2)
            else (mkReply tok (Some db) true Ok, g2)
        end
    end.

(** *** The select loop *)

Definition set_globals (g : Globals B) (w : World B) : World B :=
  {| globals := g;
     shortTermMemories := shortTermMemories w;
     memories := memories w;
     delivered := delivered w;
     stopped := stopped w |}.

Definition set_memories (ms : gmap string memstatus) (w : World B) : World B :=
  {| globals := globals w;
     shortTermMemories := shortTermMemories w;
     memories := ms;
     delivered := delivered w;
     stopped := stopped w |}.

Definition set_shortTerm (sm : gmap memoryContext shortTermMemory) (w : World B)
  : World B :=
  {| globals := globals w;
     shortTermMemories := sm;
     memories := memories w;
     delivered := delivered w;
     stopped := stopped w |}.

(** [c <- msg] on a reply channel. *)
Definition send (c : chan) (msg : message) (w : World B) : World B :=
  {| globals := globals w;
     shortTermMemories := shortTermMemories w;
     memories := memories w;
     delivered := delivered w ++ [(c, msg)];
     stopped := stopped w |}.

Definition stop (w : World B) : World B :=
  {| globals := globals w;
     shortTermMemories := shortTermMemories w;
     memories := memories w;
     delivered := delivered w;
     stopped := true |}.

(** [getDatum] run on the globals of a world. *)
Definition fetch (dkey : string) (rw : bool) (w : World B) : checkOutReply * World B :=
  let '(rep, g) := getDatum dkey rw (globals w) in (rep, set_globals g w).

(** [replyToWaiter(m)]: [m] is the record behind the pointer; the caller
    writes the returned record back under the key of the map that holds the
    pointer.  With no waiter the Go code panics on [m.waiters[0]]; every
    call is guarded by [len(m.waiters) > 0]. *)
Definition replyToWaiter (m : memstatus) (w : World B) : memstatus * World B :=
  match waiters m with
  | [] => (m, w)
  | creq :: rest =>
      let '(rep, w1) := fetch (creq_key creq) true w in
      ({| state := newMemory; token := rep_token rep; waiters := rest |},
       send (creq_reply creq) (checkOutMsg rep) w1)
  end.

Definition store_record (k : string) (mw : memstatus * World B) : World B :=
  set_memories (<[k := mw.1]> (memories mw.2)) mw.2.

(** [case checkOutBytes] *)
Definition do_checkOut (creq : checkOutRequest) (w : World B) : World B :=
  match memories w !! creq_key creq with
  | None =>
      let '(rep, w1) := fetch (creq_key creq) (creq_rw creq) w in
      if negb (bool_decide (rep_retval rep = Ok))
      then send (creq_reply creq) (checkOutMsg rep) w1
      else
        let w2 :=
          if creq_rw creq
          then set_memories
                 (<[creq_key creq :=
                      {| state := newMemory; token := rep_token rep; waiters := [] |}]>
                    (memories w1)) w1
          else w1 in
        send (creq_reply creq) (checkOutMsg rep) w2
  | Some memStat =>
      if negb (creq_rw creq) then
        let '(rep, w1) := fetch (creq_key creq) (creq_rw creq) w in
        send (creq_reply creq) (checkOutMsg rep) w1
      else if bool_decide (state memStat = available) then
        let '(rep, w1) := fetch (creq_key creq) (creq_rw creq) w in
        let memStat' :=
          {| state := newMemory; token := rep_token rep; waiters := waiters memStat |} in
        send (creq_reply creq) (checkOutMsg rep)
          (set_memories (<[creq_key creq := memStat']> (memories w1)) w1)
      else
        let memStat' :=
          {| state := state memStat; token := token memStat;
             waiters := waiters memStat ++ [creq] |} in
        set_memories (<[creq_key creq := memStat']> (memories w)) w
  end.

(** The common tail of [case checkInBytes] and [case updateBytes]. *)
Definition release (k : string) (m : memstatus) (w : World B) : World B :=
  if (0 <? length (waiters m))%nat
  then store_record k (replyToWaiter m w)
  else set_memories (delete k (memories w)) w.

(** [case checkInBytes] *)
Definition do_checkIn (ci : checkInRequest) (w : World B) : World B :=
  match memories w !! ci_key ci with
  | None => w
  | Some m =>
      if negb (bool_decide (ci_token ci = token m)) then w
      else release (ci_key ci) m w
  end.

(** [case updateBytes] *)
Definition do_update (ur : updateRequest) (w : World B) : World B :=
  match memories w !! ur_key ur with
  | None => send (ur_reply ur) (retValMsg DatumNotFound) w
  | Some m =>
      if negb (bool_decide (ur_token ur = token m))
      then send (ur_reply ur) (retValMsg DatumLockExpired) w
      else
        let '(ret, g) := storeDatum (ur_key ur) (ur_datum ur) (globals w) in
        release (ur_key ur) m (send (ur_reply ur) (retValMsg ret) (set_globals g w))
  end.

(** [case quit] *)
Definition do_quit (qr : quitRequest) (w : World B) : World B :=
  stop (send (qr_reply qr) quitMsg w).

(** The sweep of the short-term memories, one iteration of the [range]. *)
Definition sweep_one (now : Z) (sm : gmap memoryContext shortTermMemory)
    (k : memoryContext) : gmap memoryContext shortTermMemory :=
  match sm !! k with
  | Some v =>
      if Time_Sub now (timestamp v) >? shortTermDuration then delete k sm else sm
  | None => sm
  end.

Definition sweep (now : Z) (order : list nat)
    (sm : gmap memoryContext shortTermMemory) : gmap memoryContext shortTermMemory :=
  foldl (sweep_one now) sm (range_order order (map_to_list sm).*1).

(** The aging of the record of one key, one iteration of the [range] over
    [memories]. *)
Definition age_one (w : World B) (k : string) : World B :=
  match memories w !! k with
  | None => w
  | Some m =>
      match state m with
      | newMemory =>
          set_memories
            (<[k := {| state := seen; token := token m; waiters := waiters m |}]>
               (memories w)) w
      | seen =>
          if (0 <? length (waiters m))%nat
          then store_record k (replyToWaiter m w)
          else
            set_memories
              (<[k := {| state := available; token := token m; waiters := waiters m |}]>
                 (memories w)) w
      | available => w
      end
  end.

(** [case <-processMemories] *)
Definition do_tick (now : Z) (order1 order2 : list nat) (w : World B) : World B :=
  let w1 := set_shortTerm (sweep now order1 (shortTermMemories w)) w in
  foldl age_one w1 (range_order order2 (map_to_list (memories w1)).*1).

(** One turn of the [for { select { ... } }] loop of [runBrain]; after
    [break loop] nothing is received any more. *)
Definition runBrain_step (w : World B) (ev : event) : World B :=
  if stopped w then w
  else
    match ev with
    | brainChanEvent (checkOutBytes creq) => do_checkOut creq w
    | brainChanEvent (checkInBytes ci) => do_checkIn ci w
    | brainChanEvent (updateBytes ur) => do_update ur w
    | brainChanEvent (quit qr) => do_quit qr w
    | processMemories now order1 order2 => do_tick now order1 order2 w
    end.

(** [runBrain]: the loop run on a sequence of events. *)
Definition runBrain_from (w : World B) (evs : list event) : World B :=
  foldl runBrain_step w evs.

(** The world in which [runBrain] starts: [memories] and
    [shortTermMemories.m] freshly made, nothing delivered yet. *)
Definition runBrain_start (g : Globals B) : World B :=
  {| globals := g;
     shortTermMemories := ∅;
     memories := ∅;
     delivered := [];
     stopped := false |}.

Definition runBrain (g : Globals B) (evs : list event) : World B :=
  runBrain_from (runBrain_start g) evs.

End Operations.

(** ** The datum API *)

(** The fields of [Robot] the brain reads. *)
Record Robot := {
  User : string;
  Channel : string;
  id : nat
}.

Record botTask := {
  NameSpace : string
}.

(** [botContext]: [currentTask] stands for [getTask(c.currentTask)], the task
    record behind the interface value. *)
Record botContext := {
  currentTask : botTask;
  nsExtension : string
}.

(** [getBotContextInt], the table of running contexts (defined outside the
    brain file). *)
Class Contexts := {
  getBotContextInt : nat -> botContext
}.

(** [encoding/json] at the type [D] of a datum. *)
Class Json (D : Type) := {
  json_Marshal : D -> option (list byte);
  json_Unmarshal : list byte -> option D
}.

(** A call of the API either returns at once, or sends one request on
    [brainChanEvents] and then returns; [CheckOutCall] and [UpdateCall] first
    receive the reply on the channel of the request. *)
Inductive api (A : Type) :=
| Return (a : A)
| CheckOutCall (creq : checkOutRequest) (k : checkOutReply -> A)
| UpdateCall (ur : updateRequest) (k : RetVal -> A)
| CheckInCall (ci : checkInRequest) (a : A).
Arguments Return {A} _.
Arguments CheckOutCall {A} _ _.
Arguments UpdateCall {A} _ _.
Arguments CheckInCall {A} _ _.

Definition api_map {A A' : Type} (f : A -> A') (c : api A) : api A' :=
  match c with
  | Return a => Return (f a)
  | CheckOutCall creq k => CheckOutCall creq (fun rep => f (k rep))
  | UpdateCall ur k => UpdateCall ur (fun ret => f (k ret))
  | CheckInCall ci a => CheckInCall ci (f a)
  end.

(** The request a call sends to the coordinator, if any. *)
Definition request_of {A : Type} (c : api A) : option brainOp :=
  match c with
  | Return _ => None
  | CheckOutCall creq _ => Some (checkOutBytes creq)
  | UpdateCall ur _ => Some (updateBytes ur)
  | CheckInCall ci _ => Some (checkInBytes ci)
  end.

Definition key_of (op : brainOp) : option string :=
  match op with
  | checkOutBytes creq => Some (creq_key creq)
  | checkInBytes ci => Some (ci_key ci)
  | updateBytes ur => Some (ur_key ur)
  | quit _ => None
  end.

Definition getContext `{Contexts} (r : Robot) : botContext :=
  getBotContextInt (id r).

(** The key sent to the brain: the namespace of the task, the extension of
    the pipeline when there is one, and the key of the caller. *)
Definition namespaced `{Contexts} (r : Robot) (key : string) : string :=
  let c := getContext r in
  let task := currentTask c in
  if (0 <? String.length (nsExtension c))%nat
  then NameSpace task ++ ":" ++ nsExtension c ++ ":" ++ key
  else NameSpace task ++ ":" ++ key.

Section DatumAPI.
Context {D : Type} `{!Json D, !Contexts}.

(** [checkout]; [reply] is the channel made by the call. *)
Definition checkout (reply : chan) (d : string) (rw : bool) : api checkOutReply :=
  if negb (keyRe_MatchString d)
  then Return {| rep_token := ""; rep_bytes := None; rep_exists := false;
                 rep_retval := InvalidDatumKey |}
  else CheckOutCall {| creq_key := d; creq_rw := rw; creq_reply := reply |}
         (fun rep => rep).

(** [update] *)
Definition update (reply : chan) (d lt : string) (datum : list byte) : api RetVal :=
  if bool_decide (lt = "") then Return Ok
  else UpdateCall {| ur_key := d; ur_token := lt; ur_datum := datum;
                     ur_reply := reply |} (fun ret => ret).

(** [checkinDatum] *)
Definition checkinDatum (key locktoken : string) : api unit :=
  if bool_decide (locktoken = "") then Return tt
  else CheckInCall {| ci_key := key; ci_token := locktoken |} tt.

(** [checkoutDatum]: the results are the lock token, [exists], the result
    code and the value unmarshalled into [datum] when there is one.  A reply
    with [exists] true carries bytes (see [getDatum]). *)
Definition checkoutDatum (reply : chan) (key : string) (rw : bool)
  : api (string * bool * RetVal * option D) :=
  api_map
    (fun rep =>
       if rep_exists rep then
         match json_Unmarshal (default [] (rep_bytes rep)) with
         | None => (rep_token rep, false, DataFormatError, None)
         | Some v => (rep_token rep, true, rep_retval rep, Some v)
         end
       else (rep_token rep, false, rep_retval rep, None))
    (checkout reply key rw).

(** [updateDatum] *)
Definition updateDatum (reply : chan) (key locktoken : string) (datum : D)
  : api RetVal :=
  match json_Marshal datum with
  | None => Return DataFormatError
  | Some dbytes => update reply key locktoken dbytes
  end.

(** [Robot.CheckoutDatum]; the named results start at their zero values. *)
Definition CheckoutDatum (reply : chan) (r : Robot) (key : string) (rw : bool)
  : api (string * bool * RetVal * option D) :=
  if ContainsRune key ":" then Return ("", false, InvalidDatumKey, None)
  else checkoutDatum reply (namespaced r key) rw.

(** [Robot.CheckinDatum]: the method has no result. *)
Definition CheckinDatum (r : Robot) (key locktoken : string) : api unit :=
  if bool_decide (locktoken = "") then Return tt
  else if ContainsRune key ":" then Return tt
  else checkinDatum (namespaced r key) locktoken.

(** [Robot.UpdateDatum] *)
Definition UpdateDatum (reply : chan) (r : Robot) (key locktoken : string) (datum : D)
  : api RetVal :=
  if ContainsRune key ":" then Return InvalidDatumKey
  else updateDatum reply (namespaced r key) locktoken datum.

End DatumAPI.

Section Callers.
Context {B : Type} `{!SimpleBrain B, !Crypt, !RandSource}.

(** What a caller blocked on [<-reply] receives from a turn of the loop: the
    first message delivered on its channel in that turn. *)
Definition received (c : chan) (w w' : World B) : option message :=
  snd <$> List.find (fun e => bool_decide (e.1 = c))
                    (drop (length (delivered w)) (delivered w')).

(** A call of the API made while the loop is at [w]: the world after the
    loop has handled the request of the call, and the result of the call,
    [None] when the caller is still blocked on its send or on its reply
    channel. *)
Definition run_api {A : Type} (c : api A) (w : World B) : World B * option A :=
  match c with
  | Return a => (w, Some a)
  | CheckOutCall creq k =>
      let w' := runBrain_step w (brainChanEvent (checkOutBytes creq)) in
      (w', match received (creq_reply creq) w w' with
           | Some (checkOutMsg rep) => Some (k rep)
           | _ => None
           end)
  | UpdateCall ur k =>
      let w' := runBrain_step w (brainChanEvent (updateBytes ur)) in
      (w', match received (ur_reply ur) w w' with
           | Some (retValMsg ret) => Some (k ret)
           | _ => None
           end)
  | CheckInCall ci a =>
      (runBrain_step w (brainChanEvent (checkInBytes ci)),
       if stopped w then None else Some a)
  end.

(** [Robot.Remember]; [now] is the reading of [time.Now]. *)
Definition Remember (r : Robot) (key value : string) (now : Z) (w : World B)
  : World B :=
  set_shortTerm
    (<[(key, User r, Channel r) := {| memory := value; timestamp := now |}]>
       (shortTermMemories w)) w.

(** [Robot.RememberContext] *)
Definition RememberContext (r : Robot) (context value : string) (now : Z)
    (w : World B) : World B :=
  Remember r ("context:" ++ context) value now w.

(** [Robot.Recall] *)
Definition Recall (r : Robot) (key : string) (w : World B) : string :=
  match shortTermMemories w !! (key, User r, Channel r) with
  | None => ""
  | Some m => memory m
  end.

End Callers.

(** ** Observations on runs

    The notions the properties of the brain are stated with. *)

Section Observations.
Context {B : Type} `{!SimpleBrain B, !Crypt, !RandSource}.

(** The token minted by the [n]-th read of the random source. *)
Definition minted_token (n : nat) : string := Sprintf_x (rand_Read n 8).

(** What the sweep leaves of an entry. *)
Definition kept (now : Z) (e : option shortTermMemory) : option shortTermMemory :=
  match e with
  | Some v => if now - timestamp v >? shortTermDuration then None else Some v
  | None => None
  end.

(** The record left by [replyToWaiter] for the waiter [creq], given the
    reply [rep] of its fetch. *)
Definition served_record (rep : checkOutReply) (rest : list checkOutRequest)
  : memstatus :=
  {| state := newMemory; token := rep_token rep; waiters := rest |}.

(** The token a delivery carries: the token of a checkout reply, and the
    empty token for any other message. *)
Definition reply_token (e : chan * message) : string :=
  match e.2 with
  | checkOutMsg rep => rep_token rep
  | _ => ""
  end.

(** The lock tokens handed out so far, in the order of their delivery. *)
Definition issued (dl : list (chan * message)) : list string :=
  filter (fun t => t ≠ "") (reply_token <$> dl).

(** The tokens minted by the reads [n0], ..., [n - 1] of the random
    source. *)
Definition minted (n0 n : nat) : list string :=
  minted_token <$> seq n0 (n - n0).

(** Every token handed out since read [n0] was minted by a read of its own,
    and tokens are delivered in the order of the reads. *)
Definition tokens_inv (n0 : nat) (w : World B) : Prop :=
  (n0 ≤ rand_reads (globals w))%nat
  ∧ issued (delivered w) `sublist_of` minted n0 (rand_reads (globals w)).

Definition is_tick (ev : event) : bool :=
  match ev with
  | processMemories _ _ _ => true
  | _ => false
  end.

Definition is_quit (ev : event) : bool :=
  match ev with
  | brainChanEvent (quit _) => true
  | _ => false
  end.

(** The event is a CheckIn or an Update for the key [k] with the token
    [tok]. *)
Definition releases (k tok : string) (ev : event) : bool :=
  match ev with
  | brainChanEvent (checkInBytes ci) =>
      bool_decide (ci_key ci = k) && bool_decide (ci_token ci = tok)
  | brainChanEvent (updateBytes ur) =>
      bool_decide (ur_key ur = k) && bool_decide (ur_token ur = tok)
  | _ => false
  end.

(** The number of ticks among the events. *)
Definition ticks (evs : list event) : nat :=
  length (List.filter is_tick evs).

(** Since the deliveries [dl], the request [creq] has been answered. *)
Definition served_since (dl dl' : list (chan * message)) (creq : checkOutRequest)
  : Prop :=
  ∃ rep pre post,
    dl' = (dl ++ pre ++ (creq_reply creq, checkOutMsg rep) :: post)%list.

(** The waiters of a record before and after a turn of the loop: at most the
    head has left the queue, and arrivals are at its end. *)
Definition queue_moves (before after : list checkOutRequest) : Prop :=
  ∃ n added, (n ≤ 1)%nat ∧ after = (drop n before ++ added)%list.

End Observations.

(** The result code a returned value carries; [CheckinDatum] has no result,
    so it carries none. *)
Definition checkout_code {D : Type} (res : string * bool * RetVal * option D)
  : option RetVal := Some res.1.2.
Definition update_code (res : RetVal) : option RetVal := Some res.
Definition checkin_code (res : unit) : option RetVal := None.

(** A call is rejected with [code] when it returns at once, without a request
    to the coordinator, and its result carries [code]. *)
Definition rejected_with {A : Type} (code : A -> option RetVal) (ret : RetVal)
    (c : api A) : Prop :=
  match c with
  | Return a => code a = Some ret
  | _ => False
  end.


(** ** Well-formed lock tables *)

(** A waiter in the queue of the key [k]: a checkout of [k] for writing. *)
Definition waiter_of (k : string) (creq : checkOutRequest) : Prop :=
  creq_key creq = k ∧ creq_rw creq = true.

(** What the loop keeps true of the record of the key [k]: a record in state
    [available] has no waiters (the comment in [case checkOutBytes]), and the
    waiters are checkouts of [k] for writing. *)
Definition record_ok (k : string) (m : memstatus) : Prop :=
  (state m = available → waiters m = []) ∧ Forall (waiter_of k) (waiters m).

(** The ticks after which the waiter at position [i] of a record in state [s]
    has been served at the latest. *)
Definition ticks_needed (s : memState) (i : nat) : nat :=
  2 * i + (if decide (s = seen) then 1 else 2).

(** The value of a hex digit, the inverse of [hexdigit] on 0..15. *)
Definition hexval (c : ascii) : N :=
  match String.index 0 (String c EmptyString) "0123456789abcdef" with
  | Some i => N.of_nat i
  | None => 0
  end%N.

(** The characters [fmt.Sprintf("%x", ...)] writes. *)
Definition is_hexdigit (c : ascii) : Prop :=
  c ∈ list_ascii_of_string "0123456789abcdef".

Section TableInvariants.
Context {B : Type} `{!SimpleBrain B, !Crypt, !RandSource}.

Definition table_ok (w : World B) : Prop :=
  ∀ k m, memories w !! k = Some m → record_ok k m.

(** The token of the record is empty or was delivered in a checkout reply. *)
Definition token_delivered (w : World B) (m : memstatus) : Prop :=
  token m = ""
  ∨ ∃ i c rep, delivered w !! i = Some (c, checkOutMsg rep) ∧ rep_token rep = token m.

Definition brain_inv (w : World B) : Prop :=
  table_ok w ∧ ∀ k m, memories w !! k = Some m → token_delivered w m.

(** The contract of a storage provider: [Retrieve] does not change what is
    stored, and a [Store] that reports no error is read back by [Retrieve]. *)
Definition lawful_brain : Prop :=
  (∀ k (b : B), (Retrieve k b).2 = b)
  ∧ (∀ k blob (b : B), (Store k blob b).1 = None →
       (Retrieve k (Store k blob b).2).1 = (blob, true, None)).

(** The contract of the cipher for the key [key]: what [encrypt] seals,
    [decrypt] opens. *)
Definition lawful_crypt (key : list byte) : Prop :=
  ∀ d sealed, encrypt d key = Some sealed → decrypt sealed key = Some d.

End TableInvariants.

(** ** The bootstrap of encryption *)

(** [getDatum] and [storeDatum] start from a given state of [cryptKey];
    [initializeEncryption] is the function that sets it up, by way of
    both. *)

(** [memguard]: whether [NewImmutableFromBytes] fails for the given bytes and
    whether [NewImmutableRandom] fails at the given read of the random source.
    A buffer that was created holds the bytes it was made from;
    [NewImmutableRandom] fills its buffer from [crypto/rand]. *)
Class Memguard := {
  NewImmutableFromBytes_fails : list byte -> bool;
  NewImmutableRandom_fails : nat -> bool
}.

Section Bootstrap.
Context {B : Type} `{!SimpleBrain B, !Crypt, !RandSource, !Memguard}.

Definition set_cryptKey (ck : cryptKeyT) (g : Globals B) : Globals B :=
  {| brain := brain g;
     encryptBrain := encryptBrain g;
     cryptKey := ck;
     rand_reads := rand_reads g;
     brain_calls := brain_calls g |}.

(** [cryptKey.initializing = false] *)
Definition end_initializing (g : Globals B) : Globals B :=
  set_cryptKey {| ck_key := ck_key (cryptKey g);
                  ck_initializing := false;
                  ck_initialized := ck_initialized (cryptKey g) |} g.

(** [initializeEncryption]: the result and the globals it leaves.  The
    protected buffer is represented by the bytes of [cryptKey.key]; on the
    path where the buffer has been destroyed and no new one could be made,
    the key is left empty. *)
Definition initializeEncryption (key : string) (g : Globals B) : bool * Globals B :=
  let kbytes := list_byte_of_string key in
  if (length kbytes <? 32)%nat then (false, g)
  else if ck_initialized (cryptKey g) || ck_initializing (cryptKey g)
  then (ck_initializing (cryptKey g), g)
  else if NewImmutableFromBytes_fails (take 32 kbytes) then (false, g)
  else
    let g1 := set_cryptKey {| ck_key := take 32 kbytes;
                              ck_initializing := true;
                              ck_initialized := ck_initialized (cryptKey g) |} g in
    let '(rep, g2) := getDatum botEncryptionKey true g1 in
    if negb (bool_decide (rep_retval rep = Ok)) then (false, end_initializing g2)
    else if rep_exists rep then
      let rk := default [] (rep_bytes rep) in
      if NewImmutableFromBytes_fails rk
      then (false, set_cryptKey {| ck_key := [];
                                   ck_initializing := false;
                                   ck_initialized := ck_initialized (cryptKey g2) |} g2)
      else (true, set_cryptKey {| ck_key := rk;
                                  ck_initializing := false;
                                  ck_initialized := true |} g2)
    else if NewImmutableRandom_fails (rand_reads g2) then (false, end_initializing g2)
    else
      let sb := rand_Read (rand_reads g2) 32 in
      let '(ret, g3) := storeDatum botEncryptionKey sb (incr_rand g2) in
      if negb (bool_decide (ret = Ok)) then (false, end_initializing g3)
      else (true, set_cryptKey {| ck_key := sb;
                                  ck_initializing := false;
                                  ck_initialized := true |} g3).

(** The globals in which the bootstrap fetches the stored key: the first 32
    bytes of the key given are the key material, [initializing] is set. *)
Definition unlocking (key : string) (g : Globals B) : Globals B :=
  set_cryptKey {| ck_key := take 32 (list_byte_of_string key);
                  ck_initializing := true;
                  ck_initialized := false |} g.

(** [reKey]: a stub in the source. *)
Definition reKey (newkey : string) : bool := true.

(** The process started again: the key material is gone, the provider is as
    it was left. *)
Definition restarted (g : Globals B) : Globals B :=
  set_cryptKey {| ck_key := []; ck_initializing := false; ck_initialized := false |} g.

End Bootstrap.

(** * The job commands *)

From Stdlib Require DecimalString.

(** ** Paging through the history of a job *)

(** What a command sends: [r.Say], [r.Fixed().Say] and the prompt of
    [r.PromptForReply] to the user, and the note of [c.debugTask]. *)
Inductive sent :=
| Say (msg : string)
| FixedSay (msg : string)
| PromptForReply (regexID prompt : string)
| debugTask (msg : string).

#[global] Instance sent_eq_dec : EqDecision sent.
Proof. solve_decision. Defined.

Definition histPageSize : Z := 2048.

(** [len] of a string, in bytes. *)
Definition len (s : string) : Z := Z.of_nat (String.length s).

(** The line feed. *)
Definition LF : string := String (ascii_of_nat 10) EmptyString.

(** [strings.Join] *)
Definition strings_Join (elems : list string) (sep : string) : string :=
  String.concat sep elems.

(** [strings.HasPrefix] *)
Definition HasPrefix (s prefix : string) : bool := String.prefix prefix s.

(** The verb [%d] of [fmt.Sprintf]. *)
Definition Sprintf_d (n : Z) : string :=
  DecimalString.NilZero.string_of_int (Z.to_int n).

(** [HistoryProvider.GetHistory]: the lines a [bufio.Scanner] reads from the
    reader returned, [None] when the provider returns an error. *)
Class HistoryProvider := {
  GetHistory : string -> Z -> option (list string)
}.

(** The loop [for size < histPageSize] of [pagehistory]; [scanner] holds the
    lines not yet scanned.  The results are [lines], [line], [finished] and
    the scanner. *)
Fixpoint fill_page (scanner : list string) (size : Z) (lines : list string)
    (line : string) : list string * string * bool * list string :=
  if negb (size <? histPageSize) then (lines, line, false, scanner)
  else
    match scanner with
    | [] => (lines, line, true, [])
    | text :: scanner' =>
        let size' := size + (len text + 1) in
        if size' <? histPageSize
        then fill_page scanner' size' (lines ++ [text]) ""
        else fill_page scanner' size' lines text
    end.

(** The loop [for scanner.Scan()] of the reply ["n"]: the results are [line]
    and the scanner. *)
Fixpoint next_section (scanner : list string) (line : string)
  : string * list string :=
  match scanner with
  | [] => (line, [])
  | text :: scanner' =>
      if HasPrefix text "***" then (text, scanner')
      else next_section scanner' text
  end.

Definition pagingPrompt : sent :=
  PromptForReply "paging"
    "'c' to continue, 'q' to quit, or 'n' to skip to the next section".

(** One pass of [PageLoop] up to [r.Fixed().Say]: the line carried over
    opens the page, then the page is filled from the scanner. *)
Definition next_page (line : string) (scanner : list string)
  : list string * string * bool * list string :=
  let '(lines, size, line) :=
    if 0 <? len line then ([line], len line + 1, "") else ([], 0, line) in
  fill_page scanner size lines line.

(** [PageLoop]: one unfolding per page.  [replies n] is what the [n]th call
    of [PromptForReply] returns, [None] when its result code is not [Ok];
    [asked] counts the prompts so far.  The loop has no bound in the source;
    [fuel] bounds the pages here, and [None] is returned when it runs out. *)
Fixpoint PageLoop (fuel : nat) (replies : nat -> option string) (asked : nat)
    (line : string) (scanner : list string) : option (list sent) :=
  match fuel with
  | O => None
  | S fuel' =>
      let '(lines, line, finished, scanner) := next_page line scanner in
      let page := FixedSay (strings_Join lines LF) in
      if finished then Some [page]
      else
        match replies asked with
        | None => Some [page; pagingPrompt; Say "(quitting)"]
        | Some rep =>
            if bool_decide (rep = "q" ∨ rep = "Q")
            then Some [page; pagingPrompt; Say "(ok, quitting)"]
            else
              let '(line, scanner) :=
                if bool_decide (rep = "n" ∨ rep = "N")
                then next_section scanner line
                else (line, scanner) in
              (fun out => page :: pagingPrompt :: out)
                <$> PageLoop fuel' replies (S asked) line scanner
        end
  end.

(** [pagehistory]; the result of the function is always the zero value of
    [TaskRetVal] and is left out. *)
Definition pagehistory `{HistoryProvider} (fuel : nat)
    (replies : nat -> option string) (spec : string) (run : Z)
  : option (list sent) :=
  match GetHistory spec run with
  | None =>
      Some [Say ("History " ++ Sprintf_d run ++ " for '" ++ spec
                 ++ "' not available")]
  | Some scanner => PageLoop fuel replies 0 "" scanner
  end.

(** *** Observations *)

(** The bytes a list of lines adds to the size of a page. *)
Definition page_size (lines : list string) : Z :=
  foldr (fun l n => len l + 1 + n) 0 lines.

(** What is sent when the pages are shown one after the other, a prompt
    between two pages. *)
Fixpoint paged (pages : list (list string)) : list sent :=
  match pages with
  | [] => []
  | p :: ps =>
      match ps with
      | [] => [FixedSay (strings_Join p LF)]
      | _ :: _ => FixedSay (strings_Join p LF) :: pagingPrompt :: paged ps
      end
  end.

(** The page opened by the line carried over. *)
Definition carried (line : string) : list string :=
  if bool_decide (line = "") then [] else [line].

(** A line that opens a section. *)
Definition opens_section (line : string) : Prop := HasPrefix line "***" = true.

(** The measure of the pager: the lines left, the line carried over counted
    apart. *)
Definition pages_left (line : string) (scanner : list string) : nat :=
  2 * length scanner + (if bool_decide (line = "") then 0 else 1).

(** A reply that continues with the next page. *)
Definition continues (rep : option string) : Prop :=
  ∃ s, rep = Some s ∧ s ≠ "q" ∧ s ≠ "Q" ∧ s ≠ "n" ∧ s ≠ "N".

Definition is_prompt (m : sent) : bool :=
  match m with PromptForReply _ _ => true | _ => false end.

(** How often the user was prompted. *)
Definition prompts (out : list sent) : nat := length (List.filter is_prompt out).

(** The pages among what was sent. *)
Definition pages_sent (out : list sent) : list string :=
  omap (fun m => match m with FixedSay text => Some text | _ => None end) out.

(** ** Which jobs a user may see and run *)

(** The fields of [botTask] the job commands read. *)
Module task.
Record t := {
  name : string;
  Channel : string;
  Users : list string;
  RequireAdmin : bool;
  Disabled : bool;
  reason : string
}.
End task.

(** A configured task, the value behind the [interface{}] the task list
    holds: a plugin or a job, each with its [botTask]. *)
Inductive taskRef :=
| pluginRef (task : task.t)
| jobRef (task : task.t).

(** [getTask], as the job commands use it: the task record, and whether the
    task is a job ([job != nil]).  The function is defined in a file of the
    package that is not part of the sources at hand. *)
Definition getTask (t : taskRef) : task.t * bool :=
  match t with
  | pluginRef task => (task, false)
  | jobRef task => (task, true)
  end.

(** [filepath.Match]: [Some m] for the result [(m, nil)], [None] for a
    malformed pattern. *)
Class Glob := {
  filepath_Match : string -> string -> option bool
}.

(** What the job commands read of a [botContext]: [makeRobot] and
    [getTaskByName] stand for the results of [c.makeRobot()] and
    [c.tasks.getTaskByName], both defined outside these sources. *)
Record jobContext := {
  automaticTask : bool;
  jobInitialized : bool;
  makeRobot : Robot;
  getTaskByName : string -> option taskRef
}.

Section JobCommands.
Context `{!Glob}.
Variable adminUsers : list string.

(** The loop over [botCfg.adminUsers]. *)
Definition isAdmin (user : string) : bool :=
  existsb (fun adminUser => bool_decide (user = adminUser)) adminUsers.

(** The loop over [task.Users]. *)
Definition userOk (users : list string) (user : string) : bool :=
  existsb (fun allowedUser =>
             bool_decide (filepath_Match allowedUser user = Some true)) users.

(** [Robot.jobVisible] *)
Definition jobVisible (r : Robot) (t : taskRef)
    (ignoreChannelRestrictions disabledOk : bool) : bool :=
  let '(task, job) := getTask t in
  if negb job then false
  else if task.Disabled task && negb disabledOk then false
  else if negb ignoreChannelRestrictions
          && negb (bool_decide (Channel r = task.Channel task)) then false
  else if (0 <? length (task.Users task))%nat
          && negb (userOk (task.Users task) (User r)) then false
  else if task.RequireAdmin task && negb (isAdmin (User r)) then false
  else true.

(** [botContext.jobAvailable]: the task, [None] for [nil], and what was sent
    on the way. *)
Definition jobAvailable (c : jobContext) (taskName : string)
  : option taskRef * list sent :=
  let r := makeRobot c in
  match getTaskByName c taskName with
  | None =>
      (None, [Say ("Sorry, I don't have a task named '" ++ taskName
                   ++ "' configured")])
  | Some t =>
      let '(task, isJob) := getTask t in
      if negb isJob
      then (None, [Say ("Sorry, '" ++ taskName ++ "' isn't a job")])
      else if automaticTask c then (Some t, [])
      else if negb (jobInitialized c)
              && negb (bool_decide (Channel r = task.Channel task))
      then (None,
            [debugTask ("not available in channel '" ++ task.Channel task ++ "'");
             Say ("Sorry, job '" ++ taskName
                  ++ "' isn't available in this channel, try '"
                  ++ task.Channel task ++ "'")])
      else if task.RequireAdmin task && negb (isAdmin (User r))
      then (None, [Say ("Sorry, '" ++ taskName
                        ++ "' is only available to bot administrators")])
      else if (0 <? length (task.Users task))%nat
              && negb (userOk (task.Users task) (User r))
      then (None,
            [Say "Sorry, you're not on the list of allowed users for that job";
             debugTask "user is not on the list of allowed users"])
      else (Some t, [])
  end.

(** [Robot.CheckAdmin]; [c] is the context of the robot.  The calls of
    [emit] are left out. *)
Definition CheckAdmin (c : jobContext) (r : Robot) : bool :=
  if automaticTask c then true else isAdmin (User r).

End JobCommands.

(** How often the user was told something. *)
Definition says (out : list sent) : nat :=
  length (List.filter (fun m => match m with Say _ => true | _ => false end) out).

(** * Secrets *)

(** [strings.Split] for a separator of one byte. *)
Fixpoint strings_Split (s : string) (sep : ascii) : list string :=
  match s with
  | EmptyString => [""]
  | String a s' =>
      if Ascii.eqb a sep then "" :: strings_Split s' sep
      else
        match strings_Split s' sep with
        | [] => [String a ""]
        | w :: ws => String a w :: ws
        end
  end.

(** [brainParams]; a [nil] map reads as the empty map. *)
Record brainParams := {
  retrieved : bool;
  TaskParams : gmap string (gmap string (list byte));
  RepositoryParams : gmap string (gmap string (list byte))
}.

Definition secretKey : string := "bot:secrets".

(** The repository of an extended namespace:
    [strings.Join(cmp[0:len(cmp)-1], "/")] for
    [cmp := strings.Split(c.nsExtension, "/")]. *)
Definition repository_of (nsExtension : string) : string :=
  let cmp := strings_Split nsExtension "/" in
  strings_Join (take (length cmp - 1) cmp) "/".

Section Secrets.
Context {B : Type} `{!Crypt, !Contexts, !Json brainParams}.

(** The part of [GetSecret] after the secrets were retrieved: the lookups
    for the extended namespace, its repository and the task, and the
    decryption. *)
Definition secret_of (c : botContext) (key : list byte) (secrets : brainParams)
    (name : string) : string :=
  let task := currentTask c in
  let found :=
    if (0 <? String.length (nsExtension c))%nat then
      match RepositoryParams secrets !! nsExtension c ≫= (.!! name) with
      | Some secret => Some secret
      | None =>
          RepositoryParams secrets !! repository_of (nsExtension c)
            ≫= (.!! name)
      end
    else None in
  let found :=
    match found with
    | Some secret => Some secret
    | None => TaskParams secrets !! NameSpace task ≫= (.!! name)
    end in
  match found with
  | None => ""
  | Some secret =>
      match decrypt secret key with
      | None => ""
      | Some value => string_of_list_byte value
      end
  end.

(** [Robot.GetSecret]; [secrets] is [c.secrets] of the context of the robot,
    and the second result is its value after the call.  [json.Unmarshal]
    does not write the field [retrieved]; after a checkout that did not
    return [Ok] the maps are taken as they were. *)
Definition GetSecret (reply : chan) (r : Robot) (name : string)
    (g : Globals B) (secrets : brainParams) : api (string * brainParams) :=
  let key := ck_key (cryptKey g) in
  if negb (ck_initialized (cryptKey g)) then Return ("", secrets)
  else
    let c := getContext r in
    if negb (retrieved secrets) then
      let secrets :=
        {| retrieved := true; TaskParams := TaskParams secrets;
           RepositoryParams := RepositoryParams secrets |} in
      api_map
        (fun '(_, exists_, ret, datum) =>
           if negb (bool_decide (ret = Ok)) then ("", secrets)
           else if negb exists_ then ("", secrets)
           else
             let secrets :=
               match datum with
               | Some v =>
                   {| retrieved := true; TaskParams := TaskParams v;
                      RepositoryParams := RepositoryParams v |}
               | None => secrets
               end in
             (secret_of c key secrets name, secrets))
        (checkoutDatum reply secretKey false)
    else Return (secret_of c key secrets name, secrets).

End Secrets.
(** ** Sample collaborators

    A provider kept in a finite map, a provider whose [Retrieve] fails, a toy
    cipher that tags what it seals, a random source that counts, [json] at the
    type of byte strings, and two running contexts. *)

Definition mapBrain : SimpleBrain (gmap string (list byte)) :=
  {| Store := fun k blob b => (None, <[k := blob]> b);
     Retrieve := fun k b =>
       match b !! k with
       | Some blob => ((blob, true, None), b)
       | None => (([], false, None), b)
       end |}.

Definition failingBrain : SimpleBrain unit :=
  {| Store := fun _ _ b => (Some "store failed", b);
     Retrieve := fun _ b => (([], false, Some "retrieve failed"), b) |}.

Definition tagCrypt : Crypt :=
  {| encrypt := fun d _ => Some (xee :: d)%byte;
     decrypt := fun d _ =>
       match d with
       | xee%byte :: d' => Some d'
       | _ => None
       end |}.

Definition countingRand : RandSource :=
  {| entropy := fun n i =>
       match Byte.of_N (N.of_nat n) with
       | Some b => if (i =? 7)%nat then b else x00%byte
       | None => xff%byte
       end |}.

Definition bytesJson : Json (list byte) :=
  {| json_Marshal := fun d => Some d;
     json_Unmarshal := fun bs => Some bs |}.

Definition twoContexts : Contexts :=
  {| getBotContextInt := fun n =>
       match n with
       | O => {| currentTask := {| NameSpace := "ping" |}; nsExtension := "" |}
       | _ => {| currentTask := {| NameSpace := "build" |}; nsExtension := "repo" |}
       end |}.

Definition plainGlobals {B : Type} (b : option B) : Globals B :=
  {| brain := b;
     encryptBrain := false;
     cryptKey := {| ck_key := []; ck_initializing := false; ck_initialized := false |};
     rand_reads := 0;
     brain_calls := [] |}.

Definition sealedGlobals {B : Type} (b : option B) : Globals B :=
  {| brain := b;
     encryptBrain := true;
     cryptKey := {| ck_key := [x01; x02]%byte; ck_initializing := false;
                    ck_initialized := true |};
     rand_reads := 0;
     brain_calls := [] |}.

Definition rwRequest (k : string) (c : chan) : event :=
  brainChanEvent (checkOutBytes {| creq_key := k; creq_rw := true; creq_reply := c |}).

Arguments rwRequest _ _%_nat.

Definition tick : event := processMemories 0 [] [].


(** Sample runs of the loop over the map provider: the lock on ["foo"] just
    taken by the caller on channel 1; the same with the callers on channels
    2 and 3 queued behind it; and the lock with one waiter after a tick. *)
Definition sampleGlobals : Globals (gmap string (list byte)) :=
  plainGlobals (Some ∅).

Definition sampleRun (evs : list event) : World (gmap string (list byte)) :=
  @runBrain _ mapBrain tagCrypt countingRand sampleGlobals evs.

Definition heldWorld : World (gmap string (list byte)) :=
  sampleRun [rwRequest "foo" 1].

Definition queuedWorld : World (gmap string (list byte)) :=
  sampleRun [rwRequest "foo" 1; rwRequest "foo" 2; rwRequest "foo" 3].

Definition seenWorld : World (gmap string (list byte)) :=
  sampleRun [rwRequest "foo" 1; rwRequest "foo" 2; tick].

Definition firstToken : string := "0000000000000000".

Definition waiterOn (c : chan) : checkOutRequest :=
  {| creq_key := "foo"; creq_rw := true; creq_reply := c |}.

Arguments waiterOn _%_nat.

Definition heldRecord : memstatus :=
  {| state := newMemory; token := firstToken; waiters := [] |}.

Definition queuedRecord : memstatus :=
  {| state := newMemory; token := firstToken; waiters := [waiterOn 2; waiterOn 3] |}.

Definition staleUpdate : updateRequest :=
  {| ur_key := "foo"; ur_token := "stale"; ur_datum := [x01%byte]; ur_reply := 7%nat |}.

Definition legacyStore : gmap string (list byte) :=
  {["ping:old" := [x41%byte]]}.

Definition legacyGlobals : Globals (gmap string (list byte)) :=
  sealedGlobals (Some legacyStore).

Definition alice : Robot := {| User := "alice"; Channel := "general"; id := 1%nat |}.

Definition rememberedWorld : World (gmap string (list byte)) :=
  @Remember _ alice "it" "web1" 0
    (@runBrain_start _ sampleGlobals).

(** The lock on ["foo"] after two ticks without a waiter. *)
Definition expiredWorld : World (gmap string (list byte)) :=
  sampleRun [rwRequest "foo" 1; tick; tick].

Definition expiredRecord : memstatus :=
  {| state := available; token := firstToken; waiters := [] |}.

(** The loop at its start, nothing locked. *)
Definition freshWorld : World (gmap string (list byte)) := sampleRun [].

(** Encryption switched on and never initialized, over the store that holds
    a datum. *)
Definition lockedGlobals : Globals (gmap string (list byte)) :=
  {| brain := Some legacyStore;
     encryptBrain := true;
     cryptKey := {| ck_key := []; ck_initializing := false; ck_initialized := false |};
     rand_reads := 0;
     brain_calls := [] |}.

(** [json] that only unmarshals what starts with an opening brace. *)
Definition braceJson : Json (list byte) :=
  {| json_Marshal := fun d => Some d;
     json_Unmarshal := fun bs =>
       match bs with
       | x7b%byte :: _ => Some bs
       | _ => None
       end |}.

(** The loop at its start over the store that holds a datum, encryption
    off. *)
Definition legacyWorld : World (gmap string (list byte)) :=
  @runBrain_start _ (plainGlobals (Some legacyStore)).

(** [memguard] that never fails. *)
Definition steadyMemguard : Memguard :=
  {| NewImmutableFromBytes_fails := fun _ => false;
     NewImmutableRandom_fails := fun _ => false |}.

(** Two keys of 36 bytes that agree on their first 32, and a short one. *)
Definition longKey : string := "0123456789abcdef0123456789abcdefXXXX".

Definition longKey' : string := "0123456789abcdef0123456789abcdefYYYY".

Definition shortKey : string := "too short".

(** Encryption switched on and never initialized, over an empty store. *)
Definition bootGlobals : Globals (gmap string (list byte)) :=
  {| brain := Some ∅;
     encryptBrain := true;
     cryptKey := {| ck_key := []; ck_initializing := false; ck_initialized := false |};
     rand_reads := 0;
     brain_calls := [] |}.

(** The same in the middle of an initialization. *)
Definition bootingGlobals : Globals (gmap string (list byte)) :=
  {| brain := Some ∅;
     encryptBrain := true;
     cryptKey := {| ck_key := []; ck_initializing := true; ck_initialized := false |};
     rand_reads := 0;
     brain_calls := [] |}.

(** Encryption switched on and never initialized, over a store whose
    encryption key was not sealed by [tagCrypt]. *)
Definition foreignGlobals : Globals (gmap string (list byte)) :=
  {| brain := Some {[botEncryptionKey := [x41%byte]]};
     encryptBrain := true;
     cryptKey := {| ck_key := []; ck_initializing := false; ck_initialized := false |};
     rand_reads := 0;
     brain_calls := [] |}.

(** A line of 1000 bytes, and two histories of a job: three such lines
    after the heading of a section, then a short line, with and without a
    second section. *)
Definition wideLine : string := string_of_list_ascii (replicate 1000 "x"%char).

Definition buildLog : list string :=
  ["*** compile"; wideLine; wideLine; wideLine; "warnings: 0"; "*** test"; "ok"].

Definition plainLog : list string :=
  ["*** compile"; wideLine; wideLine; wideLine; "warnings: 0"].

Definition sampleHistory : HistoryProvider :=
  {| GetHistory := fun spec run =>
       if bool_decide (spec = "build")
       then if run =? 1 then Some buildLog
            else if run =? 2 then Some plainLog
            else None
       else None |}.

(** A user who continues after every page, and one who first skips to the
    next section. *)
Definition alwaysContinue : nat -> option string := fun _ => Some "c".

Definition skipOnce : nat -> option string :=
  fun n => match n with O => Some "n" | _ => Some "c" end.

(** [filepath.Match] for patterns without wildcards other than ["*"]; the
    pattern ["["] is malformed. *)
Definition plainGlob : Glob :=
  {| filepath_Match := fun pattern name =>
       if bool_decide (pattern = "[") then None
       else Some (bool_decide (pattern = "*" ∨ pattern = name)) |}.

(** A disabled job of the channel ["ops"] for two users that requires an
    administrator, and the context of a command of ["alice"] there. *)
Definition deployJob : taskRef :=
  jobRef {| task.name := "deploy"; task.Channel := "ops";
            task.Users := ["alice"; "bob"]; task.RequireAdmin := true;
            task.Disabled := true; task.reason := "frozen" |}.

Definition opsContext : jobContext :=
  {| automaticTask := false;
     jobInitialized := false;
     makeRobot := {| User := "alice"; Channel := "ops"; id := 2%nat |};
     getTaskByName := fun n =>
       if bool_decide (n = "deploy") then Some deployJob else None |}.

(** The same for ["bob"], who is not an administrator. *)
Definition bobContext : jobContext :=
  {| automaticTask := false;
     jobInitialized := false;
     makeRobot := {| User := "bob"; Channel := "ops"; id := 3%nat |};
     getTaskByName := fun n =>
       if bool_decide (n = "deploy") then Some deployJob else None |}.

(** A pipeline of the task ["build"] for the branch ["main"] of the
    repository ["acme/www"]. *)
Definition branchContexts : Contexts :=
  {| getBotContextInt := fun _ =>
       {| currentTask := {| NameSpace := "build" |};
          nsExtension := "acme/www/main" |} |}.

Definition carol : Robot := {| User := "carol"; Channel := "ci"; id := 5%nat |}.

(** Secrets named ["token"], sealed by [tagCrypt]: one for the task and one
    for the repository. *)
Definition storedSecrets : brainParams :=
  {| retrieved := false;
     TaskParams := {["build" := {["token" := [xee; x74]%byte]}]};
     RepositoryParams := {["acme/www" := {["token" := [xee; x72]%byte]}]} |}.

Definition cachedSecrets : brainParams :=
  {| retrieved := true;
     TaskParams := TaskParams storedSecrets;
     RepositoryParams := RepositoryParams storedSecrets |}.

Definition noSecrets : brainParams :=
  {| retrieved := false; TaskParams := ∅; RepositoryParams := ∅ |}.

(** [json] for the secrets: the document of one opening brace stands for
    [storedSecrets]. *)
Definition secretsJson : Json brainParams :=
  {| json_Marshal := fun _ => None;
     json_Unmarshal := fun bs =>
       match bs with
       | [x7b%byte] => Some storedSecrets
       | _ => None
       end |}.

(** The loop at its start with encryption initialized, over the store that
    holds the sealed secrets. *)
Definition secretWorld : World (gmap string (list byte)) :=
  @runBrain_start _ (sealedGlobals (Some {[secretKey := [xee; x7b]%byte]})).
(** * Properties *)

Section BrainFacts.
Context {B : Type} `{!SimpleBrain B, !Crypt, !RandSource}.
Implicit Types (w : World B) (g : Globals B) (m : memstatus).

(** ** Tokens *)

Lemma Sprintf_x_length bs : String.length (Sprintf_x bs) = (2 * length bs)%nat.
Proof. induction bs as [|b bs IH]; simpl; [done|]. rewrite IH. lia. Qed.

Lemma minted_token_length n : String.length (minted_token n) = 16%nat.
Proof.
  unfold minted_token, rand_Read. by rewrite Sprintf_x_length, length_map, length_seq.
Qed.

Lemma minted_token_nonempty n : minted_token n ≠ "".
Proof.
  intros Heq. pose proof (minted_token_length n) as Hl. rewrite Heq in Hl. done.
Qed.

(** ** [storeDatum] and [getDatum] *)

Lemma storeDatum_rand_reads dkey datum g :
  rand_reads (storeDatum dkey datum g).2 = rand_reads g.
Proof. unfold storeDatum. repeat case_match; simplify_eq/=; done. Qed.

Lemma getDatum_ro_token dkey g : rep_token (getDatum dkey false g).1 = "".
Proof. unfold getDatum. repeat case_match; simplify_eq/=; done. Qed.

Lemma getDatum_ro_rand_reads dkey g :
  rand_reads (getDatum dkey false g).2 = rand_reads g.
Proof.
  unfold getDatum.
  repeat case_match; simplify_eq/=; try done.
  match goal with
  | H : storeDatum ?k ?d ?g0 = (_, ?g3) |- _ =>
      pose proof (storeDatum_rand_reads k d g0) as Hs; rewrite H in Hs; simpl in Hs
  end. done.
Qed.

(** What a read-write fetch does to the random source: it reads it at most
    once, and the token it returns is empty or the token of that read. *)
Lemma getDatum_rw_mint dkey g :
  let rep := (getDatum dkey true g).1 in
  let g' := (getDatum dkey true g).2 in
  (rep_token rep = "" ∧ rep_retval rep ≠ Ok
   ∧ (rand_reads g' = rand_reads g ∨ rand_reads g' = S (rand_reads g)))
  ∨ (rep_token rep = minted_token (rand_reads g) ∧ rep_retval rep = Ok
     ∧ rand_reads g' = S (rand_reads g)).
Proof.
  unfold getDatum, minted_token.
  repeat case_match; simplify_eq/=; try (by left; auto); try (by right; auto).
  match goal with
  | H : storeDatum ?k ?d ?g0 = (_, ?g3) |- _ =>
      pose proof (storeDatum_rand_reads k d g0) as Hs; rewrite H in Hs; simpl in Hs
  end. right. auto.
Qed.

Lemma getDatum_mint dkey rw g :
  let rep := (getDatum dkey rw g).1 in
  let g' := (getDatum dkey rw g).2 in
  (rep_token rep = "" ∧ rand_reads g ≤ rand_reads g' ≤ S (rand_reads g))%nat
  ∨ (rep_token rep = minted_token (rand_reads g) ∧ rand_reads g' = S (rand_reads g)).
Proof.
  destruct rw.
  - destruct (getDatum_rw_mint dkey g) as [(? & _ & Hr) | (? & _ & ?)]; simpl in *.
    + left. split; [done|]. lia.
    + right. done.
  - left. rewrite getDatum_ro_token, getDatum_ro_rand_reads. split; [done|lia].
Qed.

(** A reply that says [exists] carries bytes and the code [Ok]. *)
Lemma getDatum_exists dkey rw g :
  rep_exists (getDatum dkey rw g).1 = true →
  is_Some (rep_bytes (getDatum dkey rw g).1) ∧ rep_retval (getDatum dkey rw g).1 = Ok.
Proof. unfold getDatum. repeat case_match; simplify_eq/=; try done; eauto. Qed.

Lemma storeDatum_brain_calls dkey datum g :
  ∃ more, brain_calls (storeDatum dkey datum g).2 = (brain_calls g ++ more)%list.
Proof.
  unfold storeDatum. repeat case_match; simplify_eq/=;
    try (by exists []; rewrite app_nil_r); by eexists [_].
Qed.

(** With a provider configured and a key the expression accepts, a fetch
    calls [Retrieve] of the provider for the key, and a fetch for writing
    reads the random source once. *)
Lemma getDatum_fetches dkey rw g :
  keyRe_MatchString dkey = true →
  is_Some (brain g) →
  (∃ more, brain_calls (getDatum dkey rw g).2
           = (brain_calls g ++ RetrieveCall dkey :: more)%list)
  ∧ (rw = true → rand_reads (getDatum dkey rw g).2 = S (rand_reads g)).
Proof.
  intros Hkey [b Hb]. unfold getDatum. rewrite Hkey, Hb. simpl.
  destruct (Retrieve dkey b) as [[[db ex] err] b'].
  assert (Hstore : ∀ g2,
    (∃ more, brain_calls g2 = (brain_calls g ++ RetrieveCall dkey :: more)%list) →
    (rw = true → rand_reads g2 = S (rand_reads g)) →
    (∃ more, brain_calls (storeDatum dkey db g2).2
             = (brain_calls g ++ RetrieveCall dkey :: more)%list)
    ∧ (rw = true → rand_reads (storeDatum dkey db g2).2 = S (rand_reads g))).
  { intros g2 [more Hc] Hr. split.
    - destruct (storeDatum_brain_calls dkey db g2) as [more' ->].
      exists (more ++ more')%list. rewrite Hc. by rewrite <- app_assoc.
    - intros Hrw. rewrite storeDatum_rand_reads. by apply Hr. }
  destruct rw; simpl;
    repeat case_match; simplify_eq/=;
    try (split; [by exists []|done]);
    match goal with
    | H : storeDatum _ _ ?g2 = (_, ?g3) |- _ =>
        specialize (Hstore g2); rewrite H in Hstore; simpl in Hstore;
        apply Hstore; [by exists []|done]
    end.
Qed.

Lemma fetch_eq dkey rw w :
  fetch dkey rw w =
    ((getDatum dkey rw (globals w)).1, set_globals (getDatum dkey rw (globals w)).2 w).
Proof. unfold fetch. by destruct (getDatum _ _ _). Qed.

Lemma received_send c msg w w1 :
  delivered w1 = delivered w →
  received c w (send c msg w1) = Some msg.
Proof.
  intros Hd. unfold received, send; simpl. rewrite Hd, drop_app_length. simpl.
  by rewrite bool_decide_eq_true_2.
Qed.

(** ** C3 *)

(** C3: a CheckIn for a key with no lock record, or with a token that is
    not the current token of the record, changes nothing: the world after
    the turn of the loop is the world before it (lock table, record state,
    token and waiters included) and nothing is delivered to anyone. *)
Theorem C3_checkin_mismatch_is_noop w (ci : checkInRequest) :
  (memories w !! ci_key ci = None
   ∨ ∃ m, memories w !! ci_key ci = Some m ∧ ci_token ci ≠ token m) →
  runBrain_step w (brainChanEvent (checkInBytes ci)) = w
  ∧ run_api (CheckInCall ci tt) w = (w, if stopped w then None else Some tt).
Proof.
  intros Hc.
  assert (Hstep : runBrain_step w (brainChanEvent (checkInBytes ci)) = w).
  { unfold runBrain_step. destruct (stopped w); [done|].
    unfold do_checkIn. destruct Hc as [-> | (m & -> & Hne)]; [done|].
    by rewrite bool_decide_eq_false_2. }
  split; [done|]. simpl. by rewrite Hstep.
Qed.

(** ** C2 *)

(** C2: an Update whose token is not the current token of the key's lock
    record is answered with [DatumLockExpired]; the globals (provider state
    and the calls it received: no [Store]), the lock table and the
    short-term memories are unchanged. *)
Theorem C2_update_stale_token w (ur : updateRequest) m :
  stopped w = false →
  memories w !! ur_key ur = Some m →
  ur_token ur ≠ token m →
  let w' := runBrain_step w (brainChanEvent (updateBytes ur)) in
  w' = send (ur_reply ur) (retValMsg DatumLockExpired) w
  ∧ delivered w' = (delivered w ++ [(ur_reply ur, retValMsg DatumLockExpired)])%list
  ∧ globals w' = globals w
  ∧ brain_calls (globals w') = brain_calls (globals w)
  ∧ memories w' = memories w
  ∧ memories w' !! ur_key ur = Some m
  ∧ (run_api (UpdateCall ur (fun ret => ret)) w).2 = Some DatumLockExpired.
Proof.
  intros Hrun Hm Hne w'.
  assert (Hw' : w' = send (ur_reply ur) (retValMsg DatumLockExpired) w).
  { unfold w', runBrain_step. rewrite Hrun. unfold do_update.
    by rewrite Hm, bool_decide_eq_false_2. }
  split; [done|]. rewrite Hw'. simpl. repeat split; try done.
  fold w'. rewrite Hw'. by rewrite received_send.
Qed.

(** ** C6 *)

(** C6: a read-only checkout is answered in the same turn with what
    [getDatum] fetches from the provider (whose [Retrieve] is called when a
    provider is configured and the key is well formed), with the empty token
    and without a read of the random source; the lock table after the turn is
    the lock table before it, whether or not a record exists for the key. *)
Theorem C6_readonly_checkout_bypasses_locks w (creq : checkOutRequest) :
  stopped w = false →
  creq_rw creq = false →
  let w' := runBrain_step w (brainChanEvent (checkOutBytes creq)) in
  let rep := (getDatum (creq_key creq) false (globals w)).1 in
  let g' := (getDatum (creq_key creq) false (globals w)).2 in
  w' = send (creq_reply creq) (checkOutMsg rep) (set_globals g' w)
  ∧ memories w' = memories w
  ∧ rep_token rep = ""
  ∧ rand_reads g' = rand_reads (globals w)
  ∧ (keyRe_MatchString (creq_key creq) = true → is_Some (brain (globals w)) →
       ∃ more, brain_calls g'
               = (brain_calls (globals w) ++ RetrieveCall (creq_key creq) :: more)%list)
  ∧ received (creq_reply creq) w w' = Some (checkOutMsg rep)
  ∧ (run_api (CheckOutCall creq (fun r => r)) w).2 = Some rep.
Proof.
  intros Hrun Hrw w' rep g'.
  assert (Hw' : w' = send (creq_reply creq) (checkOutMsg rep) (set_globals g' w)).
  { unfold w', runBrain_step. rewrite Hrun. unfold do_checkOut.
    rewrite Hrw, fetch_eq. fold rep g'.
    destruct (memories w !! creq_key creq) as [ms|]; simpl; [done|].
    by destruct (bool_decide (rep_retval rep = Ok)). }
  assert (Hrecv : received (creq_reply creq) w w' = Some (checkOutMsg rep)).
  { rewrite Hw'. by apply received_send. }
  split; [done|]. split; [by rewrite Hw'|].
  split; [apply getDatum_ro_token|].
  split; [apply getDatum_ro_rand_reads|].
  split; [intros Hkey Hb; by apply getDatum_fetches|]. split; [done|].
  simpl. fold w'. by rewrite Hrecv.
Qed.


(** ** The order of a [range] *)

Lemma pick_order_perm {A : Type} (n : nat) (choices : list nat) (l : list A) :
  length l = n → pick_order n choices l ≡ₚ l.
Proof.
  revert choices l. induction n as [|n IH]; intros choices l Hl; simpl.
  - by destruct l.
  - assert (Hlt : (hd 0%nat choices mod length l < length l)%nat).
    { apply Nat.mod_upper_bound. lia. }
    destruct (lookup_lt_is_Some_2 l _ Hlt) as [y Hy]. rewrite Hy.
    etrans; [|symmetry; apply (delete_Permutation l _ y Hy)]. constructor.
    apply IH. rewrite length_delete; [lia|]. eauto.
Qed.

Lemma range_order_perm {A : Type} (choices : list nat) (l : list A) :
  range_order choices l ≡ₚ l.
Proof. by apply pick_order_perm. Qed.

Lemma range_order_keys `{Countable K} {V : Type} (choices : list nat)
    (mp : gmap K V) (k : K) :
  k ∈ range_order choices (map_to_list mp).*1 ↔ is_Some (mp !! k).
Proof.
  rewrite range_order_perm, list_elem_of_fmap. split.
  - intros ([k' v] & -> & Hin). apply elem_of_map_to_list in Hin. eauto.
  - intros [v Hv]. exists (k, v). split; [done|]. by apply elem_of_map_to_list.
Qed.

Lemma range_order_NoDup `{Countable K} {V : Type} (choices : list nat)
    (mp : gmap K V) :
  NoDup (range_order choices (map_to_list mp).*1).
Proof. rewrite range_order_perm. apply NoDup_fst_map_to_list. Qed.

(** ** The sweep of the short-term memories *)

Lemma Time_Sub_expired (now ts : Z) :
  (Time_Sub now ts >? shortTermDuration) = (now - ts >? shortTermDuration).
Proof.
  unfold Time_Sub, maxDuration, minDuration, shortTermDuration.
  repeat case_match; lia.
Qed.

Lemma kept_idemp now e : kept now (kept now e) = kept now e.
Proof. destruct e as [v|]; simpl; [|done]. by destruct (_ >? _) eqn:He; simpl; rewrite ?He. Qed.

Lemma sweep_one_lookup now sm k k' :
  sweep_one now sm k !! k' = if decide (k = k') then kept now (sm !! k') else sm !! k'.
Proof.
  unfold sweep_one. case_decide as Hk.
  - subst k'. destruct (sm !! k) as [v|] eqn:Hv; simpl.
    + rewrite Time_Sub_expired. destruct (_ >? _); [by rewrite lookup_delete_eq|done].
    + done.
  - destruct (sm !! k) as [v|] eqn:Hv; [|done].
    destruct (_ >? _); [by rewrite lookup_delete_ne|done].
Qed.

Lemma sweep_fold_lookup now ks sm k :
  foldl (sweep_one now) sm ks !! k =
    if decide (k ∈ ks) then kept now (sm !! k) else sm !! k.
Proof.
  revert sm. induction ks as [|a ks IH]; intros sm.
  - simpl. destruct (decide (k ∈ [])) as [Hin|?]; [|done].
    by apply not_elem_of_nil in Hin.
  - cbn [foldl]. rewrite IH, sweep_one_lookup.
    destruct (decide (k ∈ a :: ks)) as [Hin|Hnin];
      destruct (decide (k ∈ ks)) as [Hin'|Hnin'];
      destruct (decide (a = k)) as [->|Hne]; try done.
    + apply kept_idemp.
    + apply elem_of_cons in Hin as [?|?]; done.
    + exfalso. apply Hnin. by apply list_elem_of_further.
    + exfalso. apply Hnin. by apply list_elem_of_further.
    + exfalso. apply Hnin. apply list_elem_of_here.
Qed.

Lemma sweep_lookup now order sm k : sweep now order sm !! k = kept now (sm !! k).
Proof.
  unfold sweep. rewrite sweep_fold_lookup. case_decide as Hin; [done|].
  rewrite range_order_keys in Hin.
  destruct (sm !! k) eqn:Hk; [|done]. exfalso. apply Hin. eauto.
Qed.

(** ** Frame lemmas for the aging of the lock records *)

Lemma replyToWaiter_shortTerm m w :
  shortTermMemories (replyToWaiter m w).2 = shortTermMemories w.
Proof.
  unfold replyToWaiter. destruct (waiters m) as [|creq rest]; [done|].
  rewrite fetch_eq. done.
Qed.

Lemma replyToWaiter_memories m w : memories (replyToWaiter m w).2 = memories w.
Proof.
  unfold replyToWaiter. destruct (waiters m) as [|creq rest]; [done|].
  rewrite fetch_eq. done.
Qed.

Lemma replyToWaiter_stopped m w : stopped (replyToWaiter m w).2 = stopped w.
Proof.
  unfold replyToWaiter. destruct (waiters m) as [|creq rest]; [done|].
  rewrite fetch_eq. done.
Qed.

Lemma age_one_shortTerm w k : shortTermMemories (age_one w k) = shortTermMemories w.
Proof.
  unfold age_one. repeat case_match; simpl; try done.
  apply replyToWaiter_shortTerm.
Qed.

Lemma age_fold_shortTerm ks w :
  shortTermMemories (foldl age_one w ks) = shortTermMemories w.
Proof.
  revert w. induction ks as [|a ks IH]; intros w; simpl; [done|].
  by rewrite IH, age_one_shortTerm.
Qed.

Lemma do_tick_shortTerm now order1 order2 w k :
  shortTermMemories (do_tick now order1 order2 w) !! k
  = kept now (shortTermMemories w !! k).
Proof. unfold do_tick. rewrite age_fold_shortTerm. simpl. apply sweep_lookup. Qed.

(** ** C8 *)

(** C8: [Recall] returns what [Remember] stored last for the triple of key,
    user and channel, and the empty string when the triple has no entry;
    [Remember] overwrites the entry with the value and the time of the call
    and touches no other triple; a tick of the loop removes exactly the
    entries written more than [shortTermDuration] (7 minutes) before the
    tick, so an entry that is not older than that is recalled unchanged
    after the tick. *)
Theorem C8_short_term_memories w (r : Robot) (key value : string) (now : Z) :
  Recall r key (Remember r key value now w) = value
  ∧ shortTermMemories (Remember r key value now w) !! (key, User r, Channel r)
    = Some {| memory := value; timestamp := now |}
  ∧ (∀ ctx, ctx ≠ (key, User r, Channel r) →
       shortTermMemories (Remember r key value now w) !! ctx
       = shortTermMemories w !! ctx)
  ∧ (shortTermMemories w !! (key, User r, Channel r) = None → Recall r key w = "")
  ∧ (∀ e, shortTermMemories w !! (key, User r, Channel r) = Some e →
       Recall r key w = memory e)
  ∧ (∀ tick_time order1 order2,
       stopped w = false →
       let w' := runBrain_step w (processMemories tick_time order1 order2) in
       (∀ ctx e, shortTermMemories w !! ctx = Some e →
          tick_time - timestamp e > shortTermDuration →
          shortTermMemories w' !! ctx = None)
       ∧ (∀ ctx e, shortTermMemories w !! ctx = Some e →
            tick_time - timestamp e ≤ shortTermDuration →
            shortTermMemories w' !! ctx = Some e)
       ∧ (∀ ctx, shortTermMemories w !! ctx = None →
            shortTermMemories w' !! ctx = None)
       ∧ (∀ e, shortTermMemories w !! (key, User r, Channel r) = Some e →
            tick_time - timestamp e > shortTermDuration →
            Recall r key w' = "")
       ∧ (∀ e, shortTermMemories w !! (key, User r, Channel r) = Some e →
            tick_time - timestamp e ≤ shortTermDuration →
            Recall r key w' = memory e)).
Proof.
  split; [|split; [|split; [|split; [|split]]]].
  - unfold Recall, Remember; simpl. by rewrite lookup_insert_eq.
  - unfold Remember; simpl. by rewrite lookup_insert_eq.
  - intros ctx Hne. unfold Remember; simpl. by rewrite lookup_insert_ne.
  - intros Hnone. unfold Recall. by rewrite Hnone.
  - intros e He. unfold Recall. by rewrite He.
  - intros tick_time order1 order2 Hrun w'.
    assert (Hlk : ∀ ctx, shortTermMemories w' !! ctx
                         = kept tick_time (shortTermMemories w !! ctx)).
    { intros ctx. unfold w', runBrain_step. rewrite Hrun. apply do_tick_shortTerm. }
    assert (Hold : ∀ e, tick_time - timestamp e > shortTermDuration →
                        kept tick_time (Some e) = None).
    { intros e He. simpl. destruct (_ >? _) eqn:Hc; [done|]. lia. }
    assert (Hyoung : ∀ e, tick_time - timestamp e ≤ shortTermDuration →
                          kept tick_time (Some e) = Some e).
    { intros e He. simpl. destruct (_ >? _) eqn:Hc; [lia|done]. }
    repeat split.
    + intros ctx e He Hage. rewrite Hlk, He. by apply Hold.
    + intros ctx e He Hage. rewrite Hlk, He. by apply Hyoung.
    + intros ctx He. by rewrite Hlk, He.
    + intros e He Hage. unfold Recall. rewrite Hlk, He, Hold; done.
    + intros e He Hage. unfold Recall. rewrite Hlk, He, Hyoung; done.
Qed.


(** ** C9 *)

(** A store made while encryption is initialized hands the provider the
    encryption of the datum, never the datum itself. *)
Lemma storeDatum_initialized_seals dkey datum g :
  encryptBrain g = true →
  ck_initialized (cryptKey g) = true →
  (storeDatum dkey datum g).2 = g
  ∨ ∃ sealed, encrypt datum (ck_key (cryptKey g)) = Some sealed
      ∧ brain_calls (storeDatum dkey datum g).2
        = (brain_calls g ++ [StoreCall dkey sealed])%list.
Proof.
  intros He Hi. unfold storeDatum. rewrite He, Hi. simpl.
  destruct (brain g) as [b|]; [|by left].
  destruct (encrypt datum (ck_key (cryptKey g))) as [sealed|]; [|by left].
  destruct (Store dkey sealed b) as [err b']. right. exists sealed.
  by destruct err.
Qed.

(** C9: with encryption initialized, a retrieve of a datum whose stored
    blob does not decrypt succeeds: the reply carries the stored bytes
    themselves, [exists] and [Ok]; the fetch itself stores the blob again
    through [storeDatum], which (as every store made while encryption is
    initialized) hands the provider the encryption of the bytes. *)
Theorem C9_undecryptable_blob_read_as_plaintext g dkey rw b db b' :
  keyRe_MatchString dkey = true →
  brain g = Some b →
  Retrieve dkey b = ((db, true, None), b') →
  encryptBrain g = true →
  ck_initializing (cryptKey g) = false →
  ck_initialized (cryptKey g) = true →
  decrypt db (ck_key (cryptKey g)) = None →
  let rep := (getDatum dkey rw g).1 in
  let g' := (getDatum dkey rw g).2 in
  let g2 := set_brain b' (RetrieveCall dkey) (if rw then incr_rand g else g) in
  rep_retval rep = Ok ∧ rep_exists rep = true ∧ rep_bytes rep = Some db
  ∧ g' = (storeDatum dkey db g2).2
  ∧ (∀ sealed, encrypt db (ck_key (cryptKey g)) = Some sealed →
       brain_calls g'
       = (brain_calls g ++ [RetrieveCall dkey; StoreCall dkey sealed])%list
       ∧ brain g' = Some (Store dkey sealed b').2)
  ∧ (∀ k datum gx,
       encryptBrain gx = true → ck_initialized (cryptKey gx) = true →
       (storeDatum k datum gx).2 = gx
       ∨ ∃ sealed, encrypt datum (ck_key (cryptKey gx)) = Some sealed
           ∧ brain_calls (storeDatum k datum gx).2
             = (brain_calls gx ++ [StoreCall k sealed])%list).
Proof.
  intros Hkey Hb Hret He Hing Hed Hdec rep g' g2.
  assert (Hg : getDatum dkey rw g
               = (mkReply (if rw then minted_token (rand_reads g) else "")
                    (Some db) true Ok, (storeDatum dkey db g2).2)).
  { unfold getDatum. rewrite Hkey, Hb. simpl.
    destruct rw; simpl; rewrite Hret; simpl; rewrite He, Hing, Hed; simpl;
      rewrite Hdec; unfold g2; by destruct (storeDatum _ _ _). }
  unfold rep, g'. rewrite Hg. simpl.
  split; [done|]. split; [done|]. split; [done|]. split; [done|].
  split; [|intros; by apply storeDatum_initialized_seals].
  intros sealed Hs. unfold storeDatum, g2. simpl.
  destruct rw; simpl; rewrite He, Hed; simpl; rewrite Hs;
    destruct (Store dkey sealed b') as [err b'']; simpl;
    destruct err; simpl; by rewrite <- app_assoc.
Qed.

End BrainFacts.

(** ** The datum API *)

Section ApiFacts.
Context {B : Type} `{!SimpleBrain B, !Crypt, !RandSource}.
Context {D : Type} `{!Json D, !Contexts}.

Lemma keyRe_MatchString_app_colon (a b : string) :
  keyRe_MatchString (a ++ ":" ++ b) = true.
Proof.
  unfold keyRe_MatchString. induction a as [|c a IH].
  - done.
  - change (String c a ++ ":" ++ b) with (String c (a ++ ":" ++ b)).
    cbn [list_ascii_of_string existsb]. rewrite IH. apply orb_true_r.
Qed.

Lemma keyRe_MatchString_namespaced (r : Robot) (key : string) :
  keyRe_MatchString (namespaced r key) = true.
Proof. unfold namespaced. case_match; apply keyRe_MatchString_app_colon. Qed.

(** C7, as the code has it: for a key that contains [':'], [CheckoutDatum]
    and [UpdateDatum] return [InvalidDatumKey] and [CheckinDatum] returns
    (it has no result to report an error with), all three without a request
    to the coordinator; for any other key, a request that one of the three
    sends carries the key prefixed with the namespace of the task and, when
    the pipeline has one, the namespace extension, and [CheckoutDatum]
    always sends its request. *)
Theorem C7_separator_rejected_before_coordinator (reply : chan) (r : Robot)
    (key tok : string) (v : D) (rw : bool) :
  (ContainsRune key ":" = true →
     rejected_with checkout_code InvalidDatumKey (CheckoutDatum (D := D) reply r key rw)
     ∧ rejected_with update_code InvalidDatumKey (UpdateDatum reply r key tok v)
     ∧ CheckinDatum r key tok = Return tt
     ∧ request_of (CheckoutDatum (D := D) reply r key rw) = None
     ∧ request_of (UpdateDatum reply r key tok v) = None
     ∧ request_of (CheckinDatum r key tok) = None)
  ∧ (ContainsRune key ":" = false →
       request_of (CheckoutDatum (D := D) reply r key rw)
       = Some (checkOutBytes {| creq_key := namespaced r key; creq_rw := rw;
                                creq_reply := reply |})
       ∧ (∀ op, request_of (UpdateDatum reply r key tok v) = Some op →
            key_of op = Some (namespaced r key))
       ∧ (∀ op, request_of (CheckinDatum r key tok) = Some op →
            key_of op = Some (namespaced r key)))
  ∧ namespaced r key
    = (if (0 <? String.length (nsExtension (getContext r)))%nat
       then NameSpace (currentTask (getContext r)) ++ ":"
            ++ nsExtension (getContext r) ++ ":" ++ key
       else NameSpace (currentTask (getContext r)) ++ ":" ++ key).
Proof.
  split; [|split; [|done]].
  - intros Hc. unfold CheckoutDatum, UpdateDatum, CheckinDatum. rewrite Hc.
    simpl. repeat split; by case_bool_decide.
  - intros Hc. unfold CheckoutDatum, UpdateDatum, CheckinDatum. rewrite Hc.
    split; [|split].
    + unfold checkoutDatum, checkout. by rewrite keyRe_MatchString_namespaced.
    + intros op. unfold updateDatum, update.
      repeat case_match; simpl; intros ?; by simplify_eq.
    + intros op. unfold checkinDatum.
      repeat case_match; simpl; intros ?; by simplify_eq.
Qed.

(** C10: an update with the empty lock token returns [Ok] without a request
    to the coordinator, so the world of the loop (provider, lock table,
    deliveries) is what it was; through [UpdateDatum] the call still sends
    nothing, and returns [Ok] whenever the key is valid and the datum
    marshals. *)
Theorem C10_update_with_empty_token_reports_Ok (reply : chan) (d : string)
    (datum : list byte) (w : World B) (r : Robot) (key : string) (v : D) :
  update reply d "" datum = Return Ok
  ∧ request_of (update reply d "" datum) = None
  ∧ run_api (update reply d "" datum) w = (w, Some Ok)
  ∧ UpdateDatum reply r key "" v
    = Return (if ContainsRune key ":" then InvalidDatumKey
              else match json_Marshal v with
                   | None => DataFormatError
                   | Some _ => Ok
                   end)
  ∧ (run_api (UpdateDatum reply r key "" v) w).1 = w.
Proof.
  assert (Hu : UpdateDatum reply r key "" v
    = Return (if ContainsRune key ":" then InvalidDatumKey
              else match json_Marshal v with
                   | None => DataFormatError
                   | Some _ => Ok
                   end)).
  { unfold UpdateDatum, updateDatum, update. by repeat case_match. }
  rewrite Hu. done.
Qed.

End ApiFacts.

(** ** The lock table *)

Section LockFacts.
Context {B : Type} `{!SimpleBrain B, !Crypt, !RandSource}.
Implicit Types (w : World B) (g : Globals B) (m : memstatus).

Lemma replyToWaiter_cons m w creq rest :
  waiters m = creq :: rest →
  let rep := (getDatum (creq_key creq) true (globals w)).1 in
  let g' := (getDatum (creq_key creq) true (globals w)).2 in
  replyToWaiter m w
  = (served_record rep rest,
     send (creq_reply creq) (checkOutMsg rep) (set_globals g' w)).
Proof. intros Hw. unfold replyToWaiter. rewrite Hw, fetch_eq. done. Qed.

Lemma release_cons k m w creq rest :
  waiters m = creq :: rest →
  let rep := (getDatum (creq_key creq) true (globals w)).1 in
  let g' := (getDatum (creq_key creq) true (globals w)).2 in
  release k m w
  = {| globals := g';
       shortTermMemories := shortTermMemories w;
       memories := <[k := served_record rep rest]> (memories w);
       delivered := delivered w ++ [(creq_reply creq, checkOutMsg rep)];
       stopped := stopped w |}.
Proof.
  intros Hw. unfold release. rewrite Hw. simpl.
  by rewrite (replyToWaiter_cons m w creq rest Hw).
Qed.

Lemma release_nil k m w :
  waiters m = [] → release k m w = set_memories (delete k (memories w)) w.
Proof. intros Hw. unfold release. by rewrite Hw. Qed.

(** A fetch for writing that succeeds returns the token of a new read of
    the random source. *)
Lemma getDatum_rw_Ok dkey g :
  rep_retval (getDatum dkey true g).1 = Ok →
  rep_token (getDatum dkey true g).1 = minted_token (rand_reads g)
  ∧ rep_token (getDatum dkey true g).1 ≠ ""
  ∧ rand_reads (getDatum dkey true g).2 = S (rand_reads g).
Proof.
  intros Hok.
  destruct (getDatum_rw_mint dkey g) as [(_ & Hne & _) | (Ht & _ & Hr)]; [done|].
  split; [done|]. split; [|done]. rewrite Ht. apply minted_token_nonempty.
Qed.

(** ** The aging tick *)

Lemma store_record_replyToWaiter k m w creq rest :
  waiters m = creq :: rest →
  store_record k (replyToWaiter m w) = release k m w.
Proof. intros Hw. unfold release. by rewrite Hw. Qed.

Lemma age_one_lookup_ne w a k :
  a ≠ k → memories (age_one w a) !! k = memories w !! k.
Proof.
  intros Hne. unfold age_one. repeat case_match; simpl; try done;
    rewrite lookup_insert_ne by done; try done.
  by rewrite replyToWaiter_memories.
Qed.

Lemma replyToWaiter_delivered m w :
  delivered w `prefix_of` delivered (replyToWaiter m w).2.
Proof.
  unfold replyToWaiter. destruct (waiters m) as [|creq rest]; [done|].
  rewrite fetch_eq. simpl. by apply prefix_app_r.
Qed.

Lemma age_one_delivered w a : delivered w `prefix_of` delivered (age_one w a).
Proof.
  unfold age_one. repeat case_match; simpl; try done.
  apply replyToWaiter_delivered.
Qed.

Lemma age_one_stopped w a : stopped (age_one w a) = stopped w.
Proof.
  unfold age_one. repeat case_match; simpl; try done.
  apply replyToWaiter_stopped.
Qed.

Lemma age_fold_delivered ks w : delivered w `prefix_of` delivered (foldl age_one w ks).
Proof.
  revert w. induction ks as [|a ks IH]; intros w; simpl; [done|].
  etrans; [apply age_one_delivered|apply IH].
Qed.

Lemma age_fold_stopped ks w : stopped (foldl age_one w ks) = stopped w.
Proof.
  revert w. induction ks as [|a ks IH]; intros w; simpl; [done|].
  by rewrite IH, age_one_stopped.
Qed.

Lemma age_fold_lookup_notin ks w k :
  k ∉ ks → memories (foldl age_one w ks) !! k = memories w !! k.
Proof.
  revert w. induction ks as [|a ks IH]; intros w Hnin; simpl; [done|].
  apply not_elem_of_cons in Hnin as [Hne Hnin].
  rewrite IH by done. by apply age_one_lookup_ne.
Qed.

(** In a [range] that visits the key [k] once, the record of [k] is aged
    once, in the world [wi] the loop has reached by then. *)
Lemma age_fold_lookup_in ks w k :
  NoDup ks → k ∈ ks →
  ∃ wi, memories wi !! k = memories w !! k
        ∧ stopped wi = stopped w
        ∧ delivered w `prefix_of` delivered wi
        ∧ memories (foldl age_one w ks) !! k = memories (age_one wi k) !! k
        ∧ delivered (age_one wi k) `prefix_of` delivered (foldl age_one w ks).
Proof.
  revert w. induction ks as [|a ks IH]; intros w Hnd Hin.
  - by apply not_elem_of_nil in Hin.
  - apply NoDup_cons in Hnd as [Hnin Hnd]. simpl.
    destruct (decide (a = k)) as [->|Hne].
    + exists w. split; [done|]. split; [done|]. split; [done|].
      split; [by apply age_fold_lookup_notin|apply age_fold_delivered].
    + apply elem_of_cons in Hin as [?|Hin]; [done|].
      destruct (IH (age_one w a) Hnd Hin) as (wi & Hl & Hs & Hp & Hm & Hd).
      exists wi. split; [by rewrite Hl, age_one_lookup_ne|].
      split; [by rewrite Hs, age_one_stopped|].
      split; [etrans; [apply age_one_delivered|done]|]. done.
Qed.

Lemma do_tick_lookup now order1 order2 w k m :
  memories w !! k = Some m →
  ∃ wi, memories wi !! k = Some m
        ∧ stopped wi = stopped w
        ∧ delivered w `prefix_of` delivered wi
        ∧ memories (do_tick now order1 order2 w) !! k = memories (age_one wi k) !! k
        ∧ delivered (age_one wi k) `prefix_of` delivered (do_tick now order1 order2 w).
Proof.
  intros Hm. unfold do_tick.
  set (w1 := set_shortTerm (sweep now order1 (shortTermMemories w)) w).
  destruct (age_fold_lookup_in
              (range_order order2 (map_to_list (memories w1)).*1) w1 k)
    as (wi & Hl & Hs & Hp & Hmm & Hd).
  - apply range_order_NoDup.
  - apply range_order_keys. simpl. eauto.
  - exists wi. simpl in *. by rewrite Hl.
Qed.

Lemma do_tick_lookup_None now order1 order2 w k :
  memories w !! k = None → memories (do_tick now order1 order2 w) !! k = None.
Proof.
  intros Hm. unfold do_tick. rewrite age_fold_lookup_notin; [done|].
  rewrite range_order_keys. simpl. rewrite Hm. by intros [? ?].
Qed.

(** ** C5 *)

(** C5: a tick ages every record of the lock table once.  A record in state
    [newMemory] is left in state [seen]; a record in state [seen] without
    waiters is left in state [available]; for a record in state [seen] with
    waiters, the head waiter is served as a CheckIn with the record's token
    would serve it in the world [wi] the loop has reached when the [range]
    visits the record: fetch for writing, record in state [newMemory] with
    the token of the fetch and the remaining waiters, reply delivered to
    the waiter.  A record in state [available] and a key without record are
    left as they are. *)
Theorem C5_tick_ages_every_record w (k : string) m (now : Z) (order1 order2 : list nat) :
  stopped w = false →
  memories w !! k = Some m →
  let w' := runBrain_step w (processMemories now order1 order2) in
  (state m = newMemory →
     memories w' !! k
     = Some {| state := seen; token := token m; waiters := waiters m |})
  ∧ (state m = seen → waiters m = [] →
       memories w' !! k
       = Some {| state := available; token := token m; waiters := [] |})
  ∧ (∀ creq rest, state m = seen → waiters m = creq :: rest →
       ∃ wi, memories wi !! k = Some m
         ∧ delivered w `prefix_of` delivered wi
         ∧ let rep := (getDatum (creq_key creq) true (globals wi)).1 in
           memories w' !! k
           = Some {| state := newMemory; token := rep_token rep; waiters := rest |}
           ∧ (delivered wi ++ [(creq_reply creq, checkOutMsg rep)])%list
             `prefix_of` delivered w'
           ∧ memories w' !! k
             = memories (runBrain_step wi
                           (brainChanEvent
                              (checkInBytes {| ci_key := k; ci_token := token m |})))
                 !! k)
  ∧ (state m = available → memories w' !! k = Some m)
  ∧ (∀ k', memories w !! k' = None → memories w' !! k' = None).
Proof.
  intros Hrun Hm w'.
  assert (Hw' : w' = do_tick now order1 order2 w).
  { unfold w', runBrain_step. by rewrite Hrun. }
  destruct (do_tick_lookup now order1 order2 w k m Hm)
    as (wi & Hl & Hs & Hp & Hmm & Hd).
  rewrite <- Hw' in Hmm, Hd.
  split; [|split; [|split; [|split]]].
  - intros Hst. rewrite Hmm. unfold age_one. rewrite Hl, Hst. simpl.
    by rewrite lookup_insert_eq.
  - intros Hst Hwt. rewrite Hmm. unfold age_one. rewrite Hl, Hst, Hwt. simpl.
    by rewrite lookup_insert_eq.
  - intros creq rest Hst Hwt. exists wi. split; [done|]. split; [done|].
    intros rep.
    assert (Hage : age_one wi k = release k m wi).
    { unfold age_one. rewrite Hl, Hst, Hwt. simpl.
      by rewrite (store_record_replyToWaiter k m wi creq rest Hwt). }
    rewrite Hage in Hmm, Hd. rewrite (release_cons k m wi creq rest Hwt) in Hmm, Hd.
    simpl in Hmm, Hd. rewrite lookup_insert_eq in Hmm.
    split; [done|]. split; [done|].
    unfold runBrain_step. rewrite Hs, Hrun. unfold do_checkIn. simpl.
    rewrite Hl, bool_decide_eq_true_2 by done. simpl.
    rewrite (release_cons k m wi creq rest Hwt). simpl.
    by rewrite lookup_insert_eq.
  - intros Hst. rewrite Hmm. unfold age_one. rewrite Hl, Hst. done.
  - intros k' Hk'. rewrite Hw'. by apply do_tick_lookup_None.
Qed.


(** ** Tokens in flight *)

Lemma minted_S n0 n :
  (n0 ≤ n)%nat → minted n0 (S n) = (minted n0 n ++ [minted_token n])%list.
Proof.
  intros Hle. unfold minted. replace (S n - n0)%nat with (S (n - n0)) by lia.
  rewrite seq_S, fmap_app. simpl. do 3 f_equal. lia.
Qed.

Lemma issued_snoc dl e :
  issued (dl ++ [e])
  = (issued dl ++ (if decide (reply_token e = "") then [] else [reply_token e]))%list.
Proof.
  unfold issued. rewrite fmap_app, filter_app. f_equal. simpl.
  case_decide as He.
  - by rewrite filter_cons_False by (intros Hn; by apply Hn).
  - by rewrite filter_cons_True.
Qed.

Lemma tokens_inv_frame n0 w w' :
  tokens_inv n0 w →
  rand_reads (globals w') = rand_reads (globals w) →
  delivered w' = delivered w →
  tokens_inv n0 w'.
Proof. unfold tokens_inv. by intros ? -> ->. Qed.

Lemma issued_snoc_minted n0 n n' dl e :
  (n0 ≤ n)%nat →
  issued dl `sublist_of` minted n0 n →
  (reply_token e = "" ∧ (n ≤ n' ≤ S n)%nat)
  ∨ (reply_token e = minted_token n ∧ n' = S n) →
  (n0 ≤ n')%nat ∧ issued (dl ++ [e]) `sublist_of` minted n0 n'.
Proof.
  intros Hle Hsub Hcases. rewrite issued_snoc.
  destruct (decide (reply_token e = "")) as [He|He].
  - rewrite app_nil_r.
    assert (Hn : n' = n ∨ n' = S n).
    { destruct Hcases as [[_ ?]|[_ ?]]; lia. }
    destruct Hn as [->| ->]; [done|]. split; [lia|].
    rewrite minted_S by done. by apply sublist_inserts_r.
  - destruct Hcases as [[? _]|[Ht ->]]; [done|]. split; [lia|].
    rewrite Ht, minted_S by done. by apply sublist_app.
Qed.

Lemma tokens_inv_send_plain n0 w c msg :
  tokens_inv n0 w → reply_token (c, msg) = "" → tokens_inv n0 (send c msg w).
Proof.
  unfold tokens_inv. intros [Hle Hsub] Hplain. simpl.
  eapply issued_snoc_minted; [done..|]. left. split; [done|lia].
Qed.

Lemma tokens_inv_fetch_send n0 w dkey rw c :
  tokens_inv n0 w →
  tokens_inv n0 (send c (checkOutMsg (fetch dkey rw w).1) (fetch dkey rw w).2).
Proof.
  unfold tokens_inv. intros [Hle Hsub]. rewrite fetch_eq. simpl.
  eapply issued_snoc_minted; [done..|]. apply getDatum_mint.
Qed.

Lemma tokens_inv_release n0 k m w :
  tokens_inv n0 w → tokens_inv n0 (release k m w).
Proof.
  intros Hinv. unfold release. destruct (waiters m) as [|creq rest] eqn:Hw; simpl.
  - by eapply tokens_inv_frame.
  - unfold store_record, replyToWaiter. rewrite Hw.
    destruct (fetch (creq_key creq) true w) as [rep w1] eqn:Hf. simpl.
    eapply tokens_inv_frame; [apply (tokens_inv_fetch_send n0 w (creq_key creq) true
                                       (creq_reply creq) Hinv)|..];
      by rewrite Hf.
Qed.

Lemma tokens_inv_checkOut n0 creq w :
  tokens_inv n0 w → tokens_inv n0 (do_checkOut creq w).
Proof.
  intros Hinv. unfold do_checkOut.
  pose proof (tokens_inv_fetch_send n0 w (creq_key creq) (creq_rw creq)
                (creq_reply creq) Hinv) as Hfs.
  destruct (fetch (creq_key creq) (creq_rw creq) w) as [rep w1] eqn:Hf.
  simpl in Hfs.
  repeat case_match; simplify_eq/=; try done;
    by eapply tokens_inv_frame.
Qed.

Lemma tokens_inv_checkIn n0 ci w :
  tokens_inv n0 w → tokens_inv n0 (do_checkIn ci w).
Proof.
  intros Hinv. unfold do_checkIn. repeat case_match; try done.
  by apply tokens_inv_release.
Qed.

Lemma tokens_inv_update n0 ur w :
  tokens_inv n0 w → tokens_inv n0 (do_update ur w).
Proof.
  intros Hinv. unfold do_update. repeat case_match; simplify_eq/=;
    try (by apply tokens_inv_send_plain).
  apply tokens_inv_release, tokens_inv_send_plain; [|done].
  eapply tokens_inv_frame; [done| |done]. simpl.
  match goal with
  | H : storeDatum ?k ?d ?g0 = _ |- _ =>
      pose proof (storeDatum_rand_reads k d g0) as Hs; rewrite H in Hs
  end. done.
Qed.

Lemma tokens_inv_age_one n0 w k : tokens_inv n0 w → tokens_inv n0 (age_one w k).
Proof.
  intros Hinv. unfold age_one.
  destruct (memories w !! k) as [m|]; [|done].
  destruct (state m); [by eapply tokens_inv_frame| |done].
  destruct (waiters m) as [|creq rest] eqn:Hw; simpl.
  - by eapply tokens_inv_frame.
  - rewrite (store_record_replyToWaiter k m w creq rest Hw).
    by apply tokens_inv_release.
Qed.

Lemma tokens_inv_tick n0 now order1 order2 w :
  tokens_inv n0 w → tokens_inv n0 (do_tick now order1 order2 w).
Proof.
  intros Hinv. unfold do_tick.
  assert (Hinv1 : tokens_inv n0
                    (set_shortTerm (sweep now order1 (shortTermMemories w)) w))
    by by eapply tokens_inv_frame.
  revert Hinv1. generalize (set_shortTerm (sweep now order1 (shortTermMemories w)) w).
  intros w1. generalize (range_order order2 (map_to_list (memories w1)).*1).
  intros ks. revert w1. induction ks as [|a ks IH]; intros w1 Hinv1; simpl; [done|].
  by apply IH, tokens_inv_age_one.
Qed.

Lemma tokens_inv_step n0 w ev :
  tokens_inv n0 w → tokens_inv n0 (runBrain_step w ev).
Proof.
  intros Hinv. unfold runBrain_step. destruct (stopped w); [done|].
  destruct ev as [[creq|ci|ur|qr]|now order1 order2].
  - by apply tokens_inv_checkOut.
  - by apply tokens_inv_checkIn.
  - by apply tokens_inv_update.
  - unfold do_quit. eapply tokens_inv_frame;
      [apply (tokens_inv_send_plain n0 w (qr_reply qr) quitMsg Hinv)|..]; done.
  - by apply tokens_inv_tick.
Qed.

Lemma tokens_inv_run n0 w evs :
  tokens_inv n0 w → tokens_inv n0 (runBrain_from w evs).
Proof.
  revert w. induction evs as [|ev evs IH]; intros w Hinv; simpl; [done|].
  by apply IH, tokens_inv_step.
Qed.

Lemma tokens_inv_start g : tokens_inv (rand_reads g) (runBrain_start g).
Proof.
  unfold tokens_inv, minted. simpl. split; [done|].
  rewrite Nat.sub_diag. done.
Qed.

(** Among deliveries whose non-empty tokens are pairwise distinct, two
    deliveries with the same non-empty token are one delivery. *)
Lemma issued_NoDup_index (dl : list (chan * message)) i j e1 e2 :
  NoDup (issued dl) →
  dl !! i = Some e1 → dl !! j = Some e2 →
  reply_token e1 = reply_token e2 → reply_token e1 ≠ "" → i = j.
Proof.
  unfold issued. revert i j. induction dl as [|x dl IH]; intros i j Hnd Hi Hj Heq Hne.
  - done.
  - rewrite fmap_cons in Hnd.
    assert (Hin : ∀ n e, dl !! n = Some e → reply_token e ≠ "" →
              reply_token e ∈ filter (λ t : string, t ≠ "") (reply_token <$> dl)).
    { intros n e Hn Hnz. apply list_elem_of_filter. split; [done|].
      apply list_elem_of_fmap. exists e. split; [done|].
      by eapply list_elem_of_lookup_2. }
    destruct (decide (reply_token x ≠ "")) as [Hx|Hx].
    + rewrite filter_cons_True in Hnd by done.
      apply NoDup_cons in Hnd as [Hnin Hnd].
      destruct i as [|i], j as [|j]; simplify_eq/=.
      * done.
      * exfalso. apply Hnin. rewrite Heq. eapply Hin; [done|]. by rewrite <- Heq.
      * exfalso. apply Hnin. rewrite <- Heq. by eapply Hin.
      * f_equal. by eapply IH.
    + rewrite filter_cons_False in Hnd by done.
      destruct i as [|i], j as [|j]; simplify_eq/=.
      * done.
      * done.
      * exfalso. apply Hx. by rewrite <- Heq.
      * f_equal. by eapply IH.
Qed.


(** ** Waiting for a held lock *)

Lemma served_since_later dl dl' dl'' creq :
  served_since dl dl' creq → dl' `prefix_of` dl'' → served_since dl dl'' creq.
Proof.
  intros (rep & pre & post & ->) [more ->]. exists rep, pre, (post ++ more)%list.
  by rewrite <- !app_assoc.
Qed.

Lemma served_since_earlier dl dl' dl'' creq :
  dl `prefix_of` dl' → served_since dl' dl'' creq → served_since dl dl'' creq.
Proof.
  intros [more ->] (rep & pre & post & ->). exists rep, (more ++ pre)%list, post.
  by rewrite <- !app_assoc.
Qed.

Lemma release_lookup_ne k' m' w k :
  k' ≠ k → memories (release k' m' w) !! k = memories w !! k.
Proof.
  intros Hne. unfold release, store_record. case_match; simpl.
  - by rewrite lookup_insert_ne, replyToWaiter_memories.
  - by rewrite lookup_delete_ne.
Qed.

Lemma release_delivered k m w : delivered w `prefix_of` delivered (release k m w).
Proof.
  unfold release, store_record. case_match; simpl; [|done].
  apply replyToWaiter_delivered.
Qed.

Lemma release_stopped k m w : stopped (release k m w) = stopped w.
Proof.
  unfold release, store_record. case_match; simpl; [|done].
  apply replyToWaiter_stopped.
Qed.

Lemma do_checkOut_lookup_ne creq w k :
  creq_key creq ≠ k → memories (do_checkOut creq w) !! k = memories w !! k.
Proof.
  intros Hne. unfold do_checkOut. rewrite !fetch_eq.
  repeat case_match; simpl; rewrite ?lookup_insert_ne by done; done.
Qed.

Lemma do_checkOut_delivered creq w :
  delivered w `prefix_of` delivered (do_checkOut creq w).
Proof.
  unfold do_checkOut. rewrite !fetch_eq.
  repeat case_match; simpl; try done; by apply prefix_app_r.
Qed.

Lemma do_checkOut_stopped creq w : stopped (do_checkOut creq w) = stopped w.
Proof. unfold do_checkOut. rewrite !fetch_eq. by repeat case_match. Qed.

Lemma do_checkIn_delivered ci w : delivered w `prefix_of` delivered (do_checkIn ci w).
Proof. unfold do_checkIn. repeat case_match; try done. apply release_delivered. Qed.

Lemma do_checkIn_stopped ci w : stopped (do_checkIn ci w) = stopped w.
Proof. unfold do_checkIn. repeat case_match; try done. apply release_stopped. Qed.

Lemma do_update_delivered ur w : delivered w `prefix_of` delivered (do_update ur w).
Proof.
  unfold do_update. repeat case_match; simpl; try (by apply prefix_app_r).
  etrans; [|apply release_delivered]. simpl. by apply prefix_app_r.
Qed.

Lemma do_update_stopped ur w : stopped (do_update ur w) = stopped w.
Proof.
  unfold do_update. repeat case_match; simpl; try done. by rewrite release_stopped.
Qed.

Lemma do_tick_delivered now order1 order2 w :
  delivered w `prefix_of` delivered (do_tick now order1 order2 w).
Proof. unfold do_tick. etrans; [|apply age_fold_delivered]. done. Qed.

Lemma do_tick_stopped now order1 order2 w :
  stopped (do_tick now order1 order2 w) = stopped w.
Proof. unfold do_tick. by rewrite age_fold_stopped. Qed.

Lemma runBrain_step_delivered w ev :
  delivered w `prefix_of` delivered (runBrain_step w ev).
Proof.
  unfold runBrain_step. destruct (stopped w); [done|].
  destruct ev as [[creq|ci|ur|qr]|now order1 order2].
  - apply do_checkOut_delivered.
  - apply do_checkIn_delivered.
  - apply do_update_delivered.
  - simpl. by apply prefix_app_r.
  - apply do_tick_delivered.
Qed.

Lemma runBrain_from_delivered w evs :
  delivered w `prefix_of` delivered (runBrain_from w evs).
Proof.
  revert w. induction evs as [|ev evs IH]; intros w; simpl; [done|].
  etrans; [apply runBrain_step_delivered|apply IH].
Qed.

Lemma runBrain_step_stopped w ev :
  is_quit ev = false → stopped (runBrain_step w ev) = stopped w.
Proof.
  intros Hq. unfold runBrain_step. destruct (stopped w) eqn:Hs; [done|].
  destruct ev as [[creq|ci|ur|qr]|now order1 order2]; try done.
  - by rewrite do_checkOut_stopped.
  - by rewrite do_checkIn_stopped.
  - by rewrite do_update_stopped.
  - by rewrite do_tick_stopped.
Qed.

(** While a lock is held (state [newMemory] or [seen]), an event that is
    neither a tick nor a CheckIn or Update with the token of the record
    leaves the record its state and its token, and keeps every waiter in
    the queue, in order. *)
Lemma held_record_step w ev k m :
  stopped w = false →
  memories w !! k = Some m →
  state m ≠ available →
  is_tick ev = false →
  releases k (token m) ev = false →
  ∃ m', memories (runBrain_step w ev) !! k = Some m'
        ∧ state m' = state m ∧ token m' = token m
        ∧ waiters m `prefix_of` waiters m'.
Proof.
  intros Hrun Hm Hst Htick Hrel. unfold runBrain_step. rewrite Hrun.
  destruct ev as [[creq|ci|ur|qr]|now order1 order2]; simpl in *; try done.
  - destruct (decide (creq_key creq = k)) as [<-|Hne].
    + unfold do_checkOut. rewrite Hm, fetch_eq.
      destruct (creq_rw creq); simpl.
      * rewrite bool_decide_eq_false_2 by done. simpl.
        rewrite lookup_insert_eq. eexists. split; [done|]. simpl.
        split; [done|]. split; [done|]. by apply prefix_app_r.
      * exists m. by rewrite Hm.
    + rewrite do_checkOut_lookup_ne by done. by exists m.
  - unfold do_checkIn. destruct (memories w !! ci_key ci) as [m0|] eqn:Hm0;
      [|by exists m].
    destruct (decide (ci_token ci = token m0)) as [Htok|Htok];
      [|rewrite bool_decide_eq_false_2 by done; by exists m].
    rewrite bool_decide_eq_true_2 by done. simpl.
    destruct (decide (ci_key ci = k)) as [Hk|Hne].
    + subst k. simplify_eq. by rewrite !bool_decide_eq_true_2 in Hrel.
    + rewrite release_lookup_ne by done. by exists m.
  - unfold do_update. destruct (memories w !! ur_key ur) as [m0|] eqn:Hm0;
      [|by exists m].
    destruct (decide (ur_token ur = token m0)) as [Htok|Htok];
      [|rewrite bool_decide_eq_false_2 by done; by exists m].
    rewrite bool_decide_eq_true_2 by done. simpl.
    destruct (storeDatum _ _ _) as [ret g1].
    destruct (decide (ur_key ur = k)) as [Hk|Hne].
    + subst k. simplify_eq. by rewrite !bool_decide_eq_true_2 in Hrel.
    + rewrite release_lookup_ne by done. by exists m.
  - by exists m.
Qed.

(** One event seen by the head waiter of a held lock: the waiter is served,
    or it is still the head waiter of a held lock; a tick that does not
    serve it moves the record from [newMemory] to [seen]. *)
Lemma head_waiter_step w ev k m creq rest :
  stopped w = false →
  memories w !! k = Some m →
  state m ≠ available →
  waiters m = creq :: rest →
  served_since (delivered w) (delivered (runBrain_step w ev)) creq
  ∨ ∃ m' rest', memories (runBrain_step w ev) !! k = Some m'
      ∧ waiters m' = creq :: rest'
      ∧ state m' ≠ available
      ∧ (if is_tick ev then state m = newMemory ∧ state m' = seen
         else state m' = state m).
Proof.
  intros Hrun Hm Hst Hw.
  destruct (is_tick ev) eqn:Htick.
  - destruct ev as [|now order1 order2]; [done|].
    unfold runBrain_step. rewrite Hrun.
    destruct (do_tick_lookup now order1 order2 w k m Hm)
      as (wi & Hl & Hs & Hp & Hmm & Hd).
    destruct (state m) eqn:Hstate; [| |done].
    + right. exists {| state := seen; token := token m; waiters := waiters m |}, rest.
      split; [|by rewrite Hw].
      rewrite Hmm. unfold age_one. rewrite Hl, Hstate. simpl.
      by rewrite lookup_insert_eq.
    + left.
      assert (Hage : age_one wi k = release k m wi).
      { unfold age_one. rewrite Hl, Hstate, Hw. simpl.
        by rewrite (store_record_replyToWaiter k m wi creq rest Hw). }
      rewrite Hage, (release_cons k m wi creq rest Hw) in Hd. simpl in Hd.
      destruct Hp as [pre Hpre]. destruct Hd as [post Hpost].
      eexists _, pre, post. rewrite Hpost, Hpre. by rewrite <- !app_assoc.
  - destruct (releases k (token m) ev) eqn:Hrel.
    + left. unfold runBrain_step. rewrite Hrun.
      destruct ev as [[creq'|ci|ur|qr]|now order1 order2]; simpl in *; try done.
      * apply andb_true_iff in Hrel as [Hk Ht].
        apply bool_decide_eq_true_1 in Hk, Ht.
        unfold do_checkIn. rewrite Hk, Hm, Ht, bool_decide_eq_true_2 by done.
        simpl. rewrite (release_cons k m w creq rest Hw). simpl.
        eexists _, [], []. done.
      * apply andb_true_iff in Hrel as [Hk Ht].
        apply bool_decide_eq_true_1 in Hk, Ht.
        unfold do_update. rewrite Hk, Hm, Ht, bool_decide_eq_true_2 by done.
        simpl. destruct (storeDatum _ _ _) as [ret g1].
        rewrite (release_cons k m _ creq rest Hw). simpl.
        eexists _, [_], []. by rewrite <- app_assoc.
    + right.
      destruct (held_record_step w ev k m Hrun Hm Hst Htick Hrel)
        as (m' & Hm' & Hs' & Ht' & [more Hmore]).
      exists m', (rest ++ more)%list. split; [done|].
      split; [by rewrite Hmore, Hw|]. split; [by rewrite Hs'|done].
Qed.

Lemma ticks_cons ev evs :
  ticks (ev :: evs) = (if is_tick ev then S (ticks evs) else ticks evs).
Proof. unfold ticks. simpl. by destruct (is_tick ev). Qed.

(** The head waiter of a held lock is served by the second tick at the
    latest (by the first when the record is already in state [seen]),
    whatever else the loop receives in between, as long as it does not
    quit. *)
Lemma head_waiter_served evs :
  ∀ w k m creq rest,
    stopped w = false →
    forallb (fun ev => negb (is_quit ev)) evs = true →
    memories w !! k = Some m →
    state m ≠ available →
    waiters m = creq :: rest →
    ((if decide (state m = seen) then 1 else 2) ≤ ticks evs)%nat →
    served_since (delivered w) (delivered (runBrain_from w evs)) creq.
Proof.
  induction evs as [|ev evs IH]; intros w k m creq rest Hrun Hq Hm Hst Hw Hticks.
  - unfold ticks in Hticks. simpl in Hticks. case_decide; lia.
  - simpl in Hq. apply andb_true_iff in Hq as [Hqev Hq].
    apply negb_true_iff in Hqev. simpl.
    destruct (head_waiter_step w ev k m creq rest Hrun Hm Hst Hw)
      as [Hserved | (m' & rest' & Hm' & Hw' & Hst' & Hev)].
    + eapply served_since_later; [done|]. apply runBrain_from_delivered.
    + eapply served_since_earlier; [apply runBrain_step_delivered|].
      eapply (IH _ k m' creq rest'); try done.
      * by rewrite runBrain_step_stopped.
      * rewrite ticks_cons in Hticks. destruct (is_tick ev).
        -- destruct Hev as [Hnew Hseen]. rewrite Hnew in Hticks.
           rewrite decide_False in Hticks by done.
           rewrite decide_True by done. lia.
        -- rewrite Hev. done.
Qed.


(** ** The queue of a record *)

Lemma queue_moves_refl q : queue_moves q q.
Proof. exists 0%nat, []. split; [lia|]. by rewrite drop_0, app_nil_r. Qed.

Lemma release_queue k m w :
  match memories (release k m w) !! k with
  | Some m' => queue_moves (waiters m) (waiters m')
  | None => waiters m = []
  end.
Proof.
  destruct (waiters m) as [|creq rest] eqn:Hw.
  - rewrite (release_nil k m w Hw). simpl. by rewrite lookup_delete_eq.
  - rewrite (release_cons k m w creq rest Hw). simpl. rewrite lookup_insert_eq.
    exists 1%nat, []. split; [lia|]. simpl. by rewrite drop_0, app_nil_r.
Qed.

(** Whatever the loop receives, the queue of a record only loses its head
    and only grows at its end; a record is deleted only with an empty
    queue. *)
Lemma queue_step w ev k m :
  memories w !! k = Some m →
  match memories (runBrain_step w ev) !! k with
  | Some m' => queue_moves (waiters m) (waiters m')
  | None => waiters m = []
  end.
Proof.
  intros Hm.
  assert (Hsame : ∀ w', memories w' !! k = Some m →
            match memories w' !! k with
            | Some m' => queue_moves (waiters m) (waiters m')
            | None => waiters m = []
            end).
  { intros w' ->. apply queue_moves_refl. }
  unfold runBrain_step. destruct (stopped w) eqn:Hrun; [by apply Hsame|].
  destruct ev as [[creq|ci|ur|qr]|now order1 order2].
  - destruct (decide (creq_key creq = k)) as [<-|Hne].
    + unfold do_checkOut. rewrite Hm, fetch_eq.
      destruct (creq_rw creq); simpl; [|by rewrite Hm; apply queue_moves_refl].
      case_bool_decide; simpl; rewrite lookup_insert_eq; simpl.
      * apply queue_moves_refl.
      * exists 0%nat, [creq]. split; [lia|]. by rewrite drop_0.
    + apply Hsame. by rewrite do_checkOut_lookup_ne.
  - unfold do_checkIn. destruct (memories w !! ci_key ci) as [m0|] eqn:Hm0;
      [|by apply Hsame].
    destruct (decide (ci_token ci = token m0)) as [Htok|Htok];
      [|rewrite bool_decide_eq_false_2 by done; by apply Hsame].
    rewrite bool_decide_eq_true_2 by done. simpl.
    destruct (decide (ci_key ci = k)) as [Hk|Hne].
    + rewrite Hk in *. simplify_eq. apply release_queue.
    + apply Hsame. by rewrite release_lookup_ne.
  - unfold do_update. destruct (memories w !! ur_key ur) as [m0|] eqn:Hm0;
      [|by apply Hsame].
    destruct (decide (ur_token ur = token m0)) as [Htok|Htok];
      [|rewrite bool_decide_eq_false_2 by done; by apply Hsame].
    rewrite bool_decide_eq_true_2 by done. simpl.
    destruct (storeDatum _ _ _) as [ret g1].
    destruct (decide (ur_key ur = k)) as [Hk|Hne].
    + rewrite Hk in *. simplify_eq. apply release_queue.
    + apply Hsame. by rewrite release_lookup_ne.
  - by apply Hsame.
  - destruct (do_tick_lookup now order1 order2 w k m Hm)
      as (wi & Hl & _ & _ & -> & _).
    unfold age_one. rewrite Hl.
    destruct (state m); simpl.
    + rewrite lookup_insert_eq. apply queue_moves_refl.
    + destruct (waiters m) as [|creq rest] eqn:Hw.
      * simpl. rewrite lookup_insert_eq. simpl. apply queue_moves_refl.
      * cbn [length Nat.ltb Nat.leb].
        rewrite (store_record_replyToWaiter k m wi creq rest Hw).
        pose proof (release_queue k m wi) as Hq. by rewrite Hw in Hq.
    + rewrite Hl. apply queue_moves_refl.
Qed.

(** ** C4 *)

(** C4: a CheckIn with the record's token, and an Update with the record's
    token once its blob has been handed to [storeDatum] and its result
    code sent, end the same way.  With waiters, the head of the queue is
    removed, [getDatum] is run for its key for writing (with a provider
    configured and a well-formed key this calls [Retrieve] of the provider
    and reads the random source once), the record is left in state
    [newMemory] with the token of that fetch and the remaining waiters in
    their order, and the reply of the fetch is delivered to that waiter; when
    the fetch succeeds its token is the non-empty token of that new read of
    the random source.  With no waiter the record is deleted.  A checkout
    for writing that finds the record held is appended at the end of the
    queue, and whatever the loop receives (ticks included) the queue only
    loses its head and only grows at its end, so waiters are served in the
    order of their arrival. *)
Theorem C4_release_serves_waiters_in_order w (k : string) m :
  stopped w = false →
  memories w !! k = Some m →
  let ci := {| ci_key := k; ci_token := token m |} in
  let after_checkin := runBrain_step w (brainChanEvent (checkInBytes ci)) in
  (∀ creq rest, waiters m = creq :: rest →
     let rep := (getDatum (creq_key creq) true (globals w)).1 in
     let g' := (getDatum (creq_key creq) true (globals w)).2 in
     memories after_checkin = <[k := served_record rep rest]> (memories w)
     ∧ memories after_checkin !! k
       = Some {| state := newMemory; token := rep_token rep; waiters := rest |}
     ∧ delivered after_checkin
       = (delivered w ++ [(creq_reply creq, checkOutMsg rep)])%list
     ∧ globals after_checkin = g'
     ∧ (keyRe_MatchString (creq_key creq) = true → is_Some (brain (globals w)) →
          (∃ more, brain_calls g'
                   = (brain_calls (globals w)
                      ++ RetrieveCall (creq_key creq) :: more)%list)
          ∧ rand_reads g' = S (rand_reads (globals w)))
     ∧ (rep_retval rep = Ok →
          rep_token rep = minted_token (rand_reads (globals w))
          ∧ rep_token rep ≠ ""
          ∧ rand_reads g' = S (rand_reads (globals w))))
  ∧ (waiters m = [] →
       after_checkin = set_memories (delete k (memories w)) w
       ∧ memories after_checkin !! k = None)
  ∧ (∀ datum c,
       let ur := {| ur_key := k; ur_token := token m; ur_datum := datum;
                    ur_reply := c |} in
       let ret := (storeDatum k datum (globals w)).1 in
       let g1 := (storeDatum k datum (globals w)).2 in
       let after_update := runBrain_step w (brainChanEvent (updateBytes ur)) in
       (∀ creq rest, waiters m = creq :: rest →
          let rep := (getDatum (creq_key creq) true g1).1 in
          memories after_update = <[k := served_record rep rest]> (memories w)
          ∧ delivered after_update
            = (delivered w ++ [(c, retValMsg ret);
                               (creq_reply creq, checkOutMsg rep)])%list
          ∧ globals after_update = (getDatum (creq_key creq) true g1).2
          ∧ (rep_retval rep = Ok →
               rep_token rep = minted_token (rand_reads (globals w))
               ∧ rep_token rep ≠ ""))
       ∧ (waiters m = [] →
            memories after_update = delete k (memories w)
            ∧ delivered after_update = (delivered w ++ [(c, retValMsg ret)])%list
            ∧ globals after_update = g1))
  ∧ (∀ creq, creq_key creq = k → creq_rw creq = true → state m ≠ available →
       let after_checkout := runBrain_step w (brainChanEvent (checkOutBytes creq)) in
       memories after_checkout
       = <[k := {| state := state m; token := token m;
                   waiters := waiters m ++ [creq] |}]> (memories w)
       ∧ delivered after_checkout = delivered w)
  ∧ (∀ ev,
       match memories (runBrain_step w ev) !! k with
       | Some m' => queue_moves (waiters m) (waiters m')
       | None => waiters m = []
       end).
Proof.
  intros Hrun Hm ci after_checkin.
  assert (Hci : after_checkin = release k m w).
  { unfold after_checkin, runBrain_step. rewrite Hrun. unfold do_checkIn. simpl.
    by rewrite Hm, bool_decide_eq_true_2. }
  split; [|split; [|split; [|split]]].
  - intros creq rest Hw rep g'. rewrite Hci, (release_cons k m w creq rest Hw).
    simpl. fold rep g'.
    split; [done|]. split; [by rewrite lookup_insert_eq|].
    split; [done|]. split; [done|].
    split; [|apply getDatum_rw_Ok].
    intros Hkey Hb.
    destruct (getDatum_fetches (creq_key creq) true (globals w) Hkey Hb) as [Hc Hr].
    split; [done|by apply Hr].
  - intros Hw. rewrite Hci, (release_nil k m w Hw). split; [done|].
    simpl. by rewrite lookup_delete_eq.
  - intros datum c ur ret g1 after_update.
    assert (Hur : after_update
                  = release k m (send c (retValMsg ret) (set_globals g1 w))).
    { unfold after_update, runBrain_step. rewrite Hrun. unfold do_update. simpl.
      rewrite Hm, bool_decide_eq_true_2 by done. simpl.
      unfold ret, g1. by destruct (storeDatum _ _ _). }
    split.
    + intros creq rest Hw rep. rewrite Hur, (release_cons k m _ creq rest Hw).
      simpl. fold rep.
      split; [done|]. split; [by rewrite <- app_assoc|]. split; [done|].
      intros Hok. apply getDatum_rw_Ok in Hok as (Ht & Hne & _).
      split; [|done]. unfold rep. rewrite Ht. unfold g1.
      by rewrite storeDatum_rand_reads.
    + intros Hw. rewrite Hur, (release_nil k m _ Hw). done.
  - intros creq Hk Hrw Hst after_checkout.
    unfold after_checkout, runBrain_step. rewrite Hrun. unfold do_checkOut.
    rewrite Hk, Hm, Hrw. simpl. by rewrite bool_decide_eq_false_2.
  - intros ev. by apply queue_step.
Qed.


(** ** C1 *)

(** C1: in every world [runBrain] reaches, provided the tokens minted
    during the run are pairwise distinct, at most one delivery carries the
    (non-empty) token of the record of a key: two callers never hold a
    valid lock token for the same key.  While the lock is held (record in
    state [newMemory] or [seen]), a checkout for writing is put at the end
    of the queue of the record and nothing is delivered, so its caller
    stays blocked; every event other than a tick and a CheckIn or Update
    with the token of the record leaves the record its state, its token and
    its waiters; and a caller that arrives while nobody else waits is
    answered once two ticks have passed, whatever the loop receives in
    between short of [quit]. *)
Theorem C1_exclusive_checkouts_are_mutually_exclusive g (evs : list event)
    (k : string) m :
  let w := runBrain g evs in
  NoDup (minted (rand_reads g) (rand_reads (globals w))) →
  memories w !! k = Some m →
  (token m ≠ "" →
     ∀ i j e1 e2,
       delivered w !! i = Some e1 → delivered w !! j = Some e2 →
       reply_token e1 = token m → reply_token e2 = token m → i = j)
  ∧ (stopped w = false → state m ≠ available →
       (∀ c,
          let creq := {| creq_key := k; creq_rw := true; creq_reply := c |} in
          let w1 := runBrain_step w (brainChanEvent (checkOutBytes creq)) in
          memories w1 !! k
          = Some {| state := state m; token := token m;
                    waiters := waiters m ++ [creq] |}
          ∧ delivered w1 = delivered w
          ∧ (run_api (CheckOutCall creq (fun r => r)) w).2 = None)
       ∧ (∀ ev, is_tick ev = false → releases k (token m) ev = false →
            ∃ m', memories (runBrain_step w ev) !! k = Some m'
                  ∧ state m' = state m ∧ token m' = token m
                  ∧ waiters m `prefix_of` waiters m')
       ∧ (∀ c evs',
            let creq := {| creq_key := k; creq_rw := true; creq_reply := c |} in
            waiters m = [] →
            forallb (fun ev => negb (is_quit ev)) evs' = true →
            (2 ≤ ticks evs')%nat →
            served_since (delivered w)
              (delivered (runBrain_from w (brainChanEvent (checkOutBytes creq) :: evs')))
              creq)).
Proof.
  intros w Hnd Hm. split.
  - intros Htok i j e1 e2 Hi Hj H1 H2.
    assert (Hinv : tokens_inv (rand_reads g) w).
    { apply tokens_inv_run, tokens_inv_start. }
    destruct Hinv as [_ Hsub].
    eapply (issued_NoDup_index (delivered w) i j e1 e2); try done.
    + by eapply sublist_NoDup.
    + by rewrite H1, H2.
    + by rewrite H1.
  - intros Hrun Hst.
    assert (Henq : ∀ c,
      runBrain_step w (brainChanEvent (checkOutBytes
         {| creq_key := k; creq_rw := true; creq_reply := c |}))
      = set_memories
          (<[k := {| state := state m; token := token m;
                     waiters := waiters m ++
                       [{| creq_key := k; creq_rw := true; creq_reply := c |}] |}]>
             (memories w)) w).
    { intros c. unfold runBrain_step. rewrite Hrun. unfold do_checkOut. simpl.
      by rewrite Hm, bool_decide_eq_false_2. }
    split; [|split].
    + intros c creq w1. unfold w1, creq. simpl. rewrite Henq. simpl.
      rewrite lookup_insert_eq. split; [done|]. split; [done|].
      unfold received. simpl. by rewrite drop_all.
    + intros ev Htick Hrel. by apply held_record_step.
    + intros c evs' creq Hw Hq Hticks. simpl. unfold creq. rewrite Henq.
      set (w1 := set_memories _ w).
      change (delivered w) with (delivered w1).
      apply (head_waiter_served evs' w1 k
               {| state := state m; token := token m;
                  waiters := waiters m ++
                    [{| creq_key := k; creq_rw := true; creq_reply := c |}] |}
               {| creq_key := k; creq_rw := true; creq_reply := c |} []).
      * done.
      * done.
      * unfold w1. simpl. by rewrite lookup_insert_eq.
      * done.
      * simpl. by rewrite Hw.
      * simpl. case_decide; lia.
Qed.

End LockFacts.

(** * Further properties of the brain *)

Section TableFacts.
Context {B : Type} `{!SimpleBrain B, !Crypt, !RandSource}.
Implicit Types (w : World B) (g : Globals B) (m : memstatus).

(** ** The invariant of the lock table *)

Lemma token_delivered_later w w' m :
  token_delivered w m → delivered w `prefix_of` delivered w' → token_delivered w' m.
Proof.
  intros [Hempty | (i & c & rep & Hi & Ht)] [more Hmore]; [by left|].
  right. exists i, c, rep. split; [|done].
  rewrite Hmore. by apply lookup_app_l_Some.
Qed.

Lemma token_delivered_last w m c rep :
  token m = rep_token rep →
  token_delivered (send c (checkOutMsg rep) w) m.
Proof.
  intros Ht. right. exists (length (delivered w)), c, rep. split; [|done].
  simpl. by rewrite lookup_app_r, Nat.sub_diag by lia.
Qed.

Lemma brain_inv_frame w w' :
  brain_inv w → memories w' = memories w →
  delivered w `prefix_of` delivered w' → brain_inv w'.
Proof.
  intros [Htab Htok] Hmem Hpre. split.
  - intros k m Hk. rewrite Hmem in Hk. by apply (Htab k).
  - intros k m Hk. rewrite Hmem in Hk.
    eapply token_delivered_later; [by apply (Htok k)|done].
Qed.

Lemma brain_inv_insert w w' k m' :
  brain_inv w →
  memories w' = <[k := m']> (memories w) →
  delivered w `prefix_of` delivered w' →
  record_ok k m' → token_delivered w' m' → brain_inv w'.
Proof.
  intros [Htab Htok] Hmem Hpre Hrec Hdel. split.
  - intros k0 m0 Hk. rewrite Hmem in Hk.
    destruct (decide (k = k0)) as [->|Hne].
    + rewrite lookup_insert_eq in Hk. by simplify_eq.
    + rewrite lookup_insert_ne in Hk by done. by apply (Htab k0).
  - intros k0 m0 Hk. rewrite Hmem in Hk.
    destruct (decide (k = k0)) as [->|Hne].
    + rewrite lookup_insert_eq in Hk. by simplify_eq.
    + rewrite lookup_insert_ne in Hk by done.
      eapply token_delivered_later; [by apply (Htok k0)|done].
Qed.

Lemma brain_inv_delete w w' k :
  brain_inv w → memories w' = delete k (memories w) →
  delivered w `prefix_of` delivered w' → brain_inv w'.
Proof.
  intros [Htab Htok] Hmem Hpre. split.
  - intros k0 m0 Hk. rewrite Hmem in Hk.
    apply lookup_delete_Some in Hk as [_ Hk]. by apply (Htab k0).
  - intros k0 m0 Hk. rewrite Hmem in Hk.
    apply lookup_delete_Some in Hk as [_ Hk].
    eapply token_delivered_later; [by apply (Htok k0)|done].
Qed.

Lemma token_delivered_snoc w m c rep (dl : list (chan * message)) :
  dl = (delivered w ++ [(c, checkOutMsg rep)])%list →
  token m = rep_token rep →
  ∃ i c' rep', dl !! i = Some (c', checkOutMsg rep') ∧ rep_token rep' = token m.
Proof.
  intros -> Ht. exists (length (delivered w)), c, rep. split; [|done].
  by rewrite lookup_app_r, Nat.sub_diag by lia.
Qed.

Lemma brain_inv_release k m w :
  brain_inv w → memories w !! k = Some m → brain_inv (release k m w).
Proof.
  intros Hinv Hm. pose proof (proj1 Hinv k m Hm) as [_ Hall].
  destruct (waiters m) as [|creq rest] eqn:Hw.
  - rewrite (release_nil k m w Hw). by eapply brain_inv_delete.
  - rewrite (release_cons k m w creq rest Hw).
    eapply (brain_inv_insert w _ k _ Hinv).
    + simpl. reflexivity.
    + simpl. by apply prefix_app_r.
    + split; [done|]. simpl. by apply Forall_cons in Hall as [_ ?].
    + right. by eapply token_delivered_snoc.
Qed.

Lemma brain_inv_checkOut creq w : brain_inv w → brain_inv (do_checkOut creq w).
Proof.
  intros Hinv. unfold do_checkOut. rewrite !fetch_eq.
  set (rep := (getDatum (creq_key creq) (creq_rw creq) (globals w)).1).
  set (g' := (getDatum (creq_key creq) (creq_rw creq) (globals w)).2).
  destruct (memories w !! creq_key creq) as [memStat|] eqn:Hm.
  - pose proof (proj1 Hinv _ _ Hm) as [Hnow Hall].
    destruct (creq_rw creq) eqn:Hrw; simpl.
    + destruct (decide (state memStat = available)) as [Hav|Hav].
      * rewrite bool_decide_eq_true_2 by done.
        eapply (brain_inv_insert w _ (creq_key creq) _ Hinv).
        -- simpl. reflexivity.
        -- simpl. by apply prefix_app_r.
        -- split; [done|]. done.
        -- right. by eapply token_delivered_snoc.
      * rewrite bool_decide_eq_false_2 by done.
        eapply (brain_inv_insert w _ (creq_key creq) _ Hinv).
        -- simpl. reflexivity.
        -- done.
        -- split; [done|]. simpl. apply Forall_app. split; [done|].
           by apply Forall_singleton.
        -- exact (proj2 Hinv _ _ Hm).
    + eapply brain_inv_frame; [done|done|]. simpl. by apply prefix_app_r.
  - destruct (bool_decide (rep_retval rep = Ok)); simpl.
    + destruct (creq_rw creq) eqn:Hrw.
      * eapply (brain_inv_insert w _ (creq_key creq) _ Hinv).
        -- simpl. reflexivity.
        -- simpl. by apply prefix_app_r.
        -- split; [done|]. by apply Forall_nil.
        -- right. by eapply token_delivered_snoc.
      * eapply brain_inv_frame; [done|done|]. simpl. by apply prefix_app_r.
    + eapply brain_inv_frame; [done|done|]. simpl. by apply prefix_app_r.
Qed.

Lemma brain_inv_checkIn ci w : brain_inv w → brain_inv (do_checkIn ci w).
Proof.
  intros Hinv. unfold do_checkIn.
  destruct (memories w !! ci_key ci) as [m|] eqn:Hm; [|done].
  destruct (negb _); [done|]. by apply brain_inv_release.
Qed.

Lemma brain_inv_update ur w : brain_inv w → brain_inv (do_update ur w).
Proof.
  intros Hinv. unfold do_update.
  destruct (memories w !! ur_key ur) as [m|] eqn:Hm.
  - destruct (negb _).
    + eapply brain_inv_frame; [done|done|]. simpl. by apply prefix_app_r.
    + destruct (storeDatum _ _ _) as [ret g1].
      apply brain_inv_release; [|done].
      eapply brain_inv_frame; [done|done|]. simpl. by apply prefix_app_r.
  - eapply brain_inv_frame; [done|done|]. simpl. by apply prefix_app_r.
Qed.

Lemma brain_inv_age_one w k : brain_inv w → brain_inv (age_one w k).
Proof.
  intros Hinv. unfold age_one.
  destruct (memories w !! k) as [m|] eqn:Hm; [|done].
  pose proof (proj1 Hinv k m Hm) as [Hnow Hall].
  pose proof (proj2 Hinv k m Hm) as Htok.
  destruct (state m) eqn:Hst.
  - eapply (brain_inv_insert w _ k _ Hinv); [simpl; reflexivity|done|done|exact Htok].
  - destruct (waiters m) as [|creq rest] eqn:Hw.
    + simpl.
      eapply (brain_inv_insert w _ k _ Hinv); [simpl; reflexivity|done|done|exact Htok].
    + cbn [length Nat.ltb Nat.leb].
      rewrite (store_record_replyToWaiter k m w creq rest Hw).
      by apply brain_inv_release.
  - done.
Qed.

Lemma brain_inv_tick now order1 order2 w :
  brain_inv w → brain_inv (do_tick now order1 order2 w).
Proof.
  intros Hinv. unfold do_tick.
  assert (Hinv1 : brain_inv (set_shortTerm (sweep now order1 (shortTermMemories w)) w))
    by by eapply brain_inv_frame.
  revert Hinv1. generalize (set_shortTerm (sweep now order1 (shortTermMemories w)) w).
  intros w1. generalize (range_order order2 (map_to_list (memories w1)).*1).
  intros ks. revert w1. induction ks as [|a ks IH]; intros w1 Hinv1; simpl; [done|].
  by apply IH, brain_inv_age_one.
Qed.

Lemma brain_inv_step w ev : brain_inv w → brain_inv (runBrain_step w ev).
Proof.
  intros Hinv. unfold runBrain_step. destruct (stopped w); [done|].
  destruct ev as [[creq|ci|ur|qr]|now order1 order2].
  - by apply brain_inv_checkOut.
  - by apply brain_inv_checkIn.
  - by apply brain_inv_update.
  - eapply brain_inv_frame; [done|done|]. simpl. by apply prefix_app_r.
  - by apply brain_inv_tick.
Qed.

Lemma brain_inv_run w evs : brain_inv w → brain_inv (runBrain_from w evs).
Proof.
  revert w. induction evs as [|ev evs IH]; intros w Hinv; simpl; [done|].
  by apply IH, brain_inv_step.
Qed.

Lemma brain_inv_start g : brain_inv (runBrain_start g).
Proof. split; intros k m Hk; simpl in Hk; by rewrite lookup_empty in Hk. Qed.


(** X1: in every world the loop reaches from its start, a lock record in
    state [available] has no waiters, as the comment in the checkout case
    says; so the checkout that takes over an expired lock never overtakes a
    queued caller. *)
Theorem X1_available_record_has_no_waiters g (evs : list event) (k : string) m :
  memories (runBrain g evs) !! k = Some m →
  state m = available →
  waiters m = [].
Proof.
  intros Hm Hst.
  destruct (brain_inv_run _ evs (brain_inv_start g)) as [Htab _].
  by apply (Htab k m Hm).
Qed.

(** X2: in every world the loop reaches from its start, each request queued
    in the record of a key is a checkout of that very key for writing; the
    datum [replyToWaiter] fetches for the head waiter is therefore the datum
    of the record's own key. *)
Theorem X2_waiters_asked_for_the_record_key g (evs : list event) (k : string) m :
  memories (runBrain g evs) !! k = Some m →
  (∀ creq, creq ∈ waiters m → creq_key creq = k ∧ creq_rw creq = true)
  ∧ (∀ creq rest, waiters m = creq :: rest →
       (replyToWaiter m (runBrain g evs)).1
       = served_record (getDatum k true (globals (runBrain g evs))).1 rest).
Proof.
  intros Hm.
  destruct (brain_inv_run _ evs (brain_inv_start g)) as [Htab _].
  destruct (Htab k m Hm) as [_ Hall]. split.
  - intros creq Hin. by apply (proj1 (Forall_forall _ _) Hall).
  - intros creq rest Hw. rewrite (replyToWaiter_cons m _ creq rest Hw). simpl.
    rewrite Hw in Hall. apply Forall_cons in Hall as [[-> _] _]. done.
Qed.

(** X3: in every world the loop reaches from its start, the non-empty token
    of a lock record was delivered in a checkout reply, and, when the tokens
    minted during the run are pairwise distinct, in exactly one: every lock
    has one holder. *)
Theorem X3_record_token_has_one_holder g (evs : list event) (k : string) m :
  NoDup (minted (rand_reads g) (rand_reads (globals (runBrain g evs)))) →
  memories (runBrain g evs) !! k = Some m →
  token m ≠ "" →
  ∃ i c rep,
    delivered (runBrain g evs) !! i = Some (c, checkOutMsg rep)
    ∧ rep_token rep = token m
    ∧ ∀ j e, delivered (runBrain g evs) !! j = Some e →
             reply_token e = token m → j = i.
Proof.
  intros Hnd Hm Htok.
  destruct (brain_inv_run _ evs (brain_inv_start g)) as [_ Hdel].
  destruct (Hdel k m Hm) as [?|(i & c & rep & Hi & Ht)]; [done|].
  exists i, c, rep. split; [done|]. split; [done|].
  intros j e Hj He.
  assert (Hinv : tokens_inv (rand_reads g) (runBrain g evs)).
  { apply tokens_inv_run, tokens_inv_start. }
  destruct Hinv as [_ Hsub].
  eapply (issued_NoDup_index (delivered (runBrain g evs)) j i e _); try done.
  - by eapply sublist_NoDup.
  - rewrite He. unfold reply_token. simpl. done.
  - by rewrite He.
Qed.


(** ** Fetches *)

(** X4: the replies of [getDatum].  The result code is [Ok], [BrainFailed] or
    [InvalidDatumKey]; a reply with another code than [Ok] carries no token,
    no bytes and [exists] false; [exists] is true exactly when bytes are
    returned; the token is non-empty exactly for a successful fetch for
    writing; a key the expression rejects, or a missing provider, is answered
    without touching the provider or the random source. *)
Theorem X4_getDatum_reply_conventions dkey rw g :
  let rep := (getDatum dkey rw g).1 in
  (rep_retval rep = Ok ∨ rep_retval rep = BrainFailed
   ∨ rep_retval rep = InvalidDatumKey)
  ∧ (rep_retval rep ≠ Ok →
       rep_token rep = "" ∧ rep_bytes rep = None ∧ rep_exists rep = false)
  ∧ (rep_exists rep = true ↔ is_Some (rep_bytes rep))
  ∧ (rep_token rep ≠ "" ↔ rw = true ∧ rep_retval rep = Ok)
  ∧ (keyRe_MatchString dkey = false →
       rep_retval rep = InvalidDatumKey ∧ (getDatum dkey rw g).2 = g)
  ∧ (keyRe_MatchString dkey = true → brain g = None →
       rep_retval rep = BrainFailed ∧ (getDatum dkey rw g).2 = g).
Proof.
  intros rep.
  assert (Hcodes : rep_retval rep = Ok ∨ rep_retval rep = BrainFailed
                   ∨ rep_retval rep = InvalidDatumKey).
  { unfold rep, getDatum. repeat case_match; simplify_eq/=; auto. }
  assert (Hfail : rep_retval rep ≠ Ok →
            rep_token rep = "" ∧ rep_bytes rep = None ∧ rep_exists rep = false).
  { unfold rep, getDatum. repeat case_match; simplify_eq/=; auto; by intros []. }
  assert (Hexists : rep_exists rep = true ↔ is_Some (rep_bytes rep)).
  { unfold rep, getDatum.
    repeat case_match; simplify_eq/=;
      (split; [intros He; try discriminate He; eauto
              |intros Hs; try reflexivity; by apply is_Some_None in Hs]). }
  assert (Htoken : rep_token rep ≠ "" ↔ rw = true ∧ rep_retval rep = Ok).
  { destruct rw.
    - destruct (getDatum_rw_mint dkey g) as [(Ht & Hr & _)|(Ht & Hr & _)];
        fold rep in Ht, Hr; rewrite Ht.
      + split; [done|]. by intros [_ ?].
      + split; [done|]. intros _. apply minted_token_nonempty.
    - unfold rep. rewrite getDatum_ro_token. split; [done|]. by intros [? _]. }
  split; [done|]. split; [done|]. split; [done|]. split; [done|]. split.
  - intros Hkey. unfold rep, getDatum. by rewrite Hkey.
  - intros Hkey Hb. unfold rep, getDatum. by rewrite Hkey, Hb.
Qed.

(** ** Checkouts and updates *)

(** X5: a checkout for writing of a key without lock record fetches the
    datum.  When the fetch succeeds the record is created in state
    [newMemory] with the token minted by the fetch and no waiters; when it
    fails no record is created and the reply carries the empty token.  Either
    way the reply is delivered in the same turn. *)
Theorem X5_checkout_of_unlocked_key w (creq : checkOutRequest) :
  stopped w = false →
  memories w !! creq_key creq = None →
  creq_rw creq = true →
  let rep := (getDatum (creq_key creq) true (globals w)).1 in
  let w' := runBrain_step w (brainChanEvent (checkOutBytes creq)) in
  delivered w' = (delivered w ++ [(creq_reply creq, checkOutMsg rep)])%list
  ∧ globals w' = (getDatum (creq_key creq) true (globals w)).2
  ∧ (rep_retval rep = Ok →
       memories w'
       = <[creq_key creq := {| state := newMemory; token := rep_token rep;
                               waiters := [] |}]> (memories w)
       ∧ rep_token rep = minted_token (rand_reads (globals w)))
  ∧ (rep_retval rep ≠ Ok → memories w' = memories w ∧ rep_token rep = "").
Proof.
  intros Hrun Hm Hrw rep w'. unfold w', runBrain_step. rewrite Hrun.
  unfold do_checkOut. rewrite Hm, Hrw, fetch_eq. fold rep.
  destruct (decide (rep_retval rep = Ok)) as [Hok|Hok].
  - rewrite bool_decide_eq_true_2 by done. simpl.
    split; [done|]. split; [done|]. split; [|done].
    intros _. split; [done|]. by apply getDatum_rw_Ok.
  - rewrite bool_decide_eq_false_2 by done. simpl.
    split; [done|]. split; [done|]. split; [done|].
    intros _. split; [done|].
    destruct (getDatum_rw_mint (creq_key creq) (globals w)) as [(? & _)|(_ & ? & _)];
      done.
Qed.

(** X7: once the lock is released, its token is worth nothing.  After a
    CheckIn by the holder of a record without waiters, an Update with the same
    token is answered [DatumNotFound], and neither the provider nor the lock
    table is touched. *)
Theorem X7_update_after_release_is_not_found w (k : string) m (datum : list byte)
    (c : chan) :
  stopped w = false →
  memories w !! k = Some m →
  waiters m = [] →
  let w1 := runBrain_step w
              (brainChanEvent (checkInBytes {| ci_key := k; ci_token := token m |})) in
  let w2 := runBrain_step w1
              (brainChanEvent
                 (updateBytes {| ur_key := k; ur_token := token m; ur_datum := datum;
                                 ur_reply := c |})) in
  memories w1 !! k = None
  ∧ delivered w2 = (delivered w ++ [(c, retValMsg DatumNotFound)])%list
  ∧ globals w2 = globals w
  ∧ memories w2 = memories w1.
Proof.
  intros Hrun Hm Hw w1 w2.
  assert (Hw1 : w1 = set_memories (delete k (memories w)) w).
  { unfold w1, runBrain_step. rewrite Hrun. unfold do_checkIn. simpl.
    rewrite Hm, bool_decide_eq_true_2 by done. simpl. by apply release_nil. }
  assert (Hw2 : w2 = send c (retValMsg DatumNotFound) w1).
  { unfold w2, runBrain_step. rewrite Hw1. simpl. rewrite Hrun.
    unfold do_update. simpl. by rewrite lookup_delete_eq. }
  rewrite Hw2, Hw1. simpl. by rewrite lookup_delete_eq.
Qed.

Lemma runBrain_from_stopped w evs : stopped w = true → runBrain_from w evs = w.
Proof.
  intros Hs. induction evs as [|ev evs IH]; simpl; [done|].
  replace (runBrain_step w ev) with w; [done|].
  unfold runBrain_step. by rewrite Hs.
Qed.

(** X9: [quit] ends the loop for good.  The sender of the request gets its
    acknowledgement, the lock table is left as it is, and whatever is sent to
    the loop afterwards changes nothing: a caller still queued is never
    answered. *)
Theorem X9_quit_stops_the_loop w (qr : quitRequest) (evs : list event) :
  stopped w = false →
  let w1 := runBrain_step w (brainChanEvent (quit qr)) in
  delivered w1 = (delivered w ++ [(qr_reply qr, quitMsg)])%list
  ∧ memories w1 = memories w
  ∧ runBrain_from w1 evs = w1.
Proof.
  intros Hrun w1.
  assert (Hw1 : w1 = do_quit qr w).
  { unfold w1, runBrain_step. by rewrite Hrun. }
  rewrite Hw1. split; [done|]. split; [done|].
  by apply runBrain_from_stopped.
Qed.


(** ** Expiry *)



(** ** Bounded waiting *)

(** One event seen by the waiter at position [i] of a held lock: the waiter
    is served (it was the head), or it is still queued behind a held lock and
    the ticks it needs have gone down by one if the event was a tick. *)
Lemma waiter_step w ev k m i creq :
  stopped w = false →
  memories w !! k = Some m →
  state m ≠ available →
  waiters m !! i = Some creq →
  served_since (delivered w) (delivered (runBrain_step w ev)) creq
  ∨ ∃ m' i', memories (runBrain_step w ev) !! k = Some m'
      ∧ waiters m' !! i' = Some creq
      ∧ state m' ≠ available
      ∧ (ticks_needed (state m') i' + (if is_tick ev then 1 else 0)
         ≤ ticks_needed (state m) i)%nat.
Proof.
  intros Hrun Hm Hst Hi.
  assert (Hrelease : ∀ w0, memories w0 !! k = Some m → stopped w0 = stopped w →
            ∀ w', w' = release k m w0 →
            served_since (delivered w0) (delivered w') creq
            ∨ ∃ m' i', memories w' !! k = Some m'
                ∧ waiters m' !! i' = Some creq
                ∧ state m' ≠ available
                ∧ (ticks_needed (state m') i' + 1 ≤ ticks_needed seen i)%nat).
  { intros w0 Hm0 _ w' ->.
    destruct (waiters m) as [|hd rest] eqn:Hw; [done|].
    rewrite (release_cons k m w0 hd rest Hw). simpl.
    destruct i as [|i]; simpl in Hi.
    - left. simplify_eq. eexists _, [], []. done.
    - right. eexists _, i. rewrite lookup_insert_eq. split; [done|].
      simpl. split; [done|]. split; [done|].
      unfold ticks_needed. simpl. repeat case_decide; try done; lia. }
  assert (Hseen : (ticks_needed seen i ≤ ticks_needed (state m) i)%nat).
  { unfold ticks_needed. repeat case_decide; try done; lia. }
  destruct (is_tick ev) eqn:Htick.
  - destruct ev as [|now order1 order2]; [done|].
    unfold runBrain_step. rewrite Hrun.
    destruct (do_tick_lookup now order1 order2 w k m Hm)
      as (wi & Hl & Hs & Hp & Hmm & Hd).
    destruct (state m) eqn:Hstate; [| |done].
    + right. exists {| state := seen; token := token m; waiters := waiters m |}, i.
      split.
      { rewrite Hmm. unfold age_one. rewrite Hl, Hstate. simpl.
        by rewrite lookup_insert_eq. }
      split; [done|]. split; [done|]. unfold ticks_needed. simpl.
      repeat case_decide; try done; lia.
    + assert (Hage : age_one wi k = release k m wi).
      { unfold age_one. rewrite Hl, Hstate.
        destruct (waiters m) as [|hd rest] eqn:Hw; [done|].
        cbn [length Nat.ltb Nat.leb].
        by rewrite (store_record_replyToWaiter k m wi hd rest Hw). }
      destruct (Hrelease wi Hl Hs _ Hage) as [Hserved|(m' & i' & Hm' & Hi' & Hs' & Hn)].
      * left. eapply served_since_earlier; [done|].
        eapply served_since_later; [done|done].
      * right. exists m', i'. rewrite Hmm. done.
  - destruct (releases k (token m) ev) eqn:Hrel.
    + unfold runBrain_step. rewrite Hrun.
      destruct ev as [[creq'|ci|ur|qr]|now order1 order2]; simpl in *; try done.
      * apply andb_true_iff in Hrel as [Hk Ht].
        apply bool_decide_eq_true_1 in Hk, Ht.
        destruct (Hrelease w Hm eq_refl (do_checkIn ci w))
          as [Hserved|(m' & i' & Hm' & Hi' & Hs' & Hn)].
        { unfold do_checkIn. rewrite Hk, Hm, Ht, bool_decide_eq_true_2 by done.
          done. }
        { by left. }
        { right. exists m', i'. split; [done|]. split; [done|]. split; [done|]. lia. }
      * apply andb_true_iff in Hrel as [Hk Ht].
        apply bool_decide_eq_true_1 in Hk, Ht.
        destruct (storeDatum (ur_key ur) (ur_datum ur) (globals w)) as [ret g1] eqn:Hsd.
        destruct (Hrelease (send (ur_reply ur) (retValMsg ret) (set_globals g1 w))
                    Hm eq_refl (do_update ur w))
          as [Hserved|(m' & i' & Hm' & Hi' & Hs' & Hn)].
        { unfold do_update. rewrite Hsd, Hk, Hm, Ht, bool_decide_eq_true_2 by done.
          done. }
        { left. eapply served_since_earlier; [|done]. simpl. by apply prefix_app_r. }
        { right. exists m', i'. split; [done|]. split; [done|]. split; [done|]. lia. }
    + right.
      destruct (held_record_step w ev k m Hrun Hm Hst Htick Hrel)
        as (m' & Hm' & Hs' & Ht' & Hpre).
      exists m', i. split; [done|].
      split; [by eapply prefix_lookup_Some|]. split; [by rewrite Hs'|].
      rewrite Hs'. lia.
Qed.

Lemma waiter_served evs :
  ∀ w k m i creq,
    stopped w = false →
    forallb (fun ev => negb (is_quit ev)) evs = true →
    memories w !! k = Some m →
    state m ≠ available →
    waiters m !! i = Some creq →
    (ticks_needed (state m) i ≤ ticks evs)%nat →
    served_since (delivered w) (delivered (runBrain_from w evs)) creq.
Proof.
  induction evs as [|ev evs IH]; intros w k m i creq Hrun Hq Hm Hst Hi Hticks.
  - unfold ticks, ticks_needed in Hticks. simpl in Hticks. case_decide; lia.
  - simpl in Hq. apply andb_true_iff in Hq as [Hqev Hq].
    apply negb_true_iff in Hqev. simpl.
    destruct (waiter_step w ev k m i creq Hrun Hm Hst Hi)
      as [Hserved | (m' & i' & Hm' & Hi' & Hst' & Hn)].
    + eapply served_since_later; [done|]. apply runBrain_from_delivered.
    + eapply served_since_earlier; [apply runBrain_step_delivered|].
      eapply (IH _ k m' i' creq); try done.
      * by rewrite runBrain_step_stopped.
      * rewrite ticks_cons in Hticks. destruct (is_tick ev); lia.
Qed.

(** X8: waiting is bounded by the position in the queue.  The caller at
    position [i] of the queue of a held lock (the head is at position 0) is
    answered once [2 * (i + 1)] ticks have passed, whatever else the loop
    receives in between, as long as it does not quit. *)
Theorem X8_waiter_served_within_its_turn w (evs : list event) (k : string) m
    (i : nat) (creq : checkOutRequest) :
  stopped w = false →
  forallb (fun ev => negb (is_quit ev)) evs = true →
  memories w !! k = Some m →
  state m ≠ available →
  waiters m !! i = Some creq →
  (2 * (i + 1) ≤ ticks evs)%nat →
  served_since (delivered w) (delivered (runBrain_from w evs)) creq.
Proof.
  intros Hrun Hq Hm Hst Hi Hticks.
  eapply (waiter_served evs w k m i creq); try done.
  unfold ticks_needed. case_decide; lia.
Qed.

End TableFacts.

(** ** Tokens *)

Section TokenFacts.
Context `{!RandSource}.

Lemma nibble_cases (n : N) :
  (n < 16)%N →
  n ∈ [0; 1; 2; 3; 4; 5; 6; 7; 8; 9; 10; 11; 12; 13; 14; 15]%N.
Proof.
  intros Hn.
  assert (Hnat : (N.to_nat n < 16)%nat) by lia.
  replace n with (N.of_nat (N.to_nat n)) by lia.
  generalize dependent (N.to_nat n). intros k Hk.
  do 16 (destruct k as [|k]; [set_solver|]). lia.
Qed.

Lemma hexval_hexdigit (n : N) : (n < 16)%N → hexval (hexdigit n) = n.
Proof.
  intros Hn. apply nibble_cases in Hn.
  repeat (apply elem_of_cons in Hn as [->|Hn]; [by vm_compute|]).
  by apply not_elem_of_nil in Hn.
Qed.

Lemma hexdigit_is_hexdigit (n : N) : (n < 16)%N → is_hexdigit (hexdigit n).
Proof.
  intros Hn. apply nibble_cases in Hn. unfold is_hexdigit.
  repeat (apply elem_of_cons in Hn as [->|Hn]; [vm_compute; set_solver|]).
  by apply not_elem_of_nil in Hn.
Qed.

Lemma byte_nibbles (b : byte) :
  (Byte.to_N b / 16 < 16)%N ∧ (Byte.to_N b mod 16 < 16)%N
  ∧ Byte.to_N b = (16 * (Byte.to_N b / 16) + Byte.to_N b mod 16)%N.
Proof.
  pose proof (Byte.to_N_bounded b) as Hb.
  split; [|split].
  - apply N.Div0.div_lt_upper_bound. lia.
  - apply N.mod_lt. lia.
  - apply N.div_mod. lia.
Qed.

Lemma byte_of_nibbles (b b' : byte) :
  hexdigit (Byte.to_N b / 16) = hexdigit (Byte.to_N b' / 16) →
  hexdigit (Byte.to_N b mod 16) = hexdigit (Byte.to_N b' mod 16) →
  b = b'.
Proof.
  intros Hhi Hlo.
  destruct (byte_nibbles b) as (H1 & H2 & H3).
  destruct (byte_nibbles b') as (H1' & H2' & H3').
  apply (f_equal hexval) in Hhi, Hlo.
  rewrite !hexval_hexdigit in Hhi, Hlo by done.
  assert (Heq : Byte.to_N b = Byte.to_N b') by lia.
  pose proof (Byte.of_to_N b) as Hb. rewrite Heq, Byte.of_to_N in Hb.
  by simplify_eq.
Qed.

Lemma Sprintf_x_inj (bs bs' : list byte) : Sprintf_x bs = Sprintf_x bs' → bs = bs'.
Proof.
  revert bs'. induction bs as [|b bs IH]; intros [|b' bs'] Heq; simpl in Heq;
    try done.
  injection Heq as Hhi Hlo Hrest.
  f_equal; [by apply byte_of_nibbles|by apply IH].
Qed.

(** X10: the format of lock tokens.  [fmt.Sprintf("%x", ...)] of a byte slice
    writes two characters per byte, all of them lowercase hex digits, and
    different slices give different strings; hence a token minted by
    [getDatum] has 16 characters, and two reads of the random source give the
    same token only if they returned the same 8 bytes. *)
Theorem X10_tokens_are_sixteen_hex_digits (bs bs' : list byte) (i j : nat) :
  String.length (Sprintf_x bs) = (2 * length bs)%nat
  ∧ Forall is_hexdigit (list_ascii_of_string (Sprintf_x bs))
  ∧ (Sprintf_x bs = Sprintf_x bs' ↔ bs = bs')
  ∧ String.length (minted_token i) = 16%nat
  ∧ (minted_token i = minted_token j ↔ rand_Read i 8 = rand_Read j 8).
Proof.
  split; [apply Sprintf_x_length|]. split.
  { induction bs as [|b bs IH]; simpl; [by constructor|].
    destruct (byte_nibbles b) as (H1 & H2 & _).
    constructor; [by apply hexdigit_is_hexdigit|].
    constructor; [by apply hexdigit_is_hexdigit|done]. }
  split; [split; [apply Sprintf_x_inj|by intros ->]|].
  split; [apply minted_token_length|].
  unfold minted_token. split; [apply Sprintf_x_inj|by intros ->].
Qed.

End TokenFacts.

(** ** Stores and fetches *)

Section StoreFacts.
Context {B : Type} `{!SimpleBrain B, !Crypt, !RandSource}.
Implicit Types (w : World B) (g : Globals B) (m : memstatus).

Lemma storeDatum_crypt dkey datum g :
  encryptBrain (storeDatum dkey datum g).2 = encryptBrain g
  ∧ cryptKey (storeDatum dkey datum g).2 = cryptKey g.
Proof. unfold storeDatum. repeat case_match; simplify_eq/=; done. Qed.

Lemma getDatum_crypt dkey rw g :
  encryptBrain (getDatum dkey rw g).2 = encryptBrain g
  ∧ cryptKey (getDatum dkey rw g).2 = cryptKey g.
Proof.
  unfold getDatum. repeat case_match; simplify_eq/=; try done.
  all: match goal with
       | H : storeDatum ?k ?d ?g0 = (_, ?g3) |- _ =>
           pose proof (storeDatum_crypt k d g0) as Hs; rewrite H in Hs; simpl in Hs
       end; done.
Qed.

(** What was stored is what is fetched. *)
Lemma storeDatum_getDatum g dkey datum rw :
  lawful_brain (B := B) →
  lawful_crypt (ck_key (cryptKey g)) →
  keyRe_MatchString dkey = true →
  (ck_initializing (cryptKey g) = true → dkey = botEncryptionKey) →
  (storeDatum dkey datum g).1 = Ok →
  let g1 := (storeDatum dkey datum g).2 in
  rep_retval (getDatum dkey rw g1).1 = Ok
  ∧ rep_exists (getDatum dkey rw g1).1 = true
  ∧ rep_bytes (getDatum dkey rw g1).1 = Some datum
  ∧ brain (getDatum dkey rw g1).2 = brain g1.
Proof.
  intros [Hkeep Hback] Hcrypt Hkey Hboot Hok g1.
  unfold g1 in *. clear g1. revert Hok. unfold storeDatum.
  destruct (brain g) as [b|] eqn:Hb; [|done].
  set (sealed := if encryptBrain g then _ else _).
  destruct sealed as [blob|] eqn:Hsealed; [|done].
  destruct (Store dkey blob b) as [err b'] eqn:Hstore.
  destruct err; [done|]. intros _. simpl.
  assert (Hret : Retrieve dkey b' = ((blob, true, None), b')).
  { pose proof (Hback dkey blob b) as Hr. rewrite Hstore in Hr. simpl in Hr.
    pose proof (Hkeep dkey b') as Hk.
    destruct (Retrieve dkey b') as [res b'']. simpl in *. by rewrite Hr, Hk. }
  unfold getDatum. rewrite Hkey. simpl.
  destruct rw; simpl; rewrite Hret; simpl.
  all: unfold sealed in Hsealed; destruct (encryptBrain g); [|by simplify_eq].
  all: destruct (ck_initialized (cryptKey g)) eqn:Hed,
                (ck_initializing (cryptKey g)) eqn:Hing; simpl in *.
  all: try (rewrite (Hboot eq_refl) in *; rewrite bool_decide_eq_true_2 in * by done;
            simpl in *).
  all: try done.
  all: by rewrite (Hcrypt _ _ Hsealed).
Qed.

(** X11: what [storeDatum] stored is what [getDatum] fetches.  For a provider
    that reads back what it stored and a cipher whose [decrypt] opens what
    [encrypt] sealed, after a [storeDatum] that returned [Ok] a [getDatum] of
    the same key returns [Ok], [exists] and the very bytes that were stored,
    whether encryption is off, initialized, or (for the bot's own encryption
    key) initializing; the fetch leaves the provider as it is. *)
Theorem X11_fetch_returns_what_was_stored g dkey datum rw :
  lawful_brain (B := B) →
  lawful_crypt (ck_key (cryptKey g)) →
  keyRe_MatchString dkey = true →
  (ck_initializing (cryptKey g) = true → dkey = botEncryptionKey) →
  (storeDatum dkey datum g).1 = Ok →
  let g1 := (storeDatum dkey datum g).2 in
  rep_retval (getDatum dkey rw g1).1 = Ok
  ∧ rep_exists (getDatum dkey rw g1).1 = true
  ∧ rep_bytes (getDatum dkey rw g1).1 = Some datum
  ∧ brain (getDatum dkey rw g1).2 = brain g1.
Proof. apply storeDatum_getDatum. Qed.

(** X12: with encryption switched on and not initialized nothing is stored
    and nothing stored is handed out (the bot's own encryption key apart,
    while initializing): [storeDatum] returns [BrainFailed] without calling
    the provider, and [getDatum] of a datum that exists returns [BrainFailed]
    with no bytes and no token; a datum the provider does not have is still
    answered [Ok], not found. *)
Theorem X12_uninitialized_encryption_blocks_data g dkey datum rw b db ex b' :
  encryptBrain g = true →
  ck_initialized (cryptKey g) = false →
  ck_initializing (cryptKey g) = false ∨ dkey ≠ botEncryptionKey →
  keyRe_MatchString dkey = true →
  brain g = Some b →
  Retrieve dkey b = ((db, ex, None), b') →
  storeDatum dkey datum g = (BrainFailed, g)
  ∧ (ex = true →
       (getDatum dkey rw g).1
       = {| rep_token := ""; rep_bytes := None; rep_exists := false;
            rep_retval := BrainFailed |})
  ∧ (ex = false →
       rep_retval (getDatum dkey rw g).1 = Ok
       ∧ rep_exists (getDatum dkey rw g).1 = false
       ∧ rep_bytes (getDatum dkey rw g).1 = None).
Proof.
  intros Henc Hed Hguard Hkey Hb Hret.
  assert (Hblock : negb (ck_initializing (cryptKey g)
                         && bool_decide (dkey = botEncryptionKey)) = true).
  { destruct Hguard as [->|Hne]; [done|].
    rewrite (bool_decide_eq_false_2 _ Hne). by rewrite andb_false_r. }
  split; [|split].
  - unfold storeDatum. rewrite Hb, Henc, Hed, Hblock. done.
  - intros ->. unfold getDatum. rewrite Hkey, Hb. simpl.
    destruct rw; simpl; rewrite Hret; simpl; rewrite Henc, Hed;
      destruct (ck_initializing (cryptKey g)) eqn:Hing; simpl; try done;
      destruct Hguard as [?|Hne]; try done;
      by rewrite (bool_decide_eq_false_2 _ Hne).
  - intros ->. unfold getDatum. rewrite Hkey, Hb. simpl.
    destruct rw; simpl; by rewrite Hret.
Qed.

End StoreFacts.

(** ** Calls of the datum API against the loop *)

Section CallFacts.
Context {B : Type} `{!SimpleBrain B, !Crypt, !RandSource}.
Context {D : Type} `{!Json D, !Contexts}.
Implicit Types (w : World B) (g : Globals B) (m : memstatus).

(** The turn of the loop for a checkout for writing of an unlocked key whose
    fetch succeeds. *)
Lemma checkOut_unlocked_Ok w (k : string) (c : chan) :
  stopped w = false →
  memories w !! k = None →
  rep_retval (getDatum k true (globals w)).1 = Ok →
  runBrain_step w
    (brainChanEvent (checkOutBytes {| creq_key := k; creq_rw := true; creq_reply := c |}))
  = {| globals := (getDatum k true (globals w)).2;
       shortTermMemories := shortTermMemories w;
       memories := <[k := {| state := newMemory;
                             token := rep_token (getDatum k true (globals w)).1;
                             waiters := [] |}]> (memories w);
       delivered := delivered w ++ [(c, checkOutMsg (getDatum k true (globals w)).1)];
       stopped := false |}.
Proof.
  intros Hrun Hm Hok. unfold runBrain_step. rewrite Hrun.
  unfold do_checkOut. simpl. rewrite Hm, fetch_eq.
  rewrite bool_decide_eq_true_2 by done. simpl.
  unfold send, set_memories, set_globals. simpl. by rewrite Hrun.
Qed.

Lemma received_last w w' (c : chan) msg :
  delivered w' = (delivered w ++ [(c, msg)])%list →
  received c w w' = Some msg.
Proof.
  intros Hd. unfold received. rewrite Hd, drop_app_length. simpl.
  by rewrite bool_decide_eq_true_2.
Qed.

(** X13: a checkout for writing of a datum that does not unmarshal takes the
    lock all the same.  The call returns [DataFormatError] and [exists]
    false, but with the non-empty token of the lock, and the record of the
    key is left in state [newMemory] with that token: the caller holds the
    lock until it checks in or the lock expires. *)
Theorem X13_unmarshal_failure_still_locks w (k : string) (c : chan) :
  stopped w = false →
  memories w !! k = None →
  keyRe_MatchString k = true →
  let rep := (getDatum k true (globals w)).1 in
  rep_exists rep = true →
  json_Unmarshal (D := D) (default [] (rep_bytes rep)) = None →
  (run_api (checkoutDatum (D := D) c k true) w).2
  = Some (rep_token rep, false, DataFormatError, None)
  ∧ rep_token rep ≠ ""
  ∧ memories (run_api (checkoutDatum (D := D) c k true) w).1 !! k
    = Some {| state := newMemory; token := rep_token rep; waiters := [] |}.
Proof.
  intros Hrun Hm Hkey rep Hex Hjson.
  assert (Hok : rep_retval rep = Ok) by by apply getDatum_exists.
  unfold checkoutDatum, checkout. rewrite Hkey. simpl.
  rewrite (checkOut_unlocked_Ok w k c Hrun Hm Hok). fold rep.
  erewrite received_last by (simpl; reflexivity). simpl.
  rewrite Hex, Hjson, lookup_insert_eq.
  split; [done|]. split; [|done]. by apply getDatum_rw_Ok.
Qed.

(** X14: the round trip of a datum through the API.  With a provider that
    reads back what it stored, a cipher that opens what it sealed (when
    encryption is on, it is initialized), and a value that unmarshals from
    what it marshals to: a [CheckoutDatum] for writing of an unlocked key
    whose fetch succeeds returns a non-empty token; an [UpdateDatum] of the
    value with that token, when the store succeeds, returns [Ok] and releases
    the lock; and a [CheckoutDatum] after it returns the value, [exists] and
    [Ok], with the empty token when it is read-only. *)
Theorem X14_update_then_checkout_returns_the_value w (r : Robot) (key : string)
    (v : D) (bs : list byte) (c1 c2 c3 : chan) :
  lawful_brain (B := B) →
  lawful_crypt (ck_key (cryptKey (globals w))) →
  ck_initializing (cryptKey (globals w)) = false →
  stopped w = false →
  ContainsRune key ":" = false →
  memories w !! namespaced r key = None →
  json_Marshal v = Some bs →
  json_Unmarshal bs = Some v →
  let nk := namespaced r key in
  let rep := (getDatum nk true (globals w)).1 in
  rep_retval rep = Ok →
  (storeDatum nk bs (getDatum nk true (globals w)).2).1 = Ok →
  let w1 := (run_api (CheckoutDatum (D := D) c1 r key true) w).1 in
  let w2 := (run_api (UpdateDatum c2 r key (rep_token rep) v) w1).1 in
  (∃ ex ret old, (run_api (CheckoutDatum (D := D) c1 r key true) w).2
                 = Some (rep_token rep, ex, ret, old))
  ∧ rep_token rep ≠ ""
  ∧ (run_api (UpdateDatum c2 r key (rep_token rep) v) w1).2 = Some Ok
  ∧ memories w2 !! nk = None
  ∧ (run_api (CheckoutDatum (D := D) c3 r key false) w2).2
    = Some ("", true, Ok, Some v).
Proof.
  intros Hlaw Hcrypt Hing Hrun Hcolon Hm Hmarshal Hunmarshal nk rep Hok Hstore w1 w2.
  pose proof (keyRe_MatchString_namespaced r key) as Hkey. fold nk in Hkey, Hm.
  assert (Htok : rep_token rep ≠ "") by by apply getDatum_rw_Ok.
  (* the checkout for writing *)
  assert (Hw1 : w1 = {| globals := (getDatum nk true (globals w)).2;
                        shortTermMemories := shortTermMemories w;
                        memories := <[nk := {| state := newMemory;
                                               token := rep_token rep;
                                               waiters := [] |}]> (memories w);
                        delivered := delivered w ++ [(c1, checkOutMsg rep)];
                        stopped := false |}).
  { unfold w1, CheckoutDatum, checkoutDatum, checkout. rewrite Hcolon.
    fold nk. rewrite Hkey. simpl.
    by rewrite (checkOut_unlocked_Ok w nk c1 Hrun Hm Hok). }
  assert (Hr1 : ∃ ex ret old,
            (run_api (CheckoutDatum (D := D) c1 r key true) w).2
            = Some (rep_token rep, ex, ret, old)).
  { unfold CheckoutDatum, checkoutDatum, checkout. rewrite Hcolon.
    fold nk. rewrite Hkey. simpl.
    rewrite (checkOut_unlocked_Ok w nk c1 Hrun Hm Hok). fold rep.
    erewrite received_last by (simpl; reflexivity). simpl.
    repeat case_match; eauto. }
  (* the update *)
  set (g1 := (getDatum nk true (globals w)).2) in *.
  assert (Hup : run_api (UpdateDatum c2 r key (rep_token rep) v) w1
                = ({| globals := (storeDatum nk bs g1).2;
                      shortTermMemories := shortTermMemories w;
                      memories := delete nk (memories w1);
                      delivered := delivered w1 ++ [(c2, retValMsg Ok)];
                      stopped := false |}, Some Ok)).
  { unfold UpdateDatum, updateDatum, update. rewrite Hcolon, Hmarshal.
    fold nk. rewrite bool_decide_eq_false_2 by done.
    unfold run_api. unfold runBrain_step at 1 2. rewrite Hw1. simpl.
    unfold do_update. simpl. rewrite lookup_insert_eq. simpl.
    rewrite bool_decide_eq_true_2 by done. simpl.
    destruct (storeDatum nk bs g1) as [ret g2] eqn:Hsd. simpl in Hstore.
    subst ret. rewrite release_nil by done. simpl.
    f_equal. unfold received. simpl. rewrite drop_app_length. simpl.
    by rewrite bool_decide_eq_true_2. }
  assert (Hw2 : w2 = (run_api (UpdateDatum c2 r key (rep_token rep) v) w1).1) by done.
  rewrite Hup in Hw2 |- *. simpl in Hw2.
  split; [done|]. split; [done|]. split; [done|].
  split; [rewrite Hw2; simpl; by rewrite lookup_delete_eq|].
  (* the read-only checkout *)
  destruct (getDatum_crypt nk true (globals w)) as [_ Hck]. fold g1 in Hck.
  destruct (storeDatum_getDatum g1 nk bs false Hlaw) as (Hret & Hex & Hbytes & _);
    try done.
  { by rewrite Hck. }
  { rewrite Hck, Hing. done. }
  unfold CheckoutDatum, checkoutDatum, checkout. rewrite Hcolon.
  fold nk. rewrite Hkey. simpl.
  unfold runBrain_step. rewrite Hw2. simpl.
  unfold do_checkOut. simpl. rewrite lookup_delete_eq, fetch_eq. simpl.
  rewrite Hret. simpl.
  unfold received. simpl. rewrite drop_app_length. simpl.
  rewrite bool_decide_eq_true_2 by done. simpl.
  rewrite Hex, Hbytes. simpl. rewrite Hunmarshal, Hret.
  by rewrite getDatum_ro_token.
Qed.

End CallFacts.

(** ** The bootstrap of encryption *)

Section BootFacts.
Context {B : Type} `{!SimpleBrain B, !Crypt, !RandSource, !Memguard}.
Implicit Types (g : Globals B).

Lemma botEncryptionKey_valid : keyRe_MatchString botEncryptionKey = true.
Proof. reflexivity. Qed.

Lemma set_cryptKey_id g : set_cryptKey (cryptKey g) g = g.
Proof. by destruct g. Qed.

(** X15: when [initializeEncryption] refuses to run.  A key of fewer than 32
    bytes is refused with [false]; a call made while an initialization is
    under way returns [true], and a call made once encryption is initialized
    returns [false] (the value of [initializing]); in all three cases nothing
    is changed and the provider is not called. *)
Theorem X15_initializeEncryption_refusals (key : string) g :
  ((length (list_byte_of_string key) < 32)%nat →
     initializeEncryption key g = (false, g))
  ∧ ((32 ≤ length (list_byte_of_string key))%nat →
       ck_initializing (cryptKey g) = true →
       initializeEncryption key g = (true, g))
  ∧ ((32 ≤ length (list_byte_of_string key))%nat →
       ck_initialized (cryptKey g) = true →
       ck_initializing (cryptKey g) = false →
       initializeEncryption key g = (false, g)).
Proof.
  unfold initializeEncryption. split; [|split].
  - intros Hlen. apply Nat.ltb_lt in Hlen. by rewrite Hlen.
  - intros Hlen Hing. apply Nat.ltb_ge in Hlen. rewrite Hlen, Hing.
    by rewrite orb_true_r.
  - intros Hlen Hed Hing. apply Nat.ltb_ge in Hlen. by rewrite Hlen, Hed, Hing.
Qed.

(** X16: the first bootstrap.  With a key of at least 32 bytes, encryption
    switched on and not initialized, and no encryption key in the store yet,
    [initializeEncryption] draws 32 bytes from the random source as the real
    key, hands the provider that key sealed under the first 32 bytes of the
    key it was given, and, when the store succeeds, returns [true] with the
    real key as [cryptKey.key], [initialized] set and [initializing]
    cleared.  The real key is never stored in clear. *)
Theorem X16_first_bootstrap_generates_and_wraps (key : string) g b db b1 sealed b2 :
  (32 ≤ length (list_byte_of_string key))%nat →
  encryptBrain g = true →
  ck_initialized (cryptKey g) = false →
  ck_initializing (cryptKey g) = false →
  NewImmutableFromBytes_fails (take 32 (list_byte_of_string key)) = false →
  NewImmutableRandom_fails (S (rand_reads g)) = false →
  brain g = Some b →
  Retrieve botEncryptionKey b = ((db, false, None), b1) →
  let realkey := rand_Read (S (rand_reads g)) 32 in
  encrypt realkey (take 32 (list_byte_of_string key)) = Some sealed →
  Store botEncryptionKey sealed b1 = (None, b2) →
  let g' := (initializeEncryption key g).2 in
  (initializeEncryption key g).1 = true
  ∧ cryptKey g' = {| ck_key := realkey; ck_initializing := false;
                     ck_initialized := true |}
  ∧ length realkey = 32%nat
  ∧ brain g' = Some b2
  ∧ brain_calls g'
    = (brain_calls g ++ [RetrieveCall botEncryptionKey;
                         StoreCall botEncryptionKey sealed])%list.
Proof.
  intros Hlen Henc Hed Hing Hmg Hrnd Hb Hret realkey Hseal Hstore g'.
  apply Nat.ltb_ge in Hlen.
  unfold g', initializeEncryption. rewrite Hlen, Hed, Hing, Hmg. simpl.
  unfold getDatum. rewrite botEncryptionKey_valid. simpl. rewrite Hb, Hret. simpl.
  rewrite Hrnd. unfold storeDatum. simpl. rewrite Henc. simpl.
  fold realkey. rewrite Hseal, Hstore. simpl.
  split; [done|]. split; [done|].
  split; [by unfold realkey, rand_Read; rewrite ?length_map, ?length_seq|].
  split; [done|]. by rewrite <- app_assoc.
Qed.

(** X17: the key unlocks what it wrapped.  After a first bootstrap that
    returned [true] for a store without encryption key, with a provider that
    reads back what it stored and a cipher that opens what it sealed, a new
    start of the process (key material gone, store as it was left) followed
    by [initializeEncryption] with any key that has the same first 32 bytes
    returns [true] and installs the same real key, without writing to the
    store. *)
Theorem X17_same_key_unlocks_after_restart (key key' : string) g :
  lawful_brain (B := B) →
  lawful_crypt (take 32 (list_byte_of_string key)) →
  (∀ bs, NewImmutableFromBytes_fails bs = false) →
  encryptBrain g = true →
  ck_initialized (cryptKey g) = false →
  ck_initializing (cryptKey g) = false →
  rep_exists (getDatum botEncryptionKey true (unlocking key g)).1 = false →
  (initializeEncryption key g).1 = true →
  (32 ≤ length (list_byte_of_string key'))%nat →
  take 32 (list_byte_of_string key') = take 32 (list_byte_of_string key) →
  let g1 := (initializeEncryption key g).2 in
  let g2 := (initializeEncryption key' (restarted g1)).2 in
  (initializeEncryption key' (restarted g1)).1 = true
  ∧ cryptKey g2 = cryptKey g1
  ∧ ck_initialized (cryptKey g2) = true
  ∧ brain g2 = brain g1.
Proof.
  intros Hlaw Hcrypt Hmg Henc Hed Hing Hfresh Hfirst Hlen' Htake g1 g2.
  assert (Hlen : (32 ≤ length (list_byte_of_string key))%nat).
  { destruct (Nat.ltb (length (list_byte_of_string key)) 32) eqn:Hl;
      [|by apply Nat.ltb_ge].
    unfold initializeEncryption in Hfirst. by rewrite Hl in Hfirst. }
  apply Nat.ltb_ge in Hlen, Hlen'.
  (* the first bootstrap took the path that generates a key *)
  destruct (getDatum botEncryptionKey true (unlocking key g)) as [rep gA] eqn:HgA.
  simpl in Hfresh.
  set (sb := rand_Read (rand_reads gA) 32).
  destruct (storeDatum botEncryptionKey sb (incr_rand gA)) as [ret gB] eqn:HgB.
  assert (Hinit : initializeEncryption key g
                  = (true, set_cryptKey {| ck_key := sb; ck_initializing := false;
                                           ck_initialized := true |} gB)
                  ∧ ret = Ok).
  { revert Hfirst. unfold initializeEncryption. rewrite Hlen, Hed, Hing, Hmg. simpl.
    change (set_cryptKey _ g) with (unlocking key g). rewrite HgA.
    destruct (bool_decide (rep_retval rep = Ok)); simpl; [|done].
    rewrite Hfresh. destruct (NewImmutableRandom_fails (rand_reads gA)); [done|].
    fold sb. rewrite HgB.
    destruct (decide (ret = Ok)) as [->|Hne];
      [|by rewrite bool_decide_eq_false_2].
    done. }
  destruct Hinit as [Hinit ->]. unfold g2, g1. clear g1 g2. rewrite Hinit. simpl.
  (* the key material in which the key was stored *)
  assert (HckA : cryptKey gA = cryptKey (unlocking key g)).
  { pose proof (proj2 (getDatum_crypt botEncryptionKey true (unlocking key g))) as Hc.
    by rewrite HgA in Hc. }
  assert (HencA : encryptBrain gA = true).
  { pose proof (proj1 (getDatum_crypt botEncryptionKey true (unlocking key g))) as Hc.
    rewrite HgA in Hc. simpl in Hc. by rewrite Hc. }
  assert (HckB : cryptKey gB = cryptKey (unlocking key g)).
  { pose proof (proj2 (storeDatum_crypt botEncryptionKey sb (incr_rand gA))) as Hc.
    rewrite HgB in Hc. simpl in Hc. by rewrite Hc. }
  (* the restart *)
  assert (Hrestart : set_cryptKey {| ck_key := take 32 (list_byte_of_string key');
                                     ck_initializing := true;
                                     ck_initialized := false |}
                       (restarted (set_cryptKey {| ck_key := sb;
                                                   ck_initializing := false;
                                                   ck_initialized := true |} gB))
                     = gB).
  { rewrite Htake. rewrite <- (set_cryptKey_id gB) at 2. rewrite HckB. done. }
  unfold initializeEncryption. simpl. rewrite Hlen', Hmg. simpl.
  rewrite Hrestart.
  destruct (storeDatum_getDatum (incr_rand gA) botEncryptionKey sb true Hlaw)
    as (Hret & Hex & Hbytes & Hbrain); try done.
  { simpl. by rewrite HckA. }
  { by rewrite HgB. }
  rewrite HgB in Hret, Hex, Hbytes, Hbrain. simpl in *.
  destruct (getDatum botEncryptionKey true gB) as [rep' gC] eqn:HgC. simpl in *.
  rewrite Hret, Hex, Hbytes, Hmg. simpl. done.
Qed.

(** X18: a key that does not open the stored encryption key.  When the store
    holds an encryption key and [decrypt] fails under the first 32 bytes of
    the key given, [initializeEncryption] returns [false]; it leaves
    [initialized] and [initializing] false and has only read from the store;
    every [storeDatum] after it fails with [BrainFailed]. *)
Theorem X18_wrong_key_leaves_encryption_locked (key : string) g b sealed b1 :
  (32 ≤ length (list_byte_of_string key))%nat →
  encryptBrain g = true →
  ck_initialized (cryptKey g) = false →
  ck_initializing (cryptKey g) = false →
  NewImmutableFromBytes_fails (take 32 (list_byte_of_string key)) = false →
  brain g = Some b →
  Retrieve botEncryptionKey b = ((sealed, true, None), b1) →
  decrypt sealed (take 32 (list_byte_of_string key)) = None →
  let g' := (initializeEncryption key g).2 in
  (initializeEncryption key g).1 = false
  ∧ ck_initialized (cryptKey g') = false
  ∧ ck_initializing (cryptKey g') = false
  ∧ brain_calls g' = (brain_calls g ++ [RetrieveCall botEncryptionKey])%list
  ∧ ∀ dkey datum, storeDatum dkey datum g' = (BrainFailed, g').
Proof.
  intros Hlen Henc Hed Hing Hmg Hb Hret Hdec g'.
  apply Nat.ltb_ge in Hlen.
  unfold g', initializeEncryption. rewrite Hlen, Hed, Hing, Hmg. simpl.
  unfold getDatum. rewrite botEncryptionKey_valid. simpl. rewrite Hb, Hret. simpl.
  rewrite Henc. simpl. rewrite Hdec. simpl.
  split; [done|]. split; [done|]. split; [done|]. split; [done|].
  intros dkey datum. unfold storeDatum, end_initializing, set_cryptKey. simpl.
  by rewrite Henc.
Qed.

End BootFacts.

(** ** Paging through a history *)

Section PagerFacts.

Lemma len_nonneg s : 0 ≤ len s.
Proof. unfold len. lia. Qed.

Lemma len_empty s : len s = 0 ↔ s = "".
Proof.
  unfold len. destruct s as [|a s]; [done|]. split; [|done].
  cbn [String.length]. intros Hz. exfalso. lia.
Qed.

Lemma len_append s t : len (s ++ t) = len s + len t.
Proof.
  unfold len. induction s as [|a s IH]; [done|].
  change (String a s ++ t) with (String a (s ++ t)).
  cbn [String.length]. rewrite !Nat2Z.inj_succ. lia.
Qed.

Lemma page_size_nonneg lines : 0 ≤ page_size lines.
Proof.
  induction lines as [|l lines IH]; simpl; [lia|].
  pose proof (len_nonneg l). lia.
Qed.

Lemma page_size_app l k : page_size (l ++ k) = page_size l + page_size k.
Proof. induction l as [|x l IH]; simpl; [lia|]. rewrite IH. lia. Qed.

(** The text of a page is one byte shorter than its size. *)
Lemma Join_len lines :
  lines ≠ [] → len (strings_Join lines LF) + 1 = page_size lines.
Proof.
  unfold strings_Join.
  induction lines as [|l lines IH]; [done|]. intros _.
  destruct lines as [|l' lines].
  - simpl. lia.
  - change (String.concat LF (l :: l' :: lines))
      with (l ++ LF ++ String.concat LF (l' :: lines)).
    rewrite !len_append.
    change (page_size (l :: l' :: lines))
      with (len l + 1 + page_size (l' :: lines)).
    rewrite <- IH by done. change (len LF) with 1. lia.
Qed.

Lemma Join_prefix l lines :
  HasPrefix (strings_Join (l :: lines) LF) l = true.
Proof.
  unfold HasPrefix, strings_Join.
  assert (Hp : ∀ s t, String.prefix s (s ++ t) = true).
  { induction s as [|a s IH]; intros t; [by destruct t|].
    change (String a s ++ t) with (String a (s ++ t)). simpl.
    destruct (ascii_dec a a); [apply IH|done]. }
  destruct lines as [|l' lines].
  - replace (String.concat LF [l]) with (l ++ ""); [apply Hp|].
    simpl. induction l as [|a l IH]; [done|].
    change (String a l ++ "") with (String a (l ++ "")). by rewrite IH.
  - apply Hp.
Qed.

(** What the loop that fills a page returns: the lines taken from the
    scanner are appended; the loop ends at the end of the scanner, or was not
    entered, or ends with the line that did not fit. *)
Lemma fill_page_spec scanner size lines :
  ∃ taken,
    (fill_page scanner size lines "").1.1.1 = (lines ++ taken)%list
    ∧ ((fill_page scanner size lines "").1.2 = true
       ∧ (fill_page scanner size lines "").1.1.2 = ""
       ∧ (fill_page scanner size lines "").2 = []
       ∧ scanner = taken
       ∧ size + page_size taken < histPageSize
       ∨ (fill_page scanner size lines "").1.2 = false
         ∧ (fill_page scanner size lines "").1.1.2 = ""
         ∧ (fill_page scanner size lines "").2 = scanner
         ∧ taken = []
         ∧ histPageSize ≤ size
       ∨ (fill_page scanner size lines "").1.2 = false
         ∧ scanner = (taken ++ (fill_page scanner size lines "").1.1.2
                              :: (fill_page scanner size lines "").2)%list
         ∧ size + page_size taken < histPageSize
         ∧ histPageSize ≤ size + page_size taken
                          + (len (fill_page scanner size lines "").1.1.2 + 1)).
Proof.
  revert size lines.
  induction scanner as [|text scanner IH]; intros size lines.
  - simpl. destruct (Z.ltb_spec size histPageSize); simpl.
    + exists []. rewrite app_nil_r. split; [done|]. left. simpl. repeat split; lia.
    + exists []. rewrite app_nil_r. split; [done|]. right. left. done.
  - cbn [fill_page]. destruct (Z.ltb_spec size histPageSize) as [Hlt|Hge]; cbn [negb].
    + destruct (Z.ltb_spec (size + (len text + 1)) histPageSize) as [Hfit|Hover].
      * destruct (IH (size + (len text + 1)) (lines ++ [text])%list)
          as (taken & Hlines & Hcases).
        exists (text :: taken). rewrite Hlines, <- app_assoc. split; [done|].
        cbn [page_size foldr]. fold (page_size taken).
        destruct Hcases as [(Hf & Hl & Hs & -> & Hsz)
                           |[(Hf & Hl & Hs & -> & Hsz)|(Hf & Hs & Hsz1 & Hsz2)]].
        -- left. repeat split; try done. lia.
        -- lia.
        -- right. right. split; [done|]. split; [by rewrite Hs at 1|]. lia.
      * exists []. rewrite app_nil_r.
        destruct scanner as [|text' scanner'];
          cbn [fill_page]; destruct (Z.ltb_spec (size + (len text + 1)) histPageSize);
          try lia; simpl; (split; [done|]); right; right; repeat split; try done; lia.
    + exists []. rewrite app_nil_r. simpl. split; [done|]. right. left. done.
Qed.


Lemma carried_size line : page_size (carried line) = if bool_decide (line = "") then 0 else len line + 1.
Proof. unfold carried. case_bool_decide; simpl; lia. Qed.

Lemma next_page_fill line scanner :
  next_page line scanner
  = fill_page scanner (page_size (carried line)) (carried line) "".
Proof.
  unfold next_page, carried.
  destruct (Z.ltb_spec 0 (len line)) as [Hpos|Hzero].
  - rewrite bool_decide_eq_false_2; [simpl; by rewrite Z.add_0_r|].
    intros ->. by vm_compute in Hpos.
  - rewrite bool_decide_eq_true_2; [|apply len_empty; pose proof (len_nonneg line); lia].
    assert (line = "") as -> by (apply len_empty; pose proof (len_nonneg line); lia).
    done.
Qed.

(** One pass of the pager: the page is the line carried over and the lines
    taken from the scanner; the pass ends at the end of the scanner, or with
    a page that is the line carried over alone, or with a line that did not
    fit. *)
Lemma next_page_spec line scanner :
  ∃ taken,
    (next_page line scanner).1.1.1 = (carried line ++ taken)%list
    ∧ ((next_page line scanner).1.2 = true
       ∧ (next_page line scanner).1.1.2 = ""
       ∧ (next_page line scanner).2 = []
       ∧ scanner = taken
       ∧ page_size (carried line ++ taken) < histPageSize
       ∨ (next_page line scanner).1.2 = false
         ∧ (next_page line scanner).1.1.2 = ""
         ∧ (next_page line scanner).2 = scanner
         ∧ taken = []
         ∧ line ≠ ""
         ∧ histPageSize ≤ len line + 1
       ∨ (next_page line scanner).1.2 = false
         ∧ scanner = (taken ++ (next_page line scanner).1.1.2
                              :: (next_page line scanner).2)%list
         ∧ page_size (carried line ++ taken) < histPageSize
         ∧ histPageSize ≤ page_size (carried line ++ taken)
                          + (len (next_page line scanner).1.1.2 + 1)).
Proof.
  rewrite next_page_fill.
  destruct (fill_page_spec scanner (page_size (carried line)) (carried line))
    as (taken & Hlines & Hcases).
  exists taken. split; [done|]. rewrite page_size_app.
  destruct Hcases as [(Hf & Hl & Hs & -> & Hsz)
                     |[(Hf & Hl & Hs & -> & Hsz)|(Hf & Hs & Hsz1 & Hsz2)]].
  - left. done.
  - right. left. rewrite carried_size in Hsz.
    case_bool_decide; [by vm_compute in Hsz|]. done.
  - right. right. done.
Qed.

(** The page is filled with the lines that fit. *)
Lemma fill_page_fits shown over scanner size lines :
  size + page_size shown < histPageSize →
  histPageSize ≤ size + page_size shown + (len over + 1) →
  fill_page (shown ++ over :: scanner) size lines ""
  = ((lines ++ shown)%list, over, false, scanner).
Proof.
  revert size lines. induction shown as [|l shown IH]; intros size lines Hlt Hge.
  - simpl in *. rewrite app_nil_r.
    destruct (Z.ltb_spec size histPageSize); [|lia]. simpl.
    destruct (Z.ltb_spec (size + (len over + 1)) histPageSize); [lia|].
    destruct scanner; simpl;
      by destruct (Z.ltb_spec (size + (len over + 1)) histPageSize); [lia|].
  - cbn [page_size foldr] in *. fold (page_size shown) in *.
    pose proof (page_size_nonneg shown). pose proof (len_nonneg over).
    pose proof (len_nonneg l).
    cbn [app fill_page].
    destruct (Z.ltb_spec size histPageSize); [|lia]. cbn [negb].
    destruct (Z.ltb_spec (size + (len l + 1)) histPageSize); [|lia].
    rewrite IH by lia. by rewrite <- app_assoc.
Qed.


(** Skipping stops at the first line that opens a section. *)
Lemma next_section_found pre marker post line :
  Forall (fun l => ¬ opens_section l) pre →
  opens_section marker →
  next_section (pre ++ marker :: post) line = (marker, post).
Proof.
  unfold opens_section. intros Hpre Hm. revert line.
  induction Hpre as [|l pre Hl _ IH]; intros line; simpl.
  - by rewrite Hm.
  - destruct (HasPrefix l "***"); [done|]. apply IH.
Qed.


Lemma next_section_left scanner line :
  (pages_left (next_section scanner line).1 (next_section scanner line).2
   ≤ pages_left line scanner)%nat.
Proof.
  unfold pages_left. revert line.
  induction scanner as [|l scanner IH]; intros line; simpl; [done|].
  destruct (HasPrefix l "***"); simpl.
  - repeat case_bool_decide; lia.
  - specialize (IH l). repeat case_bool_decide; lia.
Qed.

Lemma next_section_from scanner line :
  ((next_section scanner line).1 = line
   ∨ (next_section scanner line).1 ∈ scanner)
  ∧ (next_section scanner line).2 ⊆ scanner.
Proof.
  revert line. induction scanner as [|l scanner IH]; intros line; simpl.
  - split; [by left|done].
  - destruct (IH l) as [Hl Hsub].
    destruct (HasPrefix l "***"); simpl.
    + split; [right; apply list_elem_of_here|].
      intros x Hx. by apply list_elem_of_further.
    + split.
      * right. destruct Hl as [->|Hin];
          [apply list_elem_of_here|by apply list_elem_of_further].
      * intros x Hx. apply list_elem_of_further. by apply Hsub.
Qed.

(** One pass that does not finish leaves less to page. *)
Lemma next_page_left line scanner :
  (next_page line scanner).1.2 = false →
  (pages_left (next_page line scanner).1.1.2 (next_page line scanner).2
   < pages_left line scanner)%nat.
Proof.
  intros Hf. unfold pages_left.
  destruct (next_page_spec line scanner) as (taken & Hlines & Hcases).
  destruct Hcases as [(Hf' & _)|[(_ & Hl & Hs & _ & Hne & _)|(_ & Hs & _)]].
  - congruence.
  - rewrite Hl, Hs. rewrite bool_decide_eq_true_2 by done.
    rewrite bool_decide_eq_false_2 by done. lia.
  - apply (f_equal length) in Hs. rewrite length_app in Hs. simpl in Hs.
    repeat case_bool_decide; lia.
Qed.


Lemma next_page_from line scanner :
  ((next_page line scanner).1.1.2 = ""
   ∨ (next_page line scanner).1.1.2 ∈ scanner)
  ∧ (next_page line scanner).2 ⊆ scanner.
Proof.
  destruct (next_page_spec line scanner) as (taken & _ & Hcases).
  destruct Hcases as [(_ & Hl & Hs & _)|[(_ & Hl & Hs & _)|(_ & Hs & _)]].
  - rewrite Hl, Hs. split; [by left|]. intros x Hx. by apply elem_of_nil in Hx.
  - rewrite Hl, Hs. split; [by left|done].
  - split.
    + right. rewrite Hs at 2. apply elem_of_app. right. apply list_elem_of_here.
    + intros x Hx. rewrite Hs. apply elem_of_app. right.
      by apply list_elem_of_further.
Qed.

(** A page is shorter than the page size, or it is the line carried over
    alone. *)
Lemma next_page_text line scanner :
  len (strings_Join (next_page line scanner).1.1.1 LF) + 1 < histPageSize
  ∨ strings_Join (next_page line scanner).1.1.1 LF = line.
Proof.
  destruct (next_page_spec line scanner) as (taken & Hlines & Hcases).
  rewrite Hlines.
  assert (Hsmall : page_size (carried line ++ taken) < histPageSize →
                   len (strings_Join (carried line ++ taken) LF) + 1 < histPageSize).
  { intros Hsz. destruct (carried line ++ taken)%list as [|l ls] eqn:Heq; [done|].
    by rewrite Join_len. }
  destruct Hcases as [(_ & _ & _ & _ & Hsz)
                     |[(_ & _ & _ & -> & Hne & _)|(_ & _ & Hsz & _)]].
  - left. by apply Hsmall.
  - right. unfold carried. by rewrite bool_decide_eq_false_2.
  - left. by apply Hsmall.
Qed.

Lemma PageLoop_S fuel replies asked line scanner :
  PageLoop (S fuel) replies asked line scanner
  = let '(lines, line1, finished, scanner1) := next_page line scanner in
    let page := FixedSay (strings_Join lines LF) in
    if finished then Some [page]
    else
      match replies asked with
      | None => Some [page; pagingPrompt; Say "(quitting)"]
      | Some rep =>
          if bool_decide (rep = "q" ∨ rep = "Q")
          then Some [page; pagingPrompt; Say "(ok, quitting)"]
          else
            let '(line2, scanner2) :=
              if bool_decide (rep = "n" ∨ rep = "N")
              then next_section scanner1 line1
              else (line1, scanner1) in
            (fun out => page :: pagingPrompt :: out)
              <$> PageLoop fuel replies (S asked) line2 scanner2
      end.
Proof. reflexivity. Qed.

(** Whatever the replies, the pager ends, and it has prompted at most once
    for each unit of its measure. *)
Lemma PageLoop_ends replies m :
  ∀ asked line scanner,
    (pages_left line scanner ≤ m)%nat →
    ∃ out,
      (∀ fuel, (m < fuel)%nat →
         PageLoop fuel replies asked line scanner = Some out)
      ∧ (prompts out ≤ pages_left line scanner)%nat.
Proof.
  induction m as [m IH] using lt_wf_ind. intros asked line scanner Hm.
  pose proof (next_page_left line scanner) as Hleft.
  destruct (next_page line scanner) as [[[lines line1] fin] scanner1] eqn:Hnp.
  simpl in Hleft.
  destruct fin.
  { exists [FixedSay (strings_Join lines LF)]. split; [|unfold prompts; simpl; lia].
    intros [|fuel] Hfuel; [lia|]. by rewrite PageLoop_S, Hnp. }
  specialize (Hleft eq_refl).
  destruct (replies asked) as [rep|] eqn:Hrep; cycle 1.
  { exists [FixedSay (strings_Join lines LF); pagingPrompt; Say "(quitting)"].
    split; [|unfold prompts; simpl; lia].
    intros [|fuel] Hfuel; [lia|]. by rewrite PageLoop_S, Hnp, Hrep. }
  destruct (bool_decide (rep = "q" ∨ rep = "Q")) eqn:Hq.
  { exists [FixedSay (strings_Join lines LF); pagingPrompt; Say "(ok, quitting)"].
    split; [|unfold prompts; simpl; lia].
    intros [|fuel] Hfuel; [lia|]. by rewrite PageLoop_S, Hnp, Hrep, Hq. }
  pose proof (next_section_left scanner1 line1) as Hskip.
  destruct (if bool_decide (rep = "n" ∨ rep = "N")
            then next_section scanner1 line1 else (line1, scanner1))
    as [line2 scanner2] eqn:Hnext.
  assert (Hless : (pages_left line2 scanner2 < pages_left line scanner)%nat).
  { destruct (bool_decide (rep = "n" ∨ rep = "N")).
    - rewrite Hnext in Hskip. simpl in Hskip. lia.
    - by simplify_eq. }
  destruct (IH (pages_left line2 scanner2) ltac:(lia) (S asked) line2 scanner2
              ltac:(lia)) as (out & Hout & Hprompts).
  exists (FixedSay (strings_Join lines LF) :: pagingPrompt :: out). split.
  - intros [|fuel] Hfuel; [lia|].
    rewrite PageLoop_S, Hnp, Hrep, Hq, Hnext. by rewrite Hout by lia.
  - unfold prompts in *. simpl. lia.
Qed.

(** Every page sent is shorter than the page size, or is one line of what
    was left to show. *)
Lemma PageLoop_pages fuel replies :
  ∀ asked line scanner out,
    PageLoop fuel replies asked line scanner = Some out →
    ∀ text, text ∈ pages_sent out →
      len text + 1 < histPageSize ∨ text = line ∨ text ∈ scanner.
Proof.
  induction fuel as [|fuel IH]; intros asked line scanner out; [done|].
  rewrite PageLoop_S.
  pose proof (next_page_text line scanner) as Htext.
  pose proof (next_page_from line scanner) as [Hline1 Hscanner1].
  destruct (next_page line scanner) as [[[lines line1] fin] scanner1] eqn:Hnp.
  simpl in Htext, Hline1, Hscanner1.
  assert (Hpage : ∀ text, text = strings_Join lines LF →
                    len text + 1 < histPageSize ∨ text = line ∨ text ∈ scanner).
  { intros text ->. destruct Htext as [?|?]; [by left|by right; left]. }
  destruct fin.
  { intros [= <-] text Hin. simpl in Hin. apply list_elem_of_singleton in Hin. auto. }
  destruct (replies asked) as [rep|]; cycle 1.
  { intros [= <-] text Hin. simpl in Hin. apply list_elem_of_singleton in Hin. auto. }
  destruct (bool_decide (rep = "q" ∨ rep = "Q")).
  { intros [= <-] text Hin. simpl in Hin. apply list_elem_of_singleton in Hin. auto. }
  pose proof (next_section_from scanner1 line1) as [Hline2 Hscanner2].
  destruct (if bool_decide (rep = "n" ∨ rep = "N")
            then next_section scanner1 line1 else (line1, scanner1))
    as [line2 scanner2] eqn:Hnext.
  assert (Hfrom : (line2 = "" ∨ line2 ∈ scanner) ∧ scanner2 ⊆ scanner).
  { destruct (bool_decide (rep = "n" ∨ rep = "N")).
    - rewrite Hnext in Hline2, Hscanner2. simpl in *. split.
      + destruct Hline2 as [->|Hin]; [done|]. right. by apply Hscanner1.
      + intros x Hx. by apply Hscanner1, Hscanner2.
    - by simplify_eq. }
  destruct Hfrom as [Hline Hsub].
  destruct (PageLoop fuel replies (S asked) line2 scanner2) as [out'|] eqn:Hrec;
    [|done].
  intros [= <-] text Hin. simpl in Hin.
  apply elem_of_cons in Hin as [->|Hin]; [auto|].
  destruct (IH _ _ _ _ Hrec text Hin) as [?|[->|?]]; [by left| |right; right; auto].
  destruct Hline as [->|?]; [by left|by right; right].
Qed.


Lemma carried_nonempty line : line ≠ "" → carried line = [line].
Proof. intros Hne. unfold carried. by rewrite bool_decide_eq_false_2. Qed.

Lemma carried_filter line :
  filter (fun l => l ≠ "") (carried line) = carried line.
Proof.
  unfold carried. case_bool_decide as Hl; [done|].
  rewrite filter_cons. by destruct (decide (line ≠ "")).
Qed.

Lemma carried_sublist line scanner :
  (carried line ++ scanner)%list `sublist_of` line :: scanner.
Proof.
  unfold carried. case_bool_decide; simpl; [by apply sublist_cons|done].
Qed.

Lemma filter_carried line scanner :
  filter (fun l => l ≠ "") (line :: scanner)
  = filter (fun l => l ≠ "") (carried line ++ scanner)%list.
Proof.
  unfold carried. rewrite filter_cons.
  case_bool_decide as Hl; destruct (decide (line ≠ "")); try done.
  simpl. rewrite filter_cons. by destruct (decide (line ≠ "")).
Qed.

Lemma paged_cons p pages :
  pages ≠ [] →
  paged (p :: pages) = FixedSay (strings_Join p LF) :: pagingPrompt :: paged pages.
Proof. by destruct pages. Qed.

(** With replies that continue, the pages sent are a splitting of the line
    carried over and the lines of the scanner, in their order; only empty
    lines are left out. *)
Lemma PageLoop_continue replies m :
  (∀ n, continues (replies n)) →
  ∀ asked line scanner,
    (pages_left line scanner ≤ m)%nat →
    ∃ pages,
      (∀ fuel, (m < fuel)%nat →
         PageLoop fuel replies asked line scanner = Some (paged pages))
      ∧ pages ≠ []
      ∧ filter (fun l => l ≠ "") (concat pages)
        = filter (fun l => l ≠ "") (carried line ++ scanner)%list
      ∧ concat pages `sublist_of` (carried line ++ scanner)%list.
Proof.
  intros Hcont. induction m as [m IH] using lt_wf_ind.
  intros asked line scanner Hm.
  pose proof (next_page_left line scanner) as Hleft.
  destruct (next_page_spec line scanner) as (taken & Hlines & Hcases).
  destruct (next_page line scanner) as [[[lines line1] fin] scanner1] eqn:Hnp.
  simpl in Hleft, Hlines, Hcases. subst lines.
  destruct Hcases as [(-> & -> & -> & -> & Hsz)|Hmore].
  { exists [(carried line ++ taken)%list]. simpl. rewrite app_nil_r.
    split; [|done].
    intros [|fuel] Hfuel; [lia|]. by rewrite PageLoop_S, Hnp. }
  assert (fin = false) as -> by (by destruct Hmore as [(-> & _)|(-> & _)]).
  specialize (Hleft eq_refl).
  destruct (Hcont asked) as (rep & Hrep & Hq & HQ & Hn & HN).
  destruct (IH (pages_left line1 scanner1) ltac:(lia) (S asked) line1 scanner1
              ltac:(lia)) as (pages & Hout & Hne & Hfilter & Hsub).
  exists ((carried line ++ taken)%list :: pages). split; [|split; [done|]].
  { intros [|fuel] Hfuel; [lia|].
    rewrite PageLoop_S, Hnp, Hrep.
    rewrite bool_decide_eq_false_2 by (by intros [?|?]).
    rewrite bool_decide_eq_false_2 by (by intros [?|?]).
    rewrite Hout by lia. by rewrite paged_cons. }
  cbn [concat].
  destruct Hmore as [(_ & -> & -> & -> & Hline & _)|(_ & Hscanner & _)].
  - change (carried "") with (@nil string) in *. simpl in Hfilter, Hsub.
    rewrite app_nil_r. split.
    + by rewrite !filter_app, Hfilter.
    + by apply sublist_app.
  - rewrite Hscanner. rewrite <- !app_assoc. split.
    + by rewrite !filter_app, Hfilter, <- filter_carried.
    + apply sublist_app; [done|]. apply sublist_app; [done|].
      etrans; [exact Hsub|]. apply carried_sublist.
Qed.

(** The first thing the pager sends is a page that starts with the line
    carried over. *)
Lemma PageLoop_head fuel replies asked line scanner out :
  line ≠ "" →
  PageLoop fuel replies asked line scanner = Some out →
  ∃ text, head (pages_sent out) = Some text ∧ HasPrefix text line = true.
Proof.
  intros Hne. destruct fuel as [|fuel]; [done|]. rewrite PageLoop_S.
  destruct (next_page_spec line scanner) as (taken & Hlines & _).
  destruct (next_page line scanner) as [[[lines line1] fin] scanner1].
  simpl in Hlines. subst lines. rewrite carried_nonempty by done.
  assert (Hp : HasPrefix (strings_Join ([line] ++ taken) LF) line = true)
    by apply Join_prefix.
  destruct fin; [intros [= <-]; eauto|].
  destruct (replies asked) as [rep|]; [|intros [= <-]; eauto].
  destruct (bool_decide (rep = "q" ∨ rep = "Q")); [intros [= <-]; eauto|].
  destruct (if bool_decide (rep = "n" ∨ rep = "N")
            then next_section scanner1 line1 else (line1, scanner1))
    as [line2 scanner2].
  destruct (PageLoop fuel replies (S asked) line2 scanner2); [|done].
  intros [= <-]. eauto.
Qed.

Lemma opens_section_nonempty line : opens_section line → line ≠ "".
Proof. by intros Ho ->. Qed.

End PagerFacts.

Section PagerTheorems.
Context `{!HistoryProvider}.

(** X19: whatever the user replies, [pagehistory] ends: for a history of
    [n] lines it has sent its last message after at most [2 * n] prompts. *)
Theorem X19_pagehistory_ends (replies : nat → option string) spec run scanner :
  GetHistory spec run = Some scanner →
  ∃ out,
    (∀ fuel, (2 * length scanner < fuel)%nat →
       pagehistory fuel replies spec run = Some out)
    ∧ (prompts out ≤ 2 * length scanner)%nat.
Proof.
  intros Hget. unfold pagehistory. rewrite Hget.
  destruct (PageLoop_ends replies (2 * length scanner) 0 "" scanner)
    as (out & Hout & Hprompts).
  { unfold pages_left. simpl. lia. }
  exists out. split; [done|].
  etrans; [exact Hprompts|]. unfold pages_left. simpl. lia.
Qed.

(** X20: every page [pagehistory] sends is shorter than [histPageSize]
    bytes, line feeds included, unless it is a single line of the history
    (a line that is too long for a page gets a page of its own). *)
Theorem X20_page_is_short_or_one_line (replies : nat → option string) spec run
    scanner :
  GetHistory spec run = Some scanner →
  ∃ out,
    (∀ fuel, (2 * length scanner < fuel)%nat →
       pagehistory fuel replies spec run = Some out)
    ∧ ∀ text, text ∈ pages_sent out →
        len text + 1 < histPageSize ∨ text ∈ scanner.
Proof.
  intros Hget. unfold pagehistory. rewrite Hget.
  destruct (PageLoop_ends replies (2 * length scanner) 0 "" scanner)
    as (out & Hout & _).
  { unfold pages_left. simpl. lia. }
  exists out. split; [done|]. intros text Hin.
  destruct (PageLoop_pages _ _ _ _ _ _ (Hout _ (Nat.lt_succ_diag_r _)) text Hin)
    as [?|[->|?]]; [by left|left; by vm_compute|by right].
Qed.

(** X21: when the user continues after every page, [pagehistory] shows the
    lines of the history in their order, split into pages with one prompt
    between two pages and none after the last; the only lines left out are
    empty ones. *)
Theorem X21_continue_shows_every_line (replies : nat → option string) spec run
    scanner :
  GetHistory spec run = Some scanner →
  (∀ n, continues (replies n)) →
  ∃ pages,
    (∀ fuel, (2 * length scanner < fuel)%nat →
       pagehistory fuel replies spec run = Some (paged pages))
    ∧ filter (fun l => l ≠ "") (concat pages) = filter (fun l => l ≠ "") scanner
    ∧ concat pages `sublist_of` scanner
    ∧ (Forall (fun l => l ≠ "") scanner → concat pages = scanner).
Proof.
  intros Hget Hcont. unfold pagehistory. rewrite Hget.
  destruct (PageLoop_continue replies (2 * length scanner) Hcont 0 "" scanner)
    as (pages & Hout & _ & Hfilter & Hsub).
  { unfold pages_left. simpl. lia. }
  change (carried "" ++ scanner)%list with scanner in *.
  exists pages. split; [done|]. split; [done|]. split; [done|].
  intros Hall.
  assert (Hid : filter (fun l => l ≠ "") scanner = scanner).
  { clear -Hall. induction Hall as [|l ls Hl _ IH]; [done|].
    rewrite filter_cons. destruct (decide (l ≠ "")); [|done]. by rewrite IH. }
  rewrite Hid in Hfilter.
  apply (anti_symm sublist); [done|].
  rewrite <- Hfilter. apply sublist_filter.
Qed.

(** X22: the reply ["n"] skips to the next section.  When the first page
    ends before the line [over], and [marker] is the first line after
    [over] that starts with ["***"], the page sent after the prompt starts
    with [marker]: the line [over] and the lines before [marker] are not
    shown. *)
Theorem X22_skip_lands_on_next_section (replies : nat → option string) spec run
    shown over pre marker post :
  GetHistory spec run = Some (shown ++ over :: pre ++ marker :: post)%list →
  page_size shown < histPageSize →
  histPageSize ≤ page_size shown + (len over + 1) →
  Forall (fun l => ¬ opens_section l) pre →
  opens_section marker →
  replies 0%nat = Some "n" ∨ replies 0%nat = Some "N" →
  ∃ tail text,
    (∀ fuel,
       (2 * length (shown ++ over :: pre ++ marker :: post) < fuel)%nat →
       pagehistory fuel replies spec run
       = Some (FixedSay (strings_Join shown LF) :: pagingPrompt :: tail))
    ∧ head (pages_sent tail) = Some text
    ∧ HasPrefix text marker = true.
Proof.
  intros Hget Hlt Hge Hpre Hmarker Hrep. unfold pagehistory. rewrite Hget.
  assert (Hnp : next_page "" (shown ++ over :: pre ++ marker :: post)
                = (shown, over, false, (pre ++ marker :: post)%list)).
  { rewrite next_page_fill. change (carried "") with (@nil string).
    by rewrite fill_page_fits. }
  assert (Hskip : ∃ rep, replies 0%nat = Some rep
                         ∧ bool_decide (rep = "q" ∨ rep = "Q") = false
                         ∧ bool_decide (rep = "n" ∨ rep = "N") = true).
  { destruct Hrep as [Hr|Hr]; eexists; (split; [exact Hr|done]). }
  destruct Hskip as (rep & Hr & Hq & Hn).
  destruct (PageLoop_ends replies (2 * length post + 1) 1 marker post)
    as (tail & Htail & _).
  { unfold pages_left. destruct (bool_decide (marker = "")); lia. }
  destruct (PageLoop_head _ _ _ _ _ _ (opens_section_nonempty _ Hmarker)
              (Htail _ (Nat.lt_succ_diag_r _))) as (text & Hhead & Hprefix).
  exists tail, text. split; [|done].
  intros [|fuel] Hfuel; [lia|].
  rewrite PageLoop_S, Hnp, Hr, Hq, Hn, next_section_found by done.
  rewrite Htail; [done|]. rewrite !length_app in Hfuel. simpl in Hfuel.
  rewrite length_app in Hfuel. simpl in Hfuel. lia.
Qed.


End PagerTheorems.

(** ** Which jobs a user may see and run *)

Section JobFacts.
Context `{!Glob}.
Variable adminUsers : list string.

(** X24: [jobAvailable] and [jobVisible] agree.  For a task name that is
    configured, [jobAvailable] returns the task when it is a job and the
    context is an automatic task, or when [jobVisible] holds of it for the
    robot of the context, with disabled jobs accepted and the channel
    restriction lifted once a job is initialized; otherwise it returns
    [nil].  The two functions check users and administrators in opposite
    orders. *)
Theorem X24_jobAvailable_agrees_with_jobVisible c taskName t :
  getTaskByName c taskName = Some t →
  (jobAvailable adminUsers c taskName).1
  = if (getTask t).2
       && (automaticTask c
           || jobVisible adminUsers (makeRobot c) t (jobInitialized c) true)
    then Some t else None.
Proof.
  intros Hget. unfold jobAvailable, jobVisible. rewrite Hget.
  destruct (getTask t) as [task job]. rewrite andb_false_r.
  destruct job; simpl; [|done].
  destruct (automaticTask c); simpl; [done|].
  destruct (jobInitialized c); simpl.
  - destruct (task.RequireAdmin task && negb (isAdmin adminUsers (User (makeRobot c))));
      destruct ((0 <? length (task.Users task))%nat
                && negb (userOk (task.Users task) (User (makeRobot c)))); done.
  - destruct (bool_decide (Channel (makeRobot c) = task.Channel task)); simpl; [|done].
    destruct (task.RequireAdmin task && negb (isAdmin adminUsers (User (makeRobot c))));
      destruct ((0 <? length (task.Users task))%nat
                && negb (userOk (task.Users task) (User (makeRobot c)))); done.
Qed.

(** X25: [jobAvailable] tells the user why, once.  When it returns [nil] it
    has said exactly one sentence to the user; when it returns a task, that
    is the job configured under the name, and nothing was sent. *)
Theorem X25_jobAvailable_explains_each_refusal c taskName :
  match (jobAvailable adminUsers c taskName).1 with
  | None => says (jobAvailable adminUsers c taskName).2 = 1%nat
  | Some t =>
      (jobAvailable adminUsers c taskName).2 = []
      ∧ getTaskByName c taskName = Some t
      ∧ (getTask t).2 = true
  end.
Proof.
  unfold jobAvailable.
  destruct (getTaskByName c taskName) as [t|]; [|done].
  destruct (getTask t) as [task job] eqn:Ht.
  destruct job; simpl; [|done].
  destruct (automaticTask c); [cbn [fst snd]; by rewrite Ht|].
  destruct (negb (jobInitialized c)
            && negb (bool_decide (Channel (makeRobot c) = task.Channel task)));
    [done|].
  destruct (task.RequireAdmin task && negb (isAdmin adminUsers (User (makeRobot c))));
    [done|].
  destruct ((0 <? length (task.Users task))%nat
            && negb (userOk (task.Users task) (User (makeRobot c))));
    [done|]. cbn [fst snd]. by rewrite Ht.
Qed.

(** X26: lifting a restriction only adds jobs.  A job visible to a robot
    stays visible when channel restrictions are ignored or disabled jobs are
    accepted; and a visible job that requires an administrator passes
    [CheckAdmin]. *)
Theorem X26_jobVisible_is_monotone r t i d i' d' c :
  jobVisible adminUsers r t i d = true →
  jobVisible adminUsers r t (i || i') (d || d') = true
  ∧ (task.RequireAdmin (getTask t).1 = true →
     CheckAdmin adminUsers c r = true).
Proof.
  unfold jobVisible, CheckAdmin. destruct (getTask t) as [task job]. simpl.
  destruct job; simpl; [|done].
  destruct (task.Disabled task), d; simpl; try done.
  all: destruct i; simpl; try done.
  all: destruct (bool_decide (Channel r = task.Channel task)); simpl; try done.
  all: destruct ((0 <? length (task.Users task))%nat
                 && negb (userOk (task.Users task) (User r))); simpl; try done.
  all: destruct (task.RequireAdmin task); simpl;
    destruct (isAdmin adminUsers (User r)); simpl; try done.
  all: intros _; split; [by destruct i', d'|]; try done.
  all: intros _; by destruct (automaticTask c).
Qed.

End JobFacts.

(** ** Secrets *)

Section SplitFacts.

Lemma strings_Split_nonempty s sep : strings_Split s sep ≠ [].
Proof.
  destruct s as [|a s]; simpl; [done|].
  destruct (Ascii.eqb a sep); [done|]. by destruct (strings_Split s sep).
Qed.

Lemma strings_Split_cons a s sep :
  Ascii.eqb a sep = false →
  ∃ w ws, strings_Split s sep = w :: ws
          ∧ strings_Split (String a s) sep = String a w :: ws.
Proof.
  intros Ha. simpl. rewrite Ha.
  pose proof (strings_Split_nonempty s sep) as Hne.
  destruct (strings_Split s sep) as [|w ws]; [done|]. eauto.
Qed.

(** A string without the separator is not split. *)
Lemma strings_Split_none s sep :
  ContainsRune s sep = false → strings_Split s sep = [s].
Proof.
  unfold ContainsRune. induction s as [|a s IH]; simpl; [done|].
  intros [Ha Hs]%orb_false_elim. rewrite Ascii.eqb_sym in Ha. rewrite Ha.
  by rewrite IH.
Qed.

(** The last part of a split is what follows the last separator. *)
Lemma strings_Split_last s sep t :
  ContainsRune t sep = false →
  strings_Split (s ++ String sep t) sep = (strings_Split s sep ++ [t])%list.
Proof.
  intros Ht. induction s as [|a s IH].
  - change ("" ++ String sep t) with (String sep t). simpl.
    by rewrite Ascii.eqb_refl, strings_Split_none.
  - change (String a s ++ String sep t) with (String a (s ++ String sep t)).
    destruct (Ascii.eqb a sep) eqn:Ha.
    + simpl. by rewrite Ha, IH.
    + destruct (strings_Split_cons a s sep Ha) as (w & ws & Hs & ->).
      simpl. rewrite Ha, IH, Hs. done.
Qed.

(** [strings.Join] puts together what [strings.Split] took apart. *)
Lemma strings_Join_Split s sep :
  strings_Join (strings_Split s sep) (String sep "") = s.
Proof.
  unfold strings_Join. induction s as [|a s IH]; [done|].
  pose proof (strings_Split_nonempty s sep) as Hne.
  destruct (Ascii.eqb a sep) eqn:Ha.
  - apply Ascii.eqb_eq in Ha as ->. simpl. rewrite Ascii.eqb_refl.
    destruct (strings_Split s sep) as [|w ws] eqn:Hs; [done|].
    change (String.concat (String sep "") ("" :: w :: ws))
      with (String sep (String.concat (String sep "") (w :: ws))).
    by rewrite IH.
  - destruct (strings_Split_cons a s sep Ha) as (w & ws & Hs & ->).
    rewrite Hs in IH. destruct ws as [|w' ws].
    + simpl in *. by rewrite IH.
    + change (String.concat (String sep "") (String a w :: w' :: ws))
        with (String a (String.concat (String sep "") (w :: w' :: ws))).
      by rewrite IH.
Qed.

(** The repository of [repo/branch] is [repo]. *)
Lemma repository_of_branch repo branch :
  ContainsRune branch "/" = false →
  repository_of (repo ++ String "/" branch) = repo.
Proof.
  intros Hb. unfold repository_of. rewrite strings_Split_last by done.
  rewrite length_app. simpl.
  replace (length (strings_Split repo "/") + 1 - 1)%nat
    with (length (strings_Split repo "/")) by lia.
  rewrite take_app_length. apply (strings_Join_Split repo "/").
Qed.

End SplitFacts.

Section SecretFacts.
Context {B : Type} `{!SimpleBrain B, !Crypt, !RandSource, !Contexts,
                     !Json brainParams}.
Implicit Types (g : Globals B) (w : World B) (secrets : brainParams).

Lemma GetSecret_retrieves reply r name g secrets :
  ck_initialized (cryptKey g) = true →
  retrieved secrets = false →
  GetSecret reply r name g secrets
  = CheckOutCall
      {| creq_key := secretKey; creq_rw := false; creq_reply := reply |}
      (fun rep =>
         let secrets1 :=
           {| retrieved := true; TaskParams := TaskParams secrets;
              RepositoryParams := RepositoryParams secrets |} in
         let '(_, exists_, ret, datum) :=
           if rep_exists rep then
             match json_Unmarshal (default [] (rep_bytes rep)) with
             | None => (rep_token rep, false, DataFormatError, None)
             | Some v => (rep_token rep, true, rep_retval rep, Some v)
             end
           else (rep_token rep, false, rep_retval rep, None) in
         if negb (bool_decide (ret = Ok)) then ("", secrets1)
         else if negb exists_ then ("", secrets1)
         else
           let secrets2 :=
             match datum with
             | Some v =>
                 {| retrieved := true; TaskParams := TaskParams v;
                    RepositoryParams := RepositoryParams v |}
             | None => secrets1
             end in
           (secret_of (getContext r) (ck_key (cryptKey g)) secrets2 name,
            secrets2)).
Proof.
  intros Hinit Hret. unfold GetSecret. rewrite Hinit, Hret. reflexivity.
Qed.

(** X27: [GetSecret] asks the brain at most once for each context.  Without
    initialized encryption it returns the empty string and leaves
    [c.secrets] alone.  Once [c.secrets.retrieved] is set it answers from
    [c.secrets] without sending a request.  Otherwise it sends one read-only
    checkout of ["bot:secrets"], and whatever the reply, [retrieved] is set
    afterwards. *)
Theorem X27_GetSecret_asks_the_brain_once reply r name g secrets :
  (ck_initialized (cryptKey g) = false →
     GetSecret reply r name g secrets = Return ("", secrets))
  ∧ (ck_initialized (cryptKey g) = true → retrieved secrets = true →
       ∃ value, GetSecret reply r name g secrets = Return (value, secrets))
  ∧ (ck_initialized (cryptKey g) = true → retrieved secrets = false →
       ∃ k, GetSecret reply r name g secrets
            = CheckOutCall {| creq_key := secretKey; creq_rw := false;
                              creq_reply := reply |} k
            ∧ ∀ rep, retrieved (k rep).2 = true).
Proof.
  split; [|split].
  - intros Hinit. unfold GetSecret. by rewrite Hinit.
  - intros Hinit Hret. unfold GetSecret. rewrite Hinit, Hret. eauto.
  - intros Hinit Hret. rewrite GetSecret_retrieves by done.
    eexists. split; [reflexivity|]. intros rep. simpl.
    destruct (rep_exists rep); simpl.
    + destruct (json_Unmarshal (default [] (rep_bytes rep))); simpl; [|done].
      by destruct (bool_decide (rep_retval rep = Ok)).
    + by destruct (bool_decide (rep_retval rep = Ok)).
Qed.

(** X28: the secrets of a repository hold for its branches.  In a pipeline
    whose extended namespace is [repo/branch], a secret that is not stored
    for [repo/branch] but is stored for [repo] is the one [GetSecret]
    returns, decrypted with the key of the brain, whatever the task has
    stored under the same name. *)
Theorem X28_repository_secret_for_a_branch reply r name g secrets
    repo branch m secret value :
  ck_initialized (cryptKey g) = true →
  retrieved secrets = true →
  nsExtension (getContext r) = repo ++ "/" ++ branch →
  ContainsRune branch "/" = false →
  RepositoryParams secrets !! (repo ++ "/" ++ branch) ≫= (.!! name) = None →
  RepositoryParams secrets !! repo = Some m →
  m !! name = Some secret →
  decrypt secret (ck_key (cryptKey g)) = Some value →
  GetSecret reply r name g secrets
  = Return (string_of_list_byte value, secrets).
Proof.
  intros Hinit Hret Hext Hbranch Hnone Hrepo Hname Hdec.
  unfold GetSecret. rewrite Hinit, Hret. simpl. f_equal. f_equal.
  unfold secret_of. rewrite Hext, Hnone.
  change (repo ++ "/" ++ branch) with (repo ++ String "/" branch).
  rewrite repository_of_branch by done. rewrite Hrepo. simpl. rewrite Hname.
  assert (Hlen : (0 <? String.length (repo ++ String "/" branch))%nat = true).
  { apply Nat.ltb_lt. clear. induction repo as [|a repo IH].
    - change ("" ++ String "/" branch) with (String "/" branch). simpl. lia.
    - change (String a repo ++ String "/" branch)
        with (String a (repo ++ String "/" branch)). simpl. lia. }
  by rewrite Hlen, Hdec.
Qed.

(** X29: [GetSecret] returns only secrets of its own namespaces.  A result
    that is not empty is the decryption, under the key of the brain, of a
    secret stored under the name asked for, either for the namespace of the
    task, or, in a pipeline with an extended namespace, for that namespace
    or its repository. *)
Theorem X29_GetSecret_returns_own_secrets reply r name g secrets result :
  ck_initialized (cryptKey g) = true →
  retrieved secrets = true →
  GetSecret reply r name g secrets = Return (result, secrets) →
  result ≠ "" →
  let c := getContext r in
  ∃ m secret value,
    (TaskParams secrets !! NameSpace (currentTask c) = Some m
     ∨ nsExtension c ≠ ""
       ∧ (RepositoryParams secrets !! nsExtension c = Some m
          ∨ RepositoryParams secrets !! repository_of (nsExtension c) = Some m))
    ∧ m !! name = Some secret
    ∧ decrypt secret (ck_key (cryptKey g)) = Some value
    ∧ result = string_of_list_byte value.
Proof.
  intros Hinit Hret Hget Hne c. revert Hget.
  unfold GetSecret. rewrite Hinit, Hret. simpl. intros [= <-].
  fold c in Hne |- *. unfold secret_of in Hne |- *.
  assert (Hext : (0 <? String.length (nsExtension c))%nat = true →
                 nsExtension c ≠ "").
  { intros Hl Heq. rewrite Heq in Hl. done. }
  match type of Hne with
  | context [match ?found with Some _ => _ | None => "" end] =>
      destruct found as [secret|] eqn:Hfound; [|done]
  end.
  destruct (decrypt secret (ck_key (cryptKey g))) as [value|] eqn:Hdec; [|done].
  assert (Hwhere :
            TaskParams secrets !! NameSpace (currentTask c) ≫= (.!! name)
            = Some secret
            ∨ nsExtension c ≠ ""
              ∧ (RepositoryParams secrets !! nsExtension c ≫= (.!! name)
                 = Some secret
                 ∨ RepositoryParams secrets !! repository_of (nsExtension c)
                     ≫= (.!! name) = Some secret)).
  { revert Hfound. destruct (0 <? String.length (nsExtension c))%nat; [|by left].
    destruct (RepositoryParams secrets !! nsExtension c ≫= (.!! name))
      as [s1|] eqn:Hs1; [intros [= ->]; right; auto|].
    destruct (RepositoryParams secrets !! repository_of (nsExtension c)
                ≫= (.!! name)) as [s2|] eqn:Hs2; [intros [= ->]; right; auto|].
    by left. }
  destruct Hwhere as [Ht|[Hne' [Hr|Hr]]];
    apply bind_Some in Ht || apply bind_Some in Hr.
  - destruct Ht as (m & Hm & Hs). exists m, secret, value. auto.
  - destruct Hr as (m & Hm & Hs). exists m, secret, value. auto 6.
  - destruct Hr as (m & Hm & Hs). exists m, secret, value. auto 6.
Qed.

(** A read-only checkout is answered in the same turn and leaves the lock
    table as it is. *)
Lemma readonly_step w (creq : checkOutRequest) :
  stopped w = false →
  creq_rw creq = false →
  runBrain_step w (brainChanEvent (checkOutBytes creq))
  = send (creq_reply creq)
      (checkOutMsg (getDatum (creq_key creq) false (globals w)).1)
      (set_globals (getDatum (creq_key creq) false (globals w)).2 w).
Proof.
  intros Hrun Hrw. unfold runBrain_step. rewrite Hrun. unfold do_checkOut.
  rewrite Hrw, fetch_eq.
  destruct (memories w !! creq_key creq) as [ms|]; simpl; [done|].
  by destruct (bool_decide (rep_retval _ = Ok)).
Qed.

(** X30: the first [GetSecret] of a context, against the running loop.
    With encryption initialized and the secrets stored under
    ["bot:secrets"], sealed with the key of the brain, the call returns the
    secret looked up in what was stored and keeps the secrets in the
    context; the provider was asked for ["bot:secrets"] once, and the lock
    table is as it was: reading secrets takes no lock. *)
Theorem X30_GetSecret_reads_without_locking w reply r name secrets
    b sealed b1 plain v :
  stopped w = false →
  encryptBrain (globals w) = true →
  ck_initialized (cryptKey (globals w)) = true →
  ck_initializing (cryptKey (globals w)) = false →
  retrieved secrets = false →
  brain (globals w) = Some b →
  Retrieve secretKey b = ((sealed, true, None), b1) →
  decrypt sealed (ck_key (cryptKey (globals w))) = Some plain →
  json_Unmarshal plain = Some v →
  let secrets' :=
    {| retrieved := true; TaskParams := TaskParams v;
       RepositoryParams := RepositoryParams v |} in
  let w' := (run_api (GetSecret reply r name (globals w) secrets) w).1 in
  (run_api (GetSecret reply r name (globals w) secrets) w).2
  = Some (secret_of (getContext r) (ck_key (cryptKey (globals w))) secrets' name,
          secrets')
  ∧ memories w' = memories w
  ∧ brain_calls (globals w')
    = (brain_calls (globals w) ++ [RetrieveCall secretKey])%list.
Proof.
  intros Hrun Henc Hinit Hing Hret Hb Hstore Hdec Hjson secrets' w'.
  assert (Hget : getDatum secretKey false (globals w)
                 = (mkReply "" (Some plain) true Ok,
                    set_brain b1 (RetrieveCall secretKey) (globals w))).
  { unfold getDatum. change (keyRe_MatchString secretKey) with true. simpl.
    rewrite Hb, Hstore. simpl. by rewrite Henc, Hing, Hinit, Hdec. }
  unfold w'. rewrite GetSecret_retrieves by done. unfold run_api.
  rewrite readonly_step by done. cbn [creq_key creq_reply]. rewrite Hget.
  cbn [fst snd]. rewrite received_send by done.
  split; [|split; [done|done]].
  simpl. by rewrite Hjson.
Qed.

End SecretFacts.

(** * The theorems at sample inputs *)

Section Samples.
#[local] Existing Instance mapBrain.
#[local] Existing Instance tagCrypt.
#[local] Existing Instance countingRand.
#[local] Existing Instance bytesJson.
#[local] Existing Instance twoContexts.

Lemma heldWorld_record : memories heldWorld !! "foo" = Some heldRecord.
Proof. vm_compute. reflexivity. Qed.

Lemma queuedWorld_record : memories queuedWorld !! "foo" = Some queuedRecord.
Proof. vm_compute. reflexivity. Qed.

(** C1 at the world where the caller on channel 1 holds the lock on
    ["foo"]: one delivery carries the token, and the caller on channel 2 is
    answered after two ticks. *)
Lemma C1_mutual_exclusion_witness :
  NoDup (minted 0 1)
  ∧ memories heldWorld !! "foo" = Some heldRecord
  ∧ (∀ i j e1 e2,
       delivered heldWorld !! i = Some e1 → delivered heldWorld !! j = Some e2 →
       reply_token e1 = firstToken → reply_token e2 = firstToken → i = j)
  ∧ served_since (delivered heldWorld)
      (delivered (runBrain_from heldWorld [rwRequest "foo" 2; tick; tick]))
      (waiterOn 2).
Proof.
  assert (Hnd : NoDup (minted 0 1)) by (vm_compute; apply NoDup_singleton).
  assert (Hrun : NoDup (minted (rand_reads sampleGlobals)
                          (rand_reads (globals (runBrain sampleGlobals
                                                  [rwRequest "foo" 1])))))
    by (vm_compute; apply NoDup_singleton).
  destruct (C1_exclusive_checkouts_are_mutually_exclusive
              sampleGlobals [rwRequest "foo" 1] "foo" heldRecord
              Hrun heldWorld_record) as [Hone Hwait].
  split; [exact Hnd|]. split; [exact heldWorld_record|]. split.
  - apply Hone. vm_compute. discriminate.
  - destruct Hwait as (_ & _ & Hserved); [reflexivity|vm_compute; discriminate|].
    apply (Hserved 2%nat [tick; tick]); [reflexivity|reflexivity|vm_compute; lia].
Defined.

(** C2 at the same world, for an Update with a token that is not the
    holder's. *)
Lemma C2_update_stale_witness :
  stopped heldWorld = false
  ∧ delivered (runBrain_step heldWorld (brainChanEvent (updateBytes staleUpdate)))
    = (delivered heldWorld ++ [(7%nat, retValMsg DatumLockExpired)])%list
  ∧ globals (runBrain_step heldWorld (brainChanEvent (updateBytes staleUpdate)))
    = globals heldWorld
  ∧ memories (runBrain_step heldWorld (brainChanEvent (updateBytes staleUpdate)))
    = memories heldWorld.
Proof.
  destruct (C2_update_stale_token heldWorld staleUpdate heldRecord
              eq_refl heldWorld_record ltac:(vm_compute; discriminate))
    as (_ & Hd & Hg & _ & Hm & _).
  split; [reflexivity|]. split; [exact Hd|]. split; [exact Hg|exact Hm].
Defined.

(** C3 at the same world, for a CheckIn with a token that is not the
    holder's. *)
Lemma C3_checkin_mismatch_witness :
  runBrain_step heldWorld
    (brainChanEvent (checkInBytes {| ci_key := "foo"; ci_token := "stale" |}))
  = heldWorld.
Proof.
  refine (proj1 (C3_checkin_mismatch_is_noop heldWorld
                   {| ci_key := "foo"; ci_token := "stale" |} _)).
  right. exists heldRecord. split; [exact heldWorld_record|].
  vm_compute. discriminate.
Defined.

(** C4 at the world where the callers on channels 2 and 3 wait: the CheckIn
    of the holder serves the caller on channel 2 and leaves the caller on
    channel 3 in the queue. *)
Lemma C4_release_witness :
  stopped queuedWorld = false
  ∧ memories queuedWorld !! "foo" = Some queuedRecord
  ∧ memories (runBrain_step queuedWorld
                (brainChanEvent
                   (checkInBytes {| ci_key := "foo"; ci_token := firstToken |})))
      !! "foo"
    = Some {| state := newMemory; token := "0000000000000001";
              waiters := [waiterOn 3] |}
  ∧ delivered (runBrain_step queuedWorld
                 (brainChanEvent
                    (checkInBytes {| ci_key := "foo"; ci_token := firstToken |})))
    = (delivered queuedWorld
       ++ [(2%nat, checkOutMsg {| rep_token := "0000000000000001"; rep_bytes := None;
                                  rep_exists := false; rep_retval := Ok |})])%list.
Proof.
  destruct (C4_release_serves_waiters_in_order queuedWorld "foo" queuedRecord
              eq_refl queuedWorld_record) as (Hserve & _).
  destruct (Hserve (waiterOn 2) [waiterOn 3] eq_refl) as (_ & Hrec & Hdel & _).
  split; [reflexivity|]. split; [exact queuedWorld_record|]. split.
  - etrans; [exact Hrec|]. vm_compute. reflexivity.
  - etrans; [exact Hdel|]. vm_compute. reflexivity.
Defined.

(** C5 at the world where the lock was just taken: a tick leaves the record in
    state [seen]. *)
Lemma C5_tick_witness :
  stopped heldWorld = false
  ∧ memories heldWorld !! "foo" = Some heldRecord
  ∧ memories (runBrain_step heldWorld tick) !! "foo"
    = Some {| state := seen; token := firstToken; waiters := [] |}.
Proof.
  destruct (C5_tick_ages_every_record heldWorld "foo" heldRecord 0 [] []
              eq_refl heldWorld_record) as (Hnew & _).
  split; [reflexivity|]. split; [exact heldWorld_record|]. exact (Hnew eq_refl).
Defined.

(** C6 at the same world: a read-only checkout of the locked key. *)
Lemma C6_readonly_witness :
  stopped heldWorld = false
  ∧ memories (runBrain_step heldWorld
                (brainChanEvent
                   (checkOutBytes {| creq_key := "foo"; creq_rw := false;
                                     creq_reply := 9%nat |})))
    = memories heldWorld
  ∧ (run_api (CheckOutCall {| creq_key := "foo"; creq_rw := false; creq_reply := 9%nat |}
                (fun r => r)) heldWorld).2
    = Some {| rep_token := ""; rep_bytes := None; rep_exists := false;
              rep_retval := Ok |}.
Proof.
  destruct (C6_readonly_checkout_bypasses_locks heldWorld
              {| creq_key := "foo"; creq_rw := false; creq_reply := 9%nat |}
              eq_refl eq_refl) as (_ & Hm & _ & _ & _ & _ & Hrun).
  split; [reflexivity|]. split; [exact Hm|].
  etrans; [exact Hrun|]. vm_compute. reflexivity.
Defined.

(** C7 for the keys ["a:b"] and ["ab"] of a task in the namespace ["build"]
    with the extension ["repo"]. *)
Lemma C7_separator_witness :
  ContainsRune "a:b" ":" = true
  ∧ rejected_with update_code InvalidDatumKey
      (UpdateDatum 5%nat alice "a:b" firstToken [x01%byte])
  ∧ CheckinDatum alice "a:b" firstToken = Return tt
  ∧ ContainsRune "ab" ":" = false
  ∧ request_of (CheckoutDatum (D := list byte) 5%nat alice "ab" true)
    = Some (checkOutBytes {| creq_key := "build:repo:ab"; creq_rw := true;
                             creq_reply := 5%nat |}).
Proof.
  destruct (C7_separator_rejected_before_coordinator
              5%nat alice "a:b" firstToken [x01%byte] true) as (Hbad & _ & _).
  destruct (C7_separator_rejected_before_coordinator
              5%nat alice "ab" firstToken [x01%byte] true) as (_ & Hgood & _).
  destruct (Hbad eq_refl) as (_ & Hupd & Hcin & _).
  destruct (Hgood eq_refl) as (Hout & _).
  split; [reflexivity|]. split; [exact Hupd|]. split; [exact Hcin|].
  split; [reflexivity|exact Hout].
Defined.

(** C8 for a memory written at time 0 and ticks one minute and eight minutes
    later. *)
Lemma C8_short_term_witness :
  stopped rememberedWorld = false
  ∧ Recall alice "it" rememberedWorld = "web1"
  ∧ Recall alice "it"
      (runBrain_step rememberedWorld (processMemories 60000000000 [] [])) = "web1"
  ∧ Recall alice "it"
      (runBrain_step rememberedWorld (processMemories 480000000000 [] [])) = "".
Proof.
  destruct (C8_short_term_memories rememberedWorld alice "it" "web1" 0)
    as (_ & _ & _ & _ & Hrec & Htick).
  destruct (Htick 60000000000 [] [] eq_refl) as (_ & _ & _ & _ & Hyoung).
  destruct (Htick 480000000000 [] [] eq_refl) as (_ & _ & _ & Hold & _).
  split; [reflexivity|].
  split; [exact (Hrec {| memory := "web1"; timestamp := 0 |} eq_refl)|].
  split.
  - apply (Hyoung {| memory := "web1"; timestamp := 0 |} eq_refl). vm_compute. discriminate.
  - apply (Hold {| memory := "web1"; timestamp := 0 |} eq_refl). vm_compute. reflexivity.
Defined.

(** C9 for a blob stored before encryption was switched on. *)
Lemma C9_plaintext_witness :
  decrypt [x41%byte] (ck_key (cryptKey legacyGlobals)) = None
  ∧ rep_retval (getDatum "ping:old" false legacyGlobals).1 = Ok
  ∧ rep_bytes (getDatum "ping:old" false legacyGlobals).1 = Some [x41%byte]
  ∧ brain_calls (getDatum "ping:old" false legacyGlobals).2
    = [RetrieveCall "ping:old"; StoreCall "ping:old" [xee%byte; x41%byte]].
Proof.
  assert (Hret : Retrieve "ping:old" legacyStore
                 = (([x41%byte], true, None), legacyStore))
    by (vm_compute; reflexivity).
  assert (Hdec : decrypt [x41%byte] (ck_key (cryptKey legacyGlobals)) = None)
    by reflexivity.
  destruct (C9_undecryptable_blob_read_as_plaintext legacyGlobals "ping:old" false
              legacyStore [x41%byte] legacyStore
              eq_refl eq_refl Hret eq_refl eq_refl eq_refl Hdec)
    as (Hok & _ & Hbytes & _ & Hseal & _).
  split; [exact Hdec|]. split; [exact Hok|]. split; [exact Hbytes|].
  assert (Henc : encrypt [x41%byte] (ck_key (cryptKey legacyGlobals))
                 = Some [xee%byte; x41%byte]) by reflexivity.
  exact (proj1 (Hseal [xee%byte; x41%byte] Henc)).
Defined.

(** C7 as stated fails for [CheckinDatum]: for a key with the separator it
    returns, what it returns carries no result code, and it is what the
    method returns for a well-formed key and the empty token. *)
Lemma C7_checkin_reports_no_error :
  ContainsRune "a:b" ":" = true
  ∧ ¬ rejected_with checkin_code InvalidDatumKey (CheckinDatum alice "a:b" firstToken)
  ∧ CheckinDatum alice "a:b" firstToken = CheckinDatum alice "ab" "".
Proof.
  split; [reflexivity|]. split; [|reflexivity]. vm_compute. discriminate.
Qed.

End Samples.

(** * The further properties at sample inputs *)

Section MoreSamples.
#[local] Existing Instance mapBrain.
#[local] Existing Instance tagCrypt.
#[local] Existing Instance countingRand.
#[local] Existing Instance bytesJson.
#[local] Existing Instance twoContexts.
#[local] Existing Instance steadyMemguard.
#[local] Existing Instance sampleHistory.
#[local] Existing Instance plainGlob.

Lemma expiredWorld_record : memories expiredWorld !! "foo" = Some expiredRecord.
Proof. vm_compute. reflexivity. Qed.

Lemma queuedWorld_lookup : memories queuedWorld !! "foo" = Some queuedRecord.
Proof. vm_compute. reflexivity. Qed.

Lemma heldWorld_lookup : memories heldWorld !! "foo" = Some heldRecord.
Proof. vm_compute. reflexivity. Qed.

(** X1 for the lock that has expired after two ticks. *)
Lemma X1_available_witness :
  memories expiredWorld !! "foo" = Some expiredRecord
  ∧ state expiredRecord = available
  ∧ waiters expiredRecord = [].
Proof.
  split; [exact expiredWorld_record|]. split; [reflexivity|].
  exact (X1_available_record_has_no_waiters sampleGlobals
           [rwRequest "foo" 1; tick; tick] "foo" expiredRecord
           expiredWorld_record eq_refl).
Defined.

(** X2 for the two callers queued behind the holder of ["foo"]. *)
Lemma X2_waiters_witness :
  memories queuedWorld !! "foo" = Some queuedRecord
  ∧ ∀ creq, creq ∈ waiters queuedRecord → creq_key creq = "foo" ∧ creq_rw creq = true.
Proof.
  split; [exact queuedWorld_lookup|].
  exact (proj1 (X2_waiters_asked_for_the_record_key sampleGlobals
                  [rwRequest "foo" 1; rwRequest "foo" 2; rwRequest "foo" 3]
                  "foo" queuedRecord queuedWorld_lookup)).
Defined.

(** X3 for the holder of ["foo"]. *)
Lemma X3_one_holder_witness :
  memories heldWorld !! "foo" = Some heldRecord
  ∧ ∃ i c rep,
      delivered heldWorld !! i = Some (c, checkOutMsg rep)
      ∧ rep_token rep = firstToken
      ∧ ∀ j e, delivered heldWorld !! j = Some e →
               reply_token e = firstToken → j = i.
Proof.
  split; [exact heldWorld_lookup|].
  assert (Hrun : NoDup (minted (rand_reads sampleGlobals)
                          (rand_reads (globals (runBrain sampleGlobals
                                                  [rwRequest "foo" 1])))))
    by (vm_compute; apply NoDup_singleton).
  apply (X3_record_token_has_one_holder sampleGlobals [rwRequest "foo" 1]
           "foo" heldRecord Hrun heldWorld_lookup).
  vm_compute. discriminate.
Defined.

(** X5 for the first checkout of ["foo"]. *)
Lemma X5_unlocked_witness :
  stopped freshWorld = false
  ∧ memories freshWorld !! "foo" = None
  ∧ memories (runBrain_step freshWorld (rwRequest "foo" 1))
    = <[ "foo" := heldRecord ]> (memories freshWorld).
Proof.
  assert (Hnone : memories freshWorld !! creq_key (waiterOn 1) = None)
    by (vm_compute; reflexivity).
  destruct (X5_checkout_of_unlocked_key freshWorld (waiterOn 1) eq_refl Hnone eq_refl)
    as (_ & _ & Hok & _).
  split; [reflexivity|]. split; [exact Hnone|].
  assert (Hret : rep_retval (getDatum (creq_key (waiterOn 1)) true
                               (globals freshWorld)).1 = Ok)
    by (vm_compute; reflexivity).
  etrans; [exact (proj1 (Hok Hret))|]. vm_compute. reflexivity.
Defined.


(** X7 for the holder of ["foo"] who checks in and then updates. *)
Lemma X7_double_release_witness :
  stopped heldWorld = false
  ∧ memories heldWorld !! "foo" = Some heldRecord
  ∧ delivered
      (runBrain_from heldWorld
         [brainChanEvent (checkInBytes {| ci_key := "foo"; ci_token := firstToken |});
          brainChanEvent (updateBytes {| ur_key := "foo"; ur_token := firstToken;
                                         ur_datum := [x01%byte]; ur_reply := 7%nat |})])
    = (delivered heldWorld ++ [(7%nat, retValMsg DatumNotFound)])%list.
Proof.
  split; [reflexivity|]. split; [exact heldWorld_lookup|].
  exact (proj1 (proj2 (X7_update_after_release_is_not_found heldWorld "foo" heldRecord
                         [x01%byte] 7%nat eq_refl heldWorld_lookup eq_refl))).
Defined.

(** X8 for the second caller queued behind the holder of ["foo"]. *)
Lemma X8_bounded_waiting_witness :
  stopped queuedWorld = false
  ∧ memories queuedWorld !! "foo" = Some queuedRecord
  ∧ waiters queuedRecord !! 1%nat = Some (waiterOn 3)
  ∧ served_since (delivered queuedWorld)
      (delivered (runBrain_from queuedWorld [tick; tick; tick; tick])) (waiterOn 3).
Proof.
  split; [reflexivity|]. split; [exact queuedWorld_lookup|]. split; [reflexivity|].
  apply (X8_waiter_served_within_its_turn queuedWorld [tick; tick; tick; tick]
           "foo" queuedRecord 1%nat (waiterOn 3) eq_refl eq_refl queuedWorld_lookup).
  - vm_compute. discriminate.
  - reflexivity.
  - vm_compute. lia.
Defined.

(** X9 for a [quit] sent while ["foo"] is locked. *)
Lemma X9_quit_witness :
  stopped heldWorld = false
  ∧ runBrain_from heldWorld
      [brainChanEvent (quit {| qr_reply := 9%nat |}); rwRequest "foo" 2; tick]
    = runBrain_step heldWorld (brainChanEvent (quit {| qr_reply := 9%nat |})).
Proof.
  split; [reflexivity|].
  exact (proj2 (proj2 (X9_quit_stops_the_loop heldWorld {| qr_reply := 9%nat |}
                         [rwRequest "foo" 2; tick] eq_refl))).
Defined.

Lemma mapBrain_lawful : lawful_brain (B := gmap string (list byte)).
Proof.
  split.
  - intros k b. simpl. by destruct (b !! k).
  - intros k blob b _. simpl. by rewrite lookup_insert_eq.
Qed.

Lemma tagCrypt_lawful key : lawful_crypt key.
Proof. intros d sealed Hs. simpl in *. by simplify_eq. Qed.

(** X11 for a datum stored and fetched with encryption initialized. *)
Lemma X11_round_trip_witness :
  (storeDatum "ping:new" [x41%byte] (sealedGlobals (Some ∅))).1 = Ok
  ∧ rep_bytes (getDatum "ping:new" false
                 (storeDatum "ping:new" [x41%byte] (sealedGlobals (Some ∅))).2).1
    = Some [x41%byte].
Proof.
  assert (Hok : (storeDatum "ping:new" [x41%byte]
                   (sealedGlobals (Some (∅ : gmap string (list byte))))).1 = Ok)
    by (vm_compute; reflexivity).
  split; [exact Hok|].
  destruct (X11_fetch_returns_what_was_stored
              (sealedGlobals (Some (∅ : gmap string (list byte))))
              "ping:new" [x41%byte] false mapBrain_lawful (tagCrypt_lawful _)
              eq_refl ltac:(simpl; discriminate) Hok) as (_ & _ & Hbytes & _).
  exact Hbytes.
Defined.

(** X12 for the datum held by the store while encryption is not
    initialized. *)
Lemma X12_blocked_witness :
  storeDatum "ping:old" [x42%byte] lockedGlobals = (BrainFailed, lockedGlobals)
  ∧ rep_retval (getDatum "ping:old" true lockedGlobals).1 = BrainFailed.
Proof.
  assert (Hret : Retrieve "ping:old" legacyStore
                 = (([x41%byte], true, None), legacyStore))
    by (vm_compute; reflexivity).
  destruct (X12_uninitialized_encryption_blocks_data lockedGlobals "ping:old"
              [x42%byte] true legacyStore [x41%byte] true legacyStore
              eq_refl eq_refl (or_introl eq_refl) eq_refl eq_refl Hret)
    as (Hstore & Hget & _).
  split; [exact Hstore|]. by rewrite (Hget eq_refl).
Defined.

(** X13 for a stored blob that does not start with a brace. *)
Lemma X13_unmarshal_witness :
  (run_api (checkoutDatum (Json0 := braceJson) 4%nat "ping:old" true) legacyWorld).2
  = Some (firstToken, false, DataFormatError, None)
  ∧ memories (run_api (checkoutDatum (Json0 := braceJson) 4%nat "ping:old" true)
                legacyWorld).1 !! "ping:old"
    = Some {| state := newMemory; token := firstToken; waiters := [] |}.
Proof.
  assert (Hnone : memories legacyWorld !! "ping:old" = None)
    by (vm_compute; reflexivity).
  assert (Hex : rep_exists (getDatum "ping:old" true (globals legacyWorld)).1 = true)
    by (vm_compute; reflexivity).
  assert (Hjson : json_Unmarshal (Json := braceJson)
                    (default [] (rep_bytes (getDatum "ping:old" true
                                              (globals legacyWorld)).1)) = None)
    by (vm_compute; reflexivity).
  destruct (X13_unmarshal_failure_still_locks (Json0 := braceJson) legacyWorld
              "ping:old" 4%nat eq_refl Hnone eq_refl Hex Hjson) as (Hres & _ & Hrec).
  split.
  - etrans; [exact Hres|]. vm_compute. reflexivity.
  - etrans; [exact Hrec|]. vm_compute. reflexivity.
Defined.

(** X14 for a datum of the task in the namespace ["build"] with the extension
    ["repo"]. *)
Lemma X14_api_round_trip_witness :
  memories freshWorld !! namespaced alice "ab" = None
  ∧ (run_api (CheckoutDatum (D := list byte) 3%nat alice "ab" false)
       (run_api (UpdateDatum 2%nat alice "ab" firstToken [x41%byte])
          (run_api (CheckoutDatum (D := list byte) 1%nat alice "ab" true)
             freshWorld).1).1).2
    = Some ("", true, Ok, Some [x41%byte]).
Proof.
  assert (Hnone : memories freshWorld !! namespaced alice "ab" = None)
    by (vm_compute; reflexivity).
  assert (Hok : rep_retval (getDatum (namespaced alice "ab") true
                              (globals freshWorld)).1 = Ok)
    by (vm_compute; reflexivity).
  assert (Hstore : (storeDatum (namespaced alice "ab") [x41%byte]
                      (getDatum (namespaced alice "ab") true
                         (globals freshWorld)).2).1 = Ok)
    by (vm_compute; reflexivity).
  split; [exact Hnone|].
  assert (Htok : rep_token (getDatum (namespaced alice "ab") true
                              (globals freshWorld)).1 = firstToken)
    by (vm_compute; reflexivity).
  destruct (X14_update_then_checkout_returns_the_value (Json0 := bytesJson)
              freshWorld alice "ab"
              [x41%byte] [x41%byte] 1%nat 2%nat 3%nat
              mapBrain_lawful (tagCrypt_lawful _) eq_refl eq_refl eq_refl Hnone
              eq_refl eq_refl Hok Hstore) as (_ & _ & _ & _ & Hback).
  rewrite Htok in Hback. exact Hback.
Defined.

(** X15 for a short key, for a call during an initialization and for a call
    once encryption is initialized. *)
Lemma X15_refusals_witness :
  initializeEncryption shortKey bootGlobals = (false, bootGlobals)
  ∧ initializeEncryption longKey bootingGlobals = (true, bootingGlobals)
  ∧ initializeEncryption longKey (sealedGlobals (Some ∅))
    = (false, sealedGlobals (Some ∅)).
Proof.
  assert (Hshort : (length (list_byte_of_string shortKey) < 32)%nat)
    by (vm_compute; lia).
  assert (Hlong : (32 ≤ length (list_byte_of_string longKey))%nat)
    by (vm_compute; lia).
  split; [|split].
  - exact (proj1 (@X15_initializeEncryption_refusals _ mapBrain tagCrypt countingRand steadyMemguard shortKey bootGlobals) Hshort).
  - exact (proj1 (proj2 (@X15_initializeEncryption_refusals _ mapBrain tagCrypt countingRand steadyMemguard longKey bootingGlobals))
             Hlong eq_refl).
  - exact (proj2 (proj2 (@X15_initializeEncryption_refusals _ mapBrain tagCrypt countingRand steadyMemguard longKey
                           (sealedGlobals (Some (∅ : gmap string (list byte))))))
             Hlong eq_refl eq_refl).
Defined.

(** X16 for the long key over the empty store. *)
Lemma X16_first_bootstrap_witness :
  (initializeEncryption longKey bootGlobals).1 = true
  ∧ ck_key (cryptKey (initializeEncryption longKey bootGlobals).2)
    = rand_Read 1 32
  ∧ brain_calls (initializeEncryption longKey bootGlobals).2
    = [RetrieveCall botEncryptionKey;
       StoreCall botEncryptionKey (xee%byte :: rand_Read 1 32)].
Proof.
  assert (Hlong : (32 ≤ length (list_byte_of_string longKey))%nat)
    by (vm_compute; lia).
  assert (Hret : Retrieve botEncryptionKey (∅ : gmap string (list byte))
                 = (([], false, None), ∅))
    by (vm_compute; reflexivity).
  destruct (@X16_first_bootstrap_generates_and_wraps _ mapBrain tagCrypt countingRand steadyMemguard
              longKey bootGlobals
              ∅ [] ∅ (xee%byte :: rand_Read 1 32)
              (<[botEncryptionKey := (xee%byte :: rand_Read 1 32)]> ∅)
              Hlong eq_refl eq_refl eq_refl eq_refl eq_refl eq_refl Hret
              eq_refl eq_refl) as (Hok & Hck & _ & _ & Hcalls).
  split; [exact Hok|]. split; [by rewrite Hck|exact Hcalls].
Defined.

(** X17 for a first bootstrap with one long key and a restart with the
    other. *)
Lemma X17_restart_witness :
  (initializeEncryption longKey bootGlobals).1 = true
  ∧ (initializeEncryption longKey'
       (restarted (initializeEncryption longKey bootGlobals).2)).1 = true
  ∧ cryptKey (initializeEncryption longKey'
                (restarted (initializeEncryption longKey bootGlobals).2)).2
    = cryptKey (initializeEncryption longKey bootGlobals).2.
Proof.
  assert (Hfirst : (initializeEncryption longKey bootGlobals).1 = true)
    by (vm_compute; reflexivity).
  assert (Hfresh : rep_exists (getDatum botEncryptionKey true
                                 (unlocking longKey bootGlobals)).1 = false)
    by (vm_compute; reflexivity).
  assert (Hlong : (32 ≤ length (list_byte_of_string longKey'))%nat)
    by (vm_compute; lia).
  assert (Htake : take 32 (list_byte_of_string longKey')
                  = take 32 (list_byte_of_string longKey))
    by (vm_compute; reflexivity).
  destruct (@X17_same_key_unlocks_after_restart _ mapBrain tagCrypt countingRand steadyMemguard
              longKey longKey' bootGlobals
              mapBrain_lawful (tagCrypt_lawful _) (fun _ => eq_refl)
              eq_refl eq_refl eq_refl Hfresh Hfirst Hlong Htake)
    as (Hok & Hck & _).
  split; [exact Hfirst|]. split; [exact Hok|exact Hck].
Defined.

(** X18 for the store whose encryption key [tagCrypt] cannot open. *)
Lemma X18_wrong_key_witness :
  (initializeEncryption longKey foreignGlobals).1 = false
  ∧ ck_initialized (cryptKey (initializeEncryption longKey foreignGlobals).2) = false
  ∧ (storeDatum "ping:new" [x42%byte]
       (initializeEncryption longKey foreignGlobals).2).1 = BrainFailed.
Proof.
  assert (Hlong : (32 ≤ length (list_byte_of_string longKey))%nat)
    by (vm_compute; lia).
  assert (Hret : Retrieve botEncryptionKey
                   ({[botEncryptionKey := [x41%byte]]} : gmap string (list byte))
                 = (([x41%byte], true, None), {[botEncryptionKey := [x41%byte]]}))
    by (vm_compute; reflexivity).
  destruct (@X18_wrong_key_leaves_encryption_locked _ mapBrain tagCrypt countingRand steadyMemguard
              longKey foreignGlobals
              {[botEncryptionKey := [x41%byte]]} [x41%byte]
              {[botEncryptionKey := [x41%byte]]}
              Hlong eq_refl eq_refl eq_refl eq_refl eq_refl Hret eq_refl)
    as (Hno & Hed & _ & _ & Hblocked).
  split; [exact Hno|]. split; [exact Hed|]. by rewrite Hblocked.
Defined.

(** X19 for the history with two sections and a user who skips once. *)
Lemma X19_pager_ends_witness :
  ∃ out,
    (∀ fuel, (2 * length buildLog < fuel)%nat →
       pagehistory fuel skipOnce "build" 1 = Some out)
    ∧ (prompts out ≤ 2 * length buildLog)%nat.
Proof.
  exact (@X19_pagehistory_ends sampleHistory skipOnce "build" 1 buildLog eq_refl).
Defined.

(** X20 for the same history and user. *)
Lemma X20_page_size_witness :
  ∃ out,
    (∀ fuel, (2 * length buildLog < fuel)%nat →
       pagehistory fuel skipOnce "build" 1 = Some out)
    ∧ ∀ text, text ∈ pages_sent out →
        len text + 1 < histPageSize ∨ text ∈ buildLog.
Proof.
  exact (@X20_page_is_short_or_one_line sampleHistory skipOnce "build" 1
           buildLog eq_refl).
Defined.

(** X21 for the same history and a user who always continues. *)
Lemma X21_continue_witness :
  ∃ pages,
    (∀ fuel, (2 * length buildLog < fuel)%nat →
       pagehistory fuel alwaysContinue "build" 1 = Some (paged pages))
    ∧ concat pages = buildLog.
Proof.
  assert (Hcont : ∀ n, continues (alwaysContinue n)).
  { intros n. exists "c". repeat split; discriminate. }
  assert (Hall : Forall (fun l => l ≠ "") buildLog).
  { repeat constructor; discriminate. }
  destruct (@X21_continue_shows_every_line sampleHistory alwaysContinue "build" 1
              buildLog eq_refl Hcont) as (pages & Hout & _ & _ & Hlines).
  exists pages. split; [exact Hout|exact (Hlines Hall)].
Defined.

(** X22 for the history with two sections: the page after the skip starts
    with the heading of the second one. *)
Lemma X22_skip_witness :
  ∃ tail text,
    (∀ fuel, (2 * length buildLog < fuel)%nat →
       pagehistory fuel skipOnce "build" 1
       = Some (FixedSay (strings_Join ["*** compile"; wideLine; wideLine] LF)
                 :: pagingPrompt :: tail))
    ∧ head (pages_sent tail) = Some text
    ∧ HasPrefix text "*** test" = true.
Proof.
  assert (Hlt : page_size ["*** compile"; wideLine; wideLine] < histPageSize)
    by (vm_compute; reflexivity).
  assert (Hge : histPageSize
                ≤ page_size ["*** compile"; wideLine; wideLine] + (len wideLine + 1))
    by (vm_compute; discriminate).
  assert (Hpre : Forall (fun l => ¬ opens_section l) ["warnings: 0"]).
  { repeat constructor. unfold opens_section. vm_compute. discriminate. }
  assert (Hmarker : opens_section "*** test") by (vm_compute; reflexivity).
  exact (@X22_skip_lands_on_next_section sampleHistory skipOnce "build" 1
           ["*** compile"; wideLine; wideLine] wideLine ["warnings: 0"]
           "*** test" ["ok"] eq_refl Hlt Hge Hpre Hmarker (or_introl eq_refl)).
Defined.


(** X24 for the administrator in the channel of the job, and for a user who
    is not one. *)
Lemma X24_agreement_witness :
  (jobAvailable ["alice"] opsContext "deploy").1 = Some deployJob
  ∧ (jobAvailable ["alice"] bobContext "deploy").1 = None.
Proof.
  split.
  - etrans; [exact (@X24_jobAvailable_agrees_with_jobVisible plainGlob ["alice"]
                      opsContext "deploy" deployJob eq_refl)|].
    vm_compute. reflexivity.
  - etrans; [exact (@X24_jobAvailable_agrees_with_jobVisible plainGlob ["alice"]
                      bobContext "deploy" deployJob eq_refl)|].
    vm_compute. reflexivity.
Defined.

(** X26 for the job seen from its channel with disabled jobs accepted. *)
Lemma X26_monotone_witness :
  jobVisible ["alice"] (makeRobot opsContext) deployJob false true = true
  ∧ jobVisible ["alice"] (makeRobot opsContext) deployJob true true = true
  ∧ CheckAdmin ["alice"] opsContext (makeRobot opsContext) = true.
Proof.
  assert (Hvis : jobVisible ["alice"] (makeRobot opsContext) deployJob false true
                 = true) by (vm_compute; reflexivity).
  destruct (@X26_jobVisible_is_monotone plainGlob ["alice"] (makeRobot opsContext)
              deployJob false true true false opsContext Hvis) as [Hmore Hadmin].
  split; [exact Hvis|]. split; [exact Hmore|exact (Hadmin eq_refl)].
Defined.

(** X27 without initialized encryption, with the secrets retrieved, and for
    the first call of a context. *)
Lemma X27_once_witness :
  @GetSecret _ tagCrypt branchContexts secretsJson 9%nat carol "token"
    lockedGlobals noSecrets = Return ("", noSecrets)
  ∧ (∃ value,
       @GetSecret _ tagCrypt branchContexts secretsJson 9%nat carol "token"
         (globals secretWorld) cachedSecrets = Return (value, cachedSecrets))
  ∧ ∃ k,
      @GetSecret _ tagCrypt branchContexts secretsJson 9%nat carol "token"
        (globals secretWorld) noSecrets
      = CheckOutCall {| creq_key := secretKey; creq_rw := false;
                        creq_reply := 9%nat |} k
      ∧ ∀ rep, retrieved (k rep).2 = true.
Proof.
  split; [|split].
  - exact (proj1 (@X27_GetSecret_asks_the_brain_once _ tagCrypt branchContexts
                    secretsJson 9%nat carol "token" lockedGlobals noSecrets)
             eq_refl).
  - exact (proj1 (proj2 (@X27_GetSecret_asks_the_brain_once _ tagCrypt
                           branchContexts secretsJson 9%nat carol "token"
                           (globals secretWorld) cachedSecrets))
             eq_refl eq_refl).
  - exact (proj2 (proj2 (@X27_GetSecret_asks_the_brain_once _ tagCrypt
                           branchContexts secretsJson 9%nat carol "token"
                           (globals secretWorld) noSecrets))
             eq_refl eq_refl).
Defined.

(** X28 for the branch ["main"] of ["acme/www"]: the secret of the
    repository, not the one of the task. *)
Lemma X28_repository_witness :
  @GetSecret _ tagCrypt branchContexts secretsJson 9%nat carol "token"
    (globals secretWorld) cachedSecrets
  = Return ("r", cachedSecrets).
Proof.
  assert (Hnone : RepositoryParams cachedSecrets !! ("acme/www" ++ "/" ++ "main")
                    ≫= (.!! "token") = None)
    by (vm_compute; reflexivity).
  assert (Hrepo : RepositoryParams cachedSecrets !! "acme/www"
                  = Some {["token" := [xee; x72]%byte]})
    by (vm_compute; reflexivity).
  assert (Hname : ({["token" := [xee; x72]%byte]} : gmap string (list byte))
                    !! "token" = Some [xee; x72]%byte)
    by (vm_compute; reflexivity).
  exact (@X28_repository_secret_for_a_branch _ tagCrypt branchContexts
           secretsJson 9%nat carol "token" (globals secretWorld) cachedSecrets
           "acme/www" "main" _ _ [x72%byte]
           eq_refl eq_refl eq_refl eq_refl Hnone Hrepo Hname eq_refl).
Defined.

(** X29 for the same call. *)
Lemma X29_own_secrets_witness :
  ∃ (m : gmap string (list byte)) secret value,
    m !! "token" = Some secret
    ∧ decrypt secret (ck_key (cryptKey (globals secretWorld))) = Some value
    ∧ "r" = string_of_list_byte value.
Proof.
  assert (Hget : @GetSecret _ tagCrypt branchContexts secretsJson 9%nat carol "token"
                   (globals secretWorld) cachedSecrets
                 = Return ("r", cachedSecrets))
    by (vm_compute; reflexivity).
  destruct (@X29_GetSecret_returns_own_secrets _ tagCrypt branchContexts
              secretsJson 9%nat carol "token" (globals secretWorld) cachedSecrets
              "r" eq_refl eq_refl Hget ltac:(discriminate))
    as (m & secret & value & _ & Hs & Hd & Hv).
  exists m, secret, value. split; [exact Hs|]. split; [exact Hd|exact Hv].
Defined.

(** X30 for the first call of the context against the loop. *)
Lemma X30_first_call_witness :
  (run_api (@GetSecret _ tagCrypt branchContexts secretsJson 9%nat carol "token"
              (globals secretWorld) noSecrets) secretWorld).2
  = Some ("r", cachedSecrets)
  ∧ memories (run_api (@GetSecret _ tagCrypt branchContexts secretsJson 9%nat carol
                         "token" (globals secretWorld) noSecrets)
                secretWorld).1
    = memories secretWorld.
Proof.
  assert (Hret : Retrieve secretKey
                   ({[secretKey := [xee; x7b]%byte]} : gmap string (list byte))
                 = (([xee; x7b]%byte, true, None),
                    {[secretKey := [xee; x7b]%byte]}))
    by (vm_compute; reflexivity).
  destruct (@X30_GetSecret_reads_without_locking _ mapBrain tagCrypt countingRand
              branchContexts secretsJson secretWorld 9%nat carol "token" noSecrets
              {[secretKey := [xee; x7b]%byte]} [xee; x7b]%byte
              {[secretKey := [xee; x7b]%byte]} [x7b%byte] storedSecrets
              eq_refl eq_refl eq_refl eq_refl eq_refl eq_refl Hret eq_refl
              eq_refl) as (Hres & Hmem & _).
  split; [|exact Hmem].
  etrans; [exact Hres|]. vm_compute. reflexivity.
Defined.

End MoreSamples.
